(** * dyntpl / cbytetpl: template parser and renderer

    A shallow embedding of the template engine: the node model and the
    tree post-processing of [ctl_tree.go], the modifier registry, the
    renderer of [dyntpl.go] and the parser of [init.go], followed by the
    properties of the specification that were checked against them. *)

From Stdlib Require Import ZArith Lia List String Bool.
From Stdlib.Strings Require Import Byte Ascii.
From stdpp Require Import base option list gmap strings.
Import ListNotations.

Open Scope Z_scope.

(** ** Bytes and strings *)

(** Go's [[]byte] is a list of bytes, Go's [string] a [string];
    [fastconv.B2S] reinterprets the one as the other. *)
Abbreviation bytes := (list byte).

#[global] Instance byte_eq_decision : EqDecision byte := byte_eq_dec.

Definition B (s : string) : bytes := list_byte_of_string s.
Definition B2S (b : bytes) : string := string_of_list_byte b.

(** [bytes.Equal] *)
Fixpoint bytes_eqb (a b : bytes) : bool :=
  match a, b with
  | [], [] => true
  | x :: a', y :: b' => Byte.eqb x y && bytes_eqb a' b'
  | _, _ => false
  end.

(** [len(x)] as a Go [int]. *)
Definition len {A} (l : list A) : Z := Z.of_nat (length l).

(** ** Node types and operators ([tree_types.go], [ctl_tree.go]) *)

(** [type Type int] with its constants.  [TypeCounter] is assigned by the
    parser; [TypeNone] is the sentinel [Type(-1)] that [rollupSwitchNodes]
    gives the group it has not opened yet. *)
Inductive Typ :=
| TypeRaw | TypeTpl | TypeCond | TypeCondTrue | TypeCondFalse
| TypeLoopRange | TypeLoopCount | TypeBreak | TypeContinue | TypeCtx
| TypeSwitch | TypeCase | TypeDefault | TypeDiv | TypeExit
| TypeCounter | TypeNone.

Inductive Op :=
| OpUnk | OpEq | OpNq | OpGt | OpGtq | OpLt | OpLtq | OpInc | OpDec.

#[global] Instance Typ_eq_dec : EqDecision Typ.
Proof. solve_decision. Defined.

#[global] Instance Op_eq_dec : EqDecision Op.
Proof. solve_decision. Defined.

(** [func (o Op) Swap() Op] *)
Definition Swap (o : Op) : Op :=
  match o with
  | OpGt => OpLt
  | OpGtq => OpLtq
  | OpLt => OpGt
  | OpLtq => OpGtq
  | _ => o
  end.

(** [func (typ Type) String() string] *)
Definition TypeString (t : Typ) : string :=
  match t with
  | TypeRaw => "raw"
  | TypeTpl => "tpl"
  | TypeCond => "cond"
  | TypeCondTrue => "true"
  | TypeCondFalse => "false"
  | TypeLoopRange => "rloop"
  | TypeLoopCount => "cloop"
  | TypeBreak => "break"
  | TypeContinue => "cont"
  | TypeCtx => "ctx"
  | TypeSwitch => "switch"
  | TypeCase => "case"
  | TypeDefault => "def"
  | TypeDiv => "div"
  | TypeExit => "exit"
  | _ => "unk"
  end.

(** [func (o Op) String() string] *)
Definition OpString (o : Op) : string :=
  match o with
  | OpEq => "=="
  | OpNq => "!="
  | OpGt => ">"
  | OpGtq => ">="
  | OpLt => "<"
  | OpLtq => "<="
  | OpInc => "++"
  | OpDec => "--"
  | _ => "unk"
  end.

(** ** Errors *)

(** The sentinel errors of the package, compared by identity in the
    source.  The three [fmt.Errorf] values of the parser carry their
    arguments; [ErrExternal] stands for an error value produced by a
    collaborator outside the package (inspector, cbytealg, strconv). *)
Inductive error :=
| ErrUnexpectedEOF | ErrBadCtl | ErrTplNotFound | ErrEmptyArg
| ErrSenselessCond | ErrUnknownCtl | ErrBreakLoop | ErrContLoop
| ErrInterrupt | ErrModNoArgs | ErrModPoorArgs
| ErrCondComplex (t : bytes) (pos : Z)
| ErrLoopParse (t : bytes) (pos : Z)
| ErrUnknownCtlAt (t : bytes) (pos : Z)
| ErrExternal (msg : string).

#[global] Instance error_eq_dec : EqDecision error.
Proof. solve_decision. Defined.

(** ** Values and the render context *)

(** A Go [interface{}] value, as far as the renderer distinguishes them:
    the nil interface, a string, a byte slice, a pointer to a byte slice
    (a static modifier argument is passed as [&arg.val]), and host values
    of other dynamic types, a sequence among them. *)
Inductive iface :=
| INil
| IString (s : bytes)
| IBytes (b : bytes)
| IPtrBytes (b : bytes)
| IInt (z : Z)
| IBool (b : bool)
| ISlice (elems : list iface)
| IOpaque (tag : nat).

(** The test of the print branch, [raw == nil] or [raw] equal to the empty
    string constant, on an interface value: the second comparison holds
    only for a value whose dynamic type is [string]. *)
Definition isNilOrEmptyString (v : iface) : bool :=
  match v with
  | INil => true
  | IString [] => true
  | _ => false
  end.

(** Modelled from the spec: the Context ([ctx.go] is not among the
    sources): a variable-name to value binding table, the scratch buffers
    the renderer reads and writes, and the current-evaluation error slot. *)
Record Ctx := mkCtx {
  vars : gmap string iface;
  Err : option error;
  buf : iface;
  bbuf : bytes;
  modA : list iface
}.

Definition setErr (e : option error) (c : Ctx) : Ctx :=
  mkCtx (vars c) e (buf c) (bbuf c) (modA c).
Definition setBuf (v : iface) (c : Ctx) : Ctx :=
  mkCtx (vars c) (Err c) v (bbuf c) (modA c).
Definition setBbuf (b : bytes) (c : Ctx) : Ctx :=
  mkCtx (vars c) (Err c) (buf c) b (modA c).
Definition setModA (a : list iface) (c : Ctx) : Ctx :=
  mkCtx (vars c) (Err c) (buf c) (bbuf c) a.

(** ** Modifiers *)

(** [type ModFn func(ctx *Ctx, buf *interface{}, val interface{},
    args []interface{}) error], called through its pointer with the
    arguments [ctx, &ctx.buf, ctx.buf, ctx.modA]: the function may write
    the context, [ctx.buf] included, and returns an error. *)
Definition ModFn := Ctx -> iface -> list iface -> option error * Ctx.

(** [type modArg struct] (the fields [val], [static], [ssc]). *)
Record modArg := mkArg {
  arg_val : bytes;
  arg_static : bool;
  arg_ssc : list string
}.

(** [type mod struct] (the fields [id], [fn], [arg]); [fn] is a [*ModFn],
    and [None] is the nil pointer. *)
Record Mod := mkMod {
  mod_id : bytes;
  mod_fn : option ModFn;
  mod_arg : list modArg
}.

(** ** Nodes *)

(** [type Node struct]: one flat struct for every construct.  The fields
    are kept in the groups the struct declares them in. *)
Record PrintFields := mkPrint {
  raw : bytes;
  rawStatic : bool;
  rawSsc : list string;
  prefix : bytes;
  suffix : bytes
}.

Record CtxFields := mkCtxF {
  ctxVar : bytes;
  ctxSrc : bytes;
  ctxSrcStatic : bool;
  ctxSrcSsc : list string;
  ctxIns : bytes
}.

Record CntrFields := mkCntr {
  cntrVar : bytes;
  cntrInitF : bool;
  cntrInit : Z;
  cntrOp : Op;
  cntrOpArg : Z
}.

Record CondFields := mkCond {
  condL : bytes;
  condR : bytes;
  condStaticL : bool;
  condStaticR : bool;
  condRSsc : list string;
  condOp : Op;
  condHlp : bytes;
  condHlpArg : list modArg
}.

Record LoopFields := mkLoop {
  loopKey : bytes;
  loopVal : bytes;
  loopSrc : bytes;
  loopCnt : bytes;
  loopCntInit : bytes;
  loopCntStatic : bool;
  loopCntOp : Op;
  loopCondOp : Op;
  loopLim : bytes;
  loopLimStatic : bool;
  loopSep : bytes
}.

Record CaseFields := mkCase {
  caseL : bytes;
  caseR : bytes;
  caseStaticL : bool;
  caseStaticR : bool;
  caseLSsc : list string;
  caseRSsc : list string;
  caseOp : Op
}.

#[local] Unset Elimination Schemes.
Inductive Node := mkNode {
  typ : Typ;
  prn : PrintFields;
  ctxf : CtxFields;
  cntr : CntrFields;
  cond : CondFields;
  loop : LoopFields;
  switchArg : bytes;
  case_ : CaseFields;
  mods : list Mod;
  child : list Node
}.
#[local] Set Elimination Schemes.

(** The zero values [Node{}] and its groups. *)
Definition Print0 := mkPrint [] false [] [] [].
Definition CtxF0 := mkCtxF [] [] false [] [].
Definition Cntr0 := mkCntr [] false 0 OpUnk 0.
Definition Cond0 := mkCond [] [] false false [] OpUnk [] [].
Definition Loop0 := mkLoop [] [] [] [] [] false OpUnk OpUnk [] false [].
Definition Case0 := mkCase [] [] false false [] [] OpUnk.
Definition Node0 : Node :=
  mkNode TypeRaw Print0 CtxF0 Cntr0 Cond0 Loop0 [] Case0 [] [].

Definition set_typ (t : Typ) (n : Node) : Node :=
  mkNode t (prn n) (ctxf n) (cntr n) (cond n) (loop n) (switchArg n)
         (case_ n) (mods n) (child n).
Definition set_prn (x : PrintFields) (n : Node) : Node :=
  mkNode (typ n) x (ctxf n) (cntr n) (cond n) (loop n) (switchArg n)
         (case_ n) (mods n) (child n).
Definition set_ctxf (x : CtxFields) (n : Node) : Node :=
  mkNode (typ n) (prn n) x (cntr n) (cond n) (loop n) (switchArg n)
         (case_ n) (mods n) (child n).
Definition set_cntr (x : CntrFields) (n : Node) : Node :=
  mkNode (typ n) (prn n) (ctxf n) x (cond n) (loop n) (switchArg n)
         (case_ n) (mods n) (child n).
Definition set_cond (x : CondFields) (n : Node) : Node :=
  mkNode (typ n) (prn n) (ctxf n) (cntr n) x (loop n) (switchArg n)
         (case_ n) (mods n) (child n).
Definition set_loop (x : LoopFields) (n : Node) : Node :=
  mkNode (typ n) (prn n) (ctxf n) (cntr n) (cond n) x (switchArg n)
         (case_ n) (mods n) (child n).
Definition set_switchArg (x : bytes) (n : Node) : Node :=
  mkNode (typ n) (prn n) (ctxf n) (cntr n) (cond n) (loop n) x
         (case_ n) (mods n) (child n).
Definition set_case (x : CaseFields) (n : Node) : Node :=
  mkNode (typ n) (prn n) (ctxf n) (cntr n) (cond n) (loop n) (switchArg n)
         x (mods n) (child n).
Definition set_mods (x : list Mod) (n : Node) : Node :=
  mkNode (typ n) (prn n) (ctxf n) (cntr n) (cond n) (loop n) (switchArg n)
         (case_ n) x (child n).
Definition set_child (x : list Node) (n : Node) : Node :=
  mkNode (typ n) (prn n) (ctxf n) (cntr n) (cond n) (loop n) (switchArg n)
         (case_ n) (mods n) x.

(** [type Tree struct { nodes []Node }] *)
Record Tree := mkTree { nodes : list Node }.

(** ** Tree helpers ([ctl_tree.go]) *)

Definition addNode (nodes : list Node) (node : Node) : list Node :=
  nodes ++ [node].

Definition rawNode (r : bytes) : Node :=
  set_prn (mkPrint r false [] [] []) (set_typ TypeRaw Node0).

Definition addRaw (nodes : list Node) (r : bytes) : list Node :=
  match r with
  | [] => nodes
  | _ => nodes ++ [rawNode r]
  end.

(** [nodes[o:i]] and [nodes[o:]] on slice indices. *)
Definition slice {A} (l : list A) (o i : nat) : list A :=
  take (i - o) (drop o l).

(** The [for i, node := range nodes] loop of [splitNodes]: [rest] is what
    is left to visit, [i] the index of its head in [all]. *)
Fixpoint splitLoop (all rest : list Node) (i o : nat)
    (split : list (list Node)) : nat * list (list Node) :=
  match rest with
  | [] => (o, split)
  | node :: rest' =>
      if decide (typ node = TypeDiv)
      then splitLoop all rest' (S i) (S i) (split ++ [slice all o i])
      else splitLoop all rest' (S i) o split
  end.

Definition splitNodes (nodes : list Node) : list (list Node) :=
  match nodes with
  | [] => []
  | _ =>
      let '(o, split) := splitLoop nodes nodes 0 0 [] in
      if (o <? length nodes)%nat then split ++ [drop o nodes] else split
  end.

Definition isCaseOrDefault (n : Node) : bool :=
  bool_decide (typ n = TypeCase) || bool_decide (typ n = TypeDefault).

(** The loop of [rollupSwitchNodes] over the state [(r, group)]. *)
Fixpoint rollupLoop (rest : list Node) (r : list Node) (group : Node)
    : list Node * Node :=
  match rest with
  | [] => (r, group)
  | node :: rest' =>
      if negb (isCaseOrDefault node) && bool_decide (typ group = TypeNone)
      then rollupLoop rest' r group
      else if isCaseOrDefault node
      then
        let r := if bool_decide (typ group <> TypeNone)
                 then r ++ [group] else r in
        rollupLoop rest' r node
      else rollupLoop rest' r (set_child (child group ++ [node]) group)
  end.

Definition rollupSwitchNodes (nodes : list Node) : list Node :=
  match nodes with
  | [] => []
  | _ =>
      let '(r, group) := rollupLoop nodes [] (set_typ TypeNone Node0) in
      if (0 <? len (child group)) then r ++ [group] else r
  end.

(** ** The modifier registry *)

(** [modRegistry = map[string]ModFn{}], [RegisterModFn] and [GetModFn],
    for any type [F] of registered functions. *)
Section Registry.
Context {F : Type}.

Definition RegisterModFn (name alias : string) (m : F)
    (modRegistry : gmap string F) : gmap string F :=
  let modRegistry := <[name := m]> modRegistry in
  if (0 <? len (list_byte_of_string alias))
  then <[alias := m]> modRegistry
  else modRegistry.

Definition GetModFn (modRegistry : gmap string F) (name : string)
    : option F :=
  match modRegistry !! name with
  | Some fn => Some fn
  | None => None
  end.
End Registry.

(** ** The renderer ([dyntpl.go]) *)

(** The output sink [w io.Writer]: a state and the method [Write], which
    takes the bytes handed to it and returns its error with the state it
    leaves (the count it returns is never looked at).  A writer may
    refuse any call. *)
Class Writer := {
  Sink : Type;
  Write : Sink -> bytes -> Sink * option error
}.

(** [bytes.Buffer]: [Write] appends and returns a nil error. *)
Definition Buffer : Writer :=
  {| Sink := bytes; Write buf p := (buf ++ p, None) |}.

(** What a render call works on: the sink and the context.  What it
    leaves behind is the returned [err], the bytes it handed to the sink,
    in order, and the sink and the context as they then are.  [None] is
    a run-time panic (the call of a nil [*ModFn], an index out of range),
    which unwinds through every caller. *)
Definition State `{Writer} : Type := (Sink * Ctx)%type.
Definition Res `{Writer} : Type := option (option error * bytes * State).
Definition Renderer `{Writer} : Type := State -> Res.

(** The bytes [pre] were written before the call that gave [r]. *)
Definition after {A S} (pre : bytes) (r : option (A * bytes * S))
    : option (A * bytes * S) :=
  '(a, o, st) ← r; Some (a, pre ++ o, st).

Inductive LoopCtl := LoopCtlNone | LoopCtlBrk | LoopCtlCnt.

#[global] Instance LoopCtl_eq_dec : EqDecision LoopCtl.
Proof. solve_decision. Defined.

(** The collaborators of the renderer that live outside the sources: the
    context methods of [ctx.go] ([getSsc], [cmp], [SetBytes], [Set],
    [cloop], and the enumeration behind [rloop]), [cbytealg.AnyToBytes]
    and [inspector.GetInspector].  Each takes the context and returns the
    context it leaves; [cloop] is handed the sink as well, with the
    renderers of the loop node's children, and returns what it wrote. *)
Class Host `{Writer} := {
  Inspector : Type;
  getSsc : bytes -> list string -> Ctx -> iface * Ctx;
  cmp : bytes -> Op -> bytes -> Ctx -> bool * Ctx;
  AnyToBytes : bytes -> iface -> bytes * option error;
  GetInspector : string -> Inspector + error;
  SetBytes : string -> bytes -> Ctx -> Ctx;
  SetVar : string -> iface -> Inspector -> Ctx -> Ctx;
  rangeElems : bytes -> Ctx -> list (iface * iface * Inspector) * Ctx;
  cloop : Node -> list Renderer -> State -> option (bytes * State)
}.

(** Go's [int] is 64 bits wide; [x++] wraps around. *)
Definition wrap64 (z : Z) : Z := (z + 2 ^ 63) mod 2 ^ 64 - 2 ^ 63.

(** [type RangeLoop struct]: the counter and the loop node; the fields
    [tpl], [ctx] and [w] are the references the model passes explicitly,
    [stat] and [next] belong to the free list. *)
Record RangeLoop := mkRangeLoop {
  rl_cntr : Z;
  rl_node : Node
}.

Definition NewRangeLoop (node : Node) : RangeLoop := mkRangeLoop 0 node.

Definition RequireKey (rl : RangeLoop) : bool :=
  0 <? len (loopKey (loop (rl_node rl))).

(** How a loop over cases ends: [Return e] leaves [renderNode] with [e],
    [Done r e] falls out of the loop with the variables [r] and [err]. *)
Inductive Scan :=
| Return (e : option error)
| Done (r : bool) (e : option error).

Section Renderer.
Context `{Host}.

(** [_, err = w.Write(p)] *)
Definition write (p : bytes) : Renderer :=
  fun '(w, ctx) =>
    let '(w, err) := Write w p in
    Some (err, p, (w, ctx)).

(** [_, _ = w.Write(p)]: the error is dropped. *)
Definition writeQuiet (p : bytes) (w : Sink) : Sink := (Write w p).1.

Definition SetKey (rl : RangeLoop) (v : iface) (ins : Inspector)
    (ctx : Ctx) : Ctx :=
  SetVar (B2S (loopKey (loop (rl_node rl)))) v ins ctx.

Definition SetVal (rl : RangeLoop) (v : iface) (ins : Inspector)
    (ctx : Ctx) : Ctx :=
  SetVar (B2S (loopVal (loop (rl_node rl)))) v ins ctx.

(** [kids[i]] called on the sink and the context. *)
Definition callAt (kids : list Renderer) (i : nat) : Renderer :=
  fun st =>
    match kids !! i with
    | Some k => k st
    | None => None
    end.

(** The argument loop of a modifier: [ctx.modA] grows by one value per
    argument. *)
Fixpoint modArgs (args : list modArg) (ctx : Ctx) : Ctx :=
  match args with
  | [] => ctx
  | a :: args' =>
      if arg_static a
      then modArgs args' (setModA (modA ctx ++ [IPtrBytes (arg_val a)]) ctx)
      else
        let '(v, ctx) := getSsc (arg_val a) (arg_ssc a) ctx in
        modArgs args' (setModA (modA ctx ++ [v]) ctx)
  end.

(** The modifier loop of a print node, on the local [raw]. *)
Fixpoint runMods (ms : list Mod) (rawv : iface) (ctx : Ctx)
    : option (iface * Ctx) :=
  match ms with
  | [] => Some (rawv, ctx)
  | m :: ms' =>
      let ctx := setModA [] ctx in
      let ctx := modArgs (mod_arg m) ctx in
      let ctx := setBuf rawv ctx in
      f ← mod_fn m;
      let '(e, ctx) := f ctx (buf ctx) (modA ctx) in
      let ctx := setErr e ctx in
      match Err ctx with
      | Some _ => Some (rawv, ctx)
      | None => runMods ms' (buf ctx) ctx
      end
  end.

(** The operand of a print node: [node.raw] itself or its lookup. *)
Definition tplOperand (node : Node) (ctx : Ctx) : iface * Ctx :=
  let p := prn node in
  if rawStatic p then (IBytes (raw p), ctx)
  else getSsc (raw p) (rawSsc p) ctx.

(** The bytes the three writes that close [case TypeTpl] hand over. *)
Definition tplOutput (node : Node) (bb : bytes) : bytes :=
  let p := prn node in
  (if 0 <? len (prefix p) then prefix p else [])
    ++ bb
    ++ (if 0 <? len (suffix p) then suffix p else []).

(** The three writes themselves: only the error of the second, the
    write of the value, is kept. *)
Definition tplWrites (node : Node) (bb : bytes) (w : Sink)
    : Sink * option error :=
  let p := prn node in
  let w := if 0 <? len (prefix p) then writeQuiet (prefix p) w else w in
  let '(w, err) := Write w bb in
  let w := if 0 <? len (suffix p) then writeQuiet (suffix p) w else w in
  (w, err).

(** [case TypeTpl] *)
Definition renderTpl (node : Node) : Renderer :=
  fun '(w, ctx) =>
    let '(rawv, ctx) := tplOperand node ctx in
    match Err ctx with
    | Some e => Some (Some e, [], (w, ctx))
    | None =>
        '(rawv, ctx) ← runMods (mods node) rawv ctx;
        match Err ctx with
        | Some _ => Some (None, [], (w, ctx))
        | None =>
            if isNilOrEmptyString rawv
            then Some (Some ErrEmptyArg, [], (w, ctx))
            else
              let '(bb, e) := AnyToBytes (bbuf ctx) rawv in
              let ctx := setBbuf bb ctx in
              match e with
              | Some e => Some (Some e, [], (w, ctx))
              | None =>
                  let '(w, err) := tplWrites node (bbuf ctx) w in
                  Some (err, tplOutput node (bbuf ctx), (w, ctx))
              end
        end
    end.

(** [case TypeCtx] *)
Definition renderCtx (node : Node) : Renderer :=
  fun '(w, ctx) =>
    let c := ctxf node in
    if ctxSrcStatic c
    then Some (None, [], (w, SetBytes (B2S (ctxVar c)) (ctxSrc c) ctx))
    else
      match GetInspector (B2S (ctxIns c)) with
      | inr e => Some (Some e, [], (w, ctx))
      | inl ins =>
          let '(v, ctx) := getSsc (ctxSrc c) (ctxSrcSsc c) ctx in
          Some (None, [], (w, SetVar (B2S (ctxVar c)) v ins ctx))
      end.

(** The comparison of [case TypeCond], up to the test of [ctx.Err] that
    follows it: [inl e] returns [e], [inr r] goes on with the result. *)
Definition condEval (node : Node) (ctx : Ctx) : (error + bool) * Ctx :=
  let c := cond node in
  let sl := condStaticL c in
  let sr := condStaticR c in
  if sl && sr then (inl ErrSenselessCond, ctx)
  else
    let '(res, ctx) :=
      if sr then
        let '(r, ctx) := cmp (condL c) (condOp c) (condR c) ctx in
        (inr r, ctx)
      else if sl then
        let '(r, ctx) := cmp (condR c) (Swap (condOp c)) (condL c) ctx in
        (inr r, ctx)
      else
        let '(_, ctx) := getSsc (condR c) (condRSsc c) ctx in
        match Err ctx with
        | None =>
            let '(bb, e) := AnyToBytes [] (buf ctx) in
            let ctx := setBbuf bb ctx in
            match e with
            | Some e => (inl e, ctx)
            | None =>
                let '(r, ctx) := cmp (condL c) (condOp c) (bbuf ctx) ctx in
                (inr r, ctx)
            end
        | Some _ => (inr false, ctx)
        end in
    match res with
    | inl e => (inl e, ctx)
    | inr r =>
        match Err ctx with
        | Some e => (inl e, ctx)
        | None => (inr r, ctx)
        end
    end.

(** [case TypeCond]; both branches index [node.child[0]]. *)
Definition renderCond (node : Node) (kids : list Renderer) : Renderer :=
  fun '(w, ctx) =>
    match condEval node ctx with
    | (inl e, ctx) => Some (Some e, [], (w, ctx))
    | (inr r, ctx) =>
        if r then
          if 0 <? len kids then callAt kids 0 (w, ctx)
          else Some (None, [], (w, ctx))
        else
          if 1 <? len kids then callAt kids 0 (w, ctx)
          else Some (None, [], (w, ctx))
    end.

(** [case TypeCondTrue, TypeCondFalse, TypeCase, TypeDefault] *)
Fixpoint renderSeq (kids : list Renderer) : Renderer :=
  fun st =>
    match kids with
    | [] => Some (None, [], st)
    | k :: kids' =>
        '(e, o, st) ← k st;
        match e with
        | Some _ => Some (e, o, st)
        | None => after o (renderSeq kids' st)
        end
    end.

(** One pass of the first loop of [case TypeSwitch] (a discriminant is
    present) over the child [ch]: the value [r] takes. *)
Definition classicEval (arg : bytes) (ch : Node) (ctx : Ctx)
    : (error + bool) * Ctx :=
  let c := case_ ch in
  if bool_decide (typ ch = TypeCase) then
    if caseStaticL c then
      let '(r, ctx) := cmp arg OpEq (caseL c) ctx in
      (inr r, ctx)
    else
      let '(_, ctx) := getSsc (caseL c) (caseLSsc c) ctx in
      match Err ctx with
      | None =>
          let '(bb, e) := AnyToBytes [] (buf ctx) in
          let ctx := setBbuf bb ctx in
          match e with
          | Some e => (inl e, ctx)
          | None =>
              let '(r, ctx) := cmp arg OpEq (bbuf ctx) ctx in
              (inr r, ctx)
          end
      | Some _ => (inr false, ctx)
      end
  else (inr false, ctx).

(** The first loop of [case TypeSwitch].  The loop breaks as soon as [r]
    is true, so [r] is false on entry to every pass. *)
Fixpoint switchClassic (arg : bytes) (kids : list (Node * Renderer))
    (st : State) : option (Scan * bytes * State) :=
  match kids with
  | [] => Some (Done false None, [], st)
  | (ch, k) :: kids' =>
      match classicEval arg ch st.2 with
      | (inl e, ctx) => Some (Return (Some e), [], (st.1, ctx))
      | (inr true, ctx) =>
          '(e, o, st) ← k (st.1, ctx);
          Some (Done true e, o, st)
      | (inr false, ctx) => switchClassic arg kids' (st.1, ctx)
      end
  end.

(** One pass of the second loop (no discriminant) over a Case [ch]. *)
Definition caseEval (ch : Node) (ctx : Ctx) : (error + bool) * Ctx :=
  let c := case_ ch in
  let sl := caseStaticL c in
  let sr := caseStaticR c in
  if sl && sr then (inl ErrSenselessCond, ctx)
  else
    let '(res, ctx) :=
      if sr then
        let '(r, ctx) := cmp (caseL c) (caseOp c) (caseR c) ctx in
        (inr r, ctx)
      else if sl then
        let '(r, ctx) := cmp (caseR c) (Swap (caseOp c)) (caseL c) ctx in
        (inr r, ctx)
      else
        let '(_, ctx) := getSsc (caseR c) (caseRSsc c) ctx in
        match Err ctx with
        | None =>
            let '(bb, e) := AnyToBytes [] (buf ctx) in
            let ctx := setBbuf bb ctx in
            match e with
            | Some e => (inl e, ctx)
            | None =>
                let '(r, ctx) := cmp (caseL c) (caseOp c) (bbuf ctx) ctx in
                (inr r, ctx)
            end
        | Some _ => (inr false, ctx)
        end in
    match res with
    | inl e => (inl e, ctx)
    | inr r =>
        match Err ctx with
        | Some e => (inl e, ctx)
        | None => (inr r, ctx)
        end
    end.

(** The second loop of [case TypeSwitch]. *)
Fixpoint switchCond (kids : list (Node * Renderer)) (st : State)
    : option (Scan * bytes * State) :=
  match kids with
  | [] => Some (Done false None, [], st)
  | (ch, k) :: kids' =>
      if bool_decide (typ ch = TypeCase) then
        match caseEval ch st.2 with
        | (inl e, ctx) => Some (Return (Some e), [], (st.1, ctx))
        | (inr true, ctx) =>
            '(e, o, st) ← k (st.1, ctx);
            Some (Done true e, o, st)
        | (inr false, ctx) => switchCond kids' (st.1, ctx)
        end
      else switchCond kids' st
  end.

(** The closing loop of [case TypeSwitch]: the first Default child. *)
Fixpoint switchDefault (kids : list (Node * Renderer)) : Renderer :=
  fun st =>
    match kids with
    | [] => Some (None, [], st)
    | (ch, k) :: kids' =>
        if bool_decide (typ ch = TypeDefault) then k st
        else switchDefault kids' st
    end.

(** [case TypeSwitch] *)
Definition renderSwitch (node : Node) (kids : list (Node * Renderer))
    : Renderer :=
  fun st =>
    '(scan, o, st) ←
      (if 0 <? len (switchArg node)
       then switchClassic (switchArg node) kids st
       else switchCond kids st);
    match scan with
    | Return e => Some (e, o, st)
    | Done true e => Some (e, o, st)
    | Done false _ => after o (switchDefault kids st)
    end.

(** The child loop of [RangeLoop.Iterate]: only the two loop signals
    are looked at, any other [err] is dropped. *)
Fixpoint iterChildren (kids : list Renderer) (st : State)
    : option (LoopCtl * bytes * State) :=
  match kids with
  | [] => Some (LoopCtlNone, [], st)
  | k :: kids' =>
      '(e, o, st) ← k st;
      if bool_decide (e = Some ErrBreakLoop) then Some (LoopCtlBrk, o, st)
      else if bool_decide (e = Some ErrContLoop)
      then Some (LoopCtlCnt, o, st)
      else after o (iterChildren kids' st)
  end.

(** [func (rl *RangeLoop) Iterate() inspector.LoopCtl], with [kids] the
    calls [rl.tpl.renderNode(rl.w, ch, rl.ctx)] for the children [ch] of
    [rl.node]; the error of the separator's write is dropped. *)
Definition IterateWith (kids : list Renderer) (rl : RangeLoop)
    : State -> option (LoopCtl * RangeLoop * bytes * State) :=
  fun '(w, ctx) =>
    let sep := loopSep (loop (rl_node rl)) in
    let wr := (0 <? rl_cntr rl) && (0 <? len sep) in
    let o := if wr then sep else [] in
    let w := if wr then writeQuiet sep w else w in
    let rl := mkRangeLoop (wrap64 (rl_cntr rl + 1)) (rl_node rl) in
    '(ctl, o', st) ← iterChildren kids (w, ctx);
    Some (ctl, rl, o ++ o', st).

(** The binding of one element before [Iterate] is called. *)
Definition bindElem (rl : RangeLoop) (el : iface * iface * Inspector)
    (ctx : Ctx) : Ctx :=
  let '(k, v, ins) := el in
  let ctx := if RequireKey rl then SetKey rl k ins ctx else ctx in
  SetVal rl v ins ctx.

(** Modelled from the spec: the enumeration that [ctx.rloop] hands the
    loop object to ([ctx.go] and the inspector are not among the
    sources).  For each element the optional key and the value are bound
    in the context and the body is rendered once through [Iterate]; a
    break signal stops the enumeration, a continue signal moves on to
    the next element. *)
Fixpoint loopDrive (kids : list Renderer)
    (elems : list (iface * iface * Inspector)) (rl : RangeLoop)
    (st : State) : option (RangeLoop * bytes * State) :=
  match elems with
  | [] => Some (rl, [], st)
  | el :: elems' =>
      let st := (st.1, bindElem rl el st.2) in
      '(ctl, rl, o, st) ← IterateWith kids rl st;
      match ctl with
      | LoopCtlBrk => Some (rl, o, st)
      | _ => after o (loopDrive kids elems' rl st)
      end
  end.

(** Modelled from the spec: [ctx.rloop(path, node, tpl, w)] resolves the
    source expression to the elements to enumerate and runs a fresh loop
    object over them. *)
Definition rloopWith (kids : list Renderer) (path : bytes) (node : Node)
    : State -> option (bytes * State) :=
  fun '(w, ctx) =>
    let '(elems, ctx) := rangeElems path ctx in
    '(_, o, st) ← loopDrive kids elems (NewRangeLoop node) (w, ctx);
    Some (o, st).

(** The test of [ctx.Err] that follows a loop call. *)
Definition afterLoop (r : option (bytes * State)) : Res :=
  '(o, st) ← r;
  match Err st.2 with
  | Some e => Some (Some e, o, st)
  | None => Some (None, o, st)
  end.

(** [func (t *Tpl) renderNode(w io.Writer, node Node, ctx *Ctx) error];
    [kids] are the recursive calls on the children of [node]. *)
Fixpoint renderNode (node : Node) : Renderer :=
  let kids := map renderNode (child node) in
  fun st =>
    match typ node with
    | TypeRaw => write (raw (prn node)) st
    | TypeTpl => renderTpl node st
    | TypeCtx => renderCtx node st
    | TypeCond => renderCond node kids st
    | TypeCondTrue | TypeCondFalse | TypeCase | TypeDefault =>
        renderSeq kids st
    | TypeLoopCount => afterLoop (cloop node kids st)
    | TypeLoopRange =>
        afterLoop (rloopWith kids (loopSrc (loop node)) node st)
    | TypeBreak => Some (Some ErrBreakLoop, [], st)
    | TypeContinue => Some (Some ErrContLoop, [], st)
    | TypeSwitch => renderSwitch node (zip (child node) kids) st
    | TypeExit => Some (Some ErrInterrupt, [], st)
    | _ => Some (Some ErrUnknownCtl, [], st)
    end.

(** [RangeLoop.Iterate] and [ctx.rloop] on the loop object itself. *)
Definition Iterate (rl : RangeLoop)
    : State -> option (LoopCtl * RangeLoop * bytes * State) :=
  IterateWith (map renderNode (child (rl_node rl))) rl.

Definition rloop (path : bytes) (node : Node)
    : State -> option (bytes * State) :=
  rloopWith (map renderNode (child node)) path node.

(** The loop of [RenderTo] over [tpl.tree.nodes]. *)
Fixpoint renderTop (ns : list Node) : Renderer :=
  fun st =>
    match ns with
    | [] => Some (None, [], st)
    | node :: ns' =>
        '(e, o, st) ← renderNode node st;
        match e with
        | Some e =>
            if bool_decide (e = ErrInterrupt) then Some (None, o, st)
            else Some (Some e, o, st)
        | None => after o (renderTop ns' st)
        end
    end.

(** [func RenderTo(w io.Writer, id string, ctx *Ctx) (err error)] over
    the registry [tplRegistry]. *)
Definition RenderTo (tplRegistry : gmap string Tree) (id : string)
    : Renderer :=
  fun st =>
    match tplRegistry !! id with
    | None => Some (Some ErrTplNotFound, [], st)
    | Some tpl => renderTop (nodes tpl) st
    end.
End Renderer.

(** [func Render(id string, ctx *Ctx) ([]byte, error)]: the sink is a
    fresh [bytes.Buffer], and what is returned are its bytes. *)
Definition Render {H : @Host Buffer} (tplRegistry : gmap string Tree)
    (id : string) (ctx : Ctx) : option (bytes * option error) :=
  '(e, _, st) ← @RenderTo Buffer H tplRegistry id (([] : bytes), ctx);
  Some (st.1, e).

(** [func RegisterTpl(id string, tree *Tree)] on the registry
    [tplRegistry]. *)
Definition RegisterTpl (id_ : string) (tree : Tree)
    (tplRegistry : gmap string Tree) : gmap string Tree :=
  <[id_ := tree]> tplRegistry.

(** What a pass of [Iterate] leaves, the loop node apart: the signal,
    the counter, the bytes written and the context. *)
Definition passOf `{Writer}
    (r : option (LoopCtl * RangeLoop * bytes * State))
    : option (LoopCtl * Z * bytes * State) :=
  '(ctl, rl, o, st) ← r; Some (ctl, rl_cntr rl, o, st).

(** ** Built-in modifiers *)

(** The conversions [ConvInt], [ConvUint], [ConvFloat], [ConvBytes],
    [ConvStr] and [ConvBool] are not among the sources: each either reads
    the value at its type or reports that it cannot; [isZeroF] is the
    test [f == 0] on a float. *)
Section Mods.
Variable Float : Type.
Variable ConvInt ConvUint : iface -> option Z.
Variable ConvFloat : iface -> option Float.
Variable isZeroF : Float -> bool.
Variable ConvBytes ConvStr : iface -> option bytes.
Variable ConvBool : iface -> option bool.

(** The six tests of [modDefault], in their order. *)
Definition isDefaultable (val : iface) : bool :=
  if (match ConvInt val with Some i => (i =? 0) | None => false end) then true
  else if (match ConvUint val with Some u => (u =? 0) | None => false end)
  then true
  else if (match ConvFloat val with Some f => isZeroF f | None => false end)
  then true
  else if (match ConvBytes val with Some b => (len b =? 0) | None => false end)
  then true
  else if (match ConvStr val with Some s => (len s =? 0) | None => false end)
  then true
  else match ConvBool val with Some b => negb b | None => false end.

(** [func modDefault(_ *Ctx, buf *interface{}, val interface{},
    args []interface{}) (err error)] *)
Definition modDefault : ModFn :=
  fun ctx val args =>
    match args with
    | [] => (Some ErrModNoArgs, ctx)
    | a0 :: _ =>
        if isDefaultable val then (None, setBuf a0 ctx) else (None, ctx)
    end.

(** [func modIfThen] *)
Definition modIfThen : ModFn :=
  fun ctx val args =>
    match args with
    | [] => (Some ErrModNoArgs, ctx)
    | a0 :: _ =>
        match ConvBool val with
        | Some true => (None, setBuf a0 ctx)
        | _ => (None, ctx)
        end
    end.

(** [func modIfThenElse] *)
Definition modIfThenElse : ModFn :=
  fun ctx val args =>
    match args with
    | a0 :: a1 :: _ =>
        match ConvBool val with
        | Some true => (None, setBuf a0 ctx)
        | Some false => (None, setBuf a1 ctx)
        | None => (None, ctx)
        end
    | _ => (Some ErrModPoorArgs, ctx)
    end.
End Mods.

(** ** Regular expressions *)

(** The parser classifies control regions with Go's [regexp] package.  The
    patterns it compiles use literals, classes, [.], [^], concatenation,
    alternation, greedy repetition and groups; the match the package
    reports is the one a backtracking search finds first (leftmost, the
    earlier alternative and the longer repetition preferred).  Every
    repeated sub-pattern of the parser consumes at least one byte per
    round, and every literal in them is ASCII, so that matching byte by
    byte and matching rune by rune agree. *)
Inductive regex :=
| REmpty
| RByte (c : byte)
| RSet (neg : bool) (ranges : list (byte * byte))
| RAny
| RBol
| RCat (r1 r2 : regex)
| RAlt (r1 r2 : regex)
| RStar (r : regex)
| RGroup (i : nat) (r : regex).

(** The submatches: entry [i] is group [i], [None] a group that did not
    take part in the match (a nil slice). *)
Definition Caps := list (option bytes).

Definition setCap (i : nat) (b : bytes) (caps : Caps) : Caps :=
  <[i := Some b]> caps.

(** [m[i]] of a [FindSubmatch] result. *)
Definition sub (m : Caps) (i : nat) : bytes :=
  match m !! i with
  | Some (Some b) => b
  | _ => []
  end.

Definition inRanges (b : byte) (ranges : list (byte * byte)) : bool :=
  existsb (fun '(lo, hi) =>
             (Byte.to_N lo <=? Byte.to_N b)%N && (Byte.to_N b <=? Byte.to_N hi)%N)
          ranges.

(** [rmatch r pos s caps k]: match [r] at offset [pos] of the text, where
    [s] is what is left of it, then go on with [k]; the first success of
    the search is the result. *)
Fixpoint rmatch (r : regex) (pos : nat) (s : bytes) (caps : Caps)
    (k : nat -> bytes -> Caps -> option (nat * Caps)) {struct r}
    : option (nat * Caps) :=
  match r with
  | REmpty => k pos s caps
  | RByte c =>
      match s with
      | b :: s' => if Byte.eqb b c then k (S pos) s' caps else None
      | [] => None
      end
  | RSet neg ranges =>
      match s with
      | b :: s' =>
          if xorb neg (inRanges b ranges) then k (S pos) s' caps else None
      | [] => None
      end
  | RAny =>
      match s with
      | b :: s' => if Byte.eqb b x0a then None else k (S pos) s' caps
      | [] => None
      end
  | RBol => if (pos =? 0)%nat then k pos s caps else None
  | RCat r1 r2 =>
      rmatch r1 pos s caps (fun pos' s' caps' => rmatch r2 pos' s' caps' k)
  | RAlt r1 r2 =>
      match rmatch r1 pos s caps k with
      | Some m => Some m
      | None => rmatch r2 pos s caps k
      end
  | RStar r1 =>
      (fix star (n : nat) (pos : nat) (s : bytes) (caps : Caps)
         : option (nat * Caps) :=
         match n with
         | O => k pos s caps
         | S n' =>
             match rmatch r1 pos s caps
                     (fun pos' s' caps' =>
                        if (pos <? pos')%nat then star n' pos' s' caps'
                        else None) with
             | Some m => Some m
             | None => k pos s caps
             end
         end) (length s) pos s caps
  | RGroup i r1 =>
      rmatch r1 pos s caps
        (fun pos' s' caps' => k pos' s' (setCap i (take (pos' - pos) s) caps'))
  end.

(** The unanchored search from offset [pos] on: the leftmost match, as
    its start, its end and its submatches ([m[0]] is the whole match). *)
Fixpoint rsearch (r : regex) (groups : nat) (pos : nat) (s : bytes)
    : option (nat * nat * Caps) :=
  match rmatch r pos s (replicate (S groups) None)
          (fun pos' _ caps => Some (pos', setCap 0 (take (pos' - pos) s) caps))
  with
  | Some (e, caps) => Some (pos, e, caps)
  | None =>
      match s with
      | [] => None
      | _ :: s' => rsearch r groups (S pos) s'
      end
  end.

(** A compiled pattern with the number of its groups. *)
Record Regexp := mkRegexp { re : regex; groups : nat }.

(** [re.Match(b)] and [re.FindSubmatch(b)] *)
Definition Match (r : Regexp) (b : bytes) : bool :=
  match rsearch (re r) (groups r) 0 b with
  | Some _ => true
  | None => false
  end.

Definition FindSubmatch (r : Regexp) (b : bytes) : option Caps :=
  match rsearch (re r) (groups r) 0 b with
  | Some (_, _, m) => Some m
  | None => None
  end.

(** [re.ReplaceAll(src, empty)]: the successive leftmost matches are cut
    out.  The two patterns it is used with match no empty string. *)
Fixpoint cutAll (fuel : nat) (r : Regexp) (pos : nat) (s : bytes) : bytes :=
  match fuel with
  | O => s
  | S fuel' =>
      match rsearch (re r) (groups r) pos s with
      | Some (b, e, _) =>
          take (b - pos) s ++ cutAll fuel' r e (drop (e - pos) s)
      | None => s
      end
  end.

Definition ReplaceAllEmpty (r : Regexp) (src : bytes) : bytes :=
  cutAll (S (length src)) r 0 src.

(** Pattern syntax. *)
Definition lit (s : string) : regex :=
  foldr (fun c r => RCat (RByte c) r) REmpty (list_byte_of_string s).
Definition cat (rs : list regex) : regex := foldr RCat REmpty rs.
Fixpoint alt (rs : list regex) : regex :=
  match rs with
  | [] => RSet false []
  | [r] => r
  | r :: rs' => RAlt r (alt rs')
  end.
Definition plus (r : regex) : regex := RCat r (RStar r).
Definition single (s : string) : list (byte * byte) :=
  map (fun c => (c, c)) (list_byte_of_string s).
Definition oneOf (s : string) : regex := RSet false (single s).
Definition noneOf (s : string) : regex := RSet true (single s).

(** The classes [\s], [\w] and [\d]. *)
Definition space_ranges : list (byte * byte) :=
  [(x09, x0a); (x0c, x0d); (x20, x20)].
Definition word_ranges : list (byte * byte) :=
  [("0", "9"); ("A", "Z"); ("a", "z"); ("_", "_")]%byte.
Definition digit_ranges : list (byte * byte) := [("0", "9")]%byte.
Definition cSpace : regex := RSet false space_ranges.
Definition cWord : regex := RSet false word_ranges.
Definition cDigit : regex := RSet false digit_ranges.
Definition any : regex := RStar RAny.

(** ** The parser ([init.go]) *)

(** *** Byte helpers *)

Definition memb (c : byte) (set : bytes) : bool :=
  existsb (Byte.eqb c) set.

(** [bytealg.Trim(p, cut)]: the leading and the trailing bytes of [p] that
    occur in [cut] are dropped. *)
Fixpoint TrimLeft (p cut : bytes) : bytes :=
  match p with
  | c :: p' => if memb c cut then TrimLeft p' cut else p
  | [] => []
  end.

Definition TrimRight (p cut : bytes) : bytes :=
  rev (TrimLeft (rev p) cut).

Definition Trim (p cut : bytes) : bytes :=
  TrimRight (TrimLeft p cut) cut.

Fixpoint hasPrefix (s pre : bytes) : bool :=
  match pre, s with
  | [], _ => true
  | c :: pre', d :: s' => Byte.eqb c d && hasPrefix s' pre'
  | _ :: _, [] => false
  end.

(** [bytes.Index(s, sep)] *)
Fixpoint Index (s sep : bytes) : Z :=
  if hasPrefix s sep then 0
  else
    match s with
    | [] => -1
    | _ :: s' =>
        let i := Index s' sep in
        if i <? 0 then -1 else i + 1
    end.

(** [bytealg.IndexAt(p, sep, at)]: [bytes.Index] that does not consider
    the occurrences of [sep] in [p[:at]]. *)
Definition IndexAt (p sep : bytes) (at_ : Z) : Z :=
  if (at_ <? 0) || (len p <? at_) then -1
  else
    let i := Index (drop (Z.to_nat at_) p) sep in
    if i <? 0 then -1 else i + at_.

(** [bytes.Contains(b, sub)] for a one-byte [sub]. *)
Definition Contains (b : bytes) (c : byte) : bool := memb c b.

(** [bytes.Split(s, sep)] for a separator of one byte, which [vline] and
    [comma] are. *)
Fixpoint splitByte (s : bytes) (sep : byte) (cur : bytes) : list bytes :=
  match s with
  | [] => [cur]
  | c :: s' =>
      if Byte.eqb c sep then cur :: splitByte s' sep []
      else splitByte s' sep (cur ++ [c])
  end.

Definition Split (s : bytes) (sep : byte) : list bytes := splitByte s sep [].

(** [p.tpl[o:e]] and [p.tpl[o:]] on [int] offsets. *)
Definition sliceZ (b : bytes) (o e : Z) : bytes :=
  take (Z.to_nat (e - o)) (drop (Z.to_nat o) b).
Definition fromZ (b : bytes) (o : Z) : bytes := drop (Z.to_nat o) b.

Definition isDigit (c : byte) : bool := inRanges c digit_ranges.

Definition digitVal (c : byte) : Z :=
  Z.of_N (Byte.to_N c) - Z.of_N (Byte.to_N "0"%byte).

(** [strconv.Atoi] on the captures the parser hands it, which are runs of
    decimal digits: the value, or an error when it does not fit an [int]. *)
Definition Atoi (b : bytes) : Z + error :=
  if forallb isDigit b && (0 <? len b) then
    let v := fold_left (fun acc c => acc * 10 + digitVal c) b 0 in
    if v <? 2 ^ 63 then inl v
    else inr (ErrExternal "strconv.Atoi: value out of range")
  else inr (ErrExternal "strconv.Atoi: invalid syntax").

(** *** Constants and patterns *)

Definition targetCond : Z := 0.
Definition targetLoop : Z := 1.
Definition targetSwitch : Z := 2.

Definition space : bytes := B " ".
Definition comma : byte := ","%byte.
Definition uscore : bytes := B "_".
Definition vline : byte := "|"%byte.
Definition quotes : bytes := [x22; x27; x60].
Definition noFmt : bytes := [x20; x09; x0a].
Definition ctlExit : bytes := B "exit".
Definition ctlOpen : bytes := B "{%".
Definition ctlClose : bytes := B "%}".
Definition ctlTrim : bytes := B "{}% ".
Definition ctlTrimAll : bytes := B "{}%= ".
Definition ctxStatic : bytes := B "static".
Definition condElse : bytes := B "else".
Definition condEnd : bytes := B "endif".
Definition loopEnd : bytes := B "endfor".
Definition loopBrk : bytes := B "break".
Definition loopCnt_ : bytes := B "continue".
Definition swDefault : bytes := B "default".
Definition swEnd : bytes := B "endswitch".

Definition outmJ : bytes := B "j".
Definition idJ : bytes := B "jsonEscape".
Definition outmQ : bytes := B "q".
Definition idQ : bytes := B "jsonQuote".
Definition outmH : bytes := B "h".
Definition idH : bytes := B "htmlEscape".
Definition outmU : bytes := B "u".
Definition idU : bytes := B "urlEncode".
Definition outmf : byte := "f"%byte.
Definition idf : bytes := B "floorPrec".
Definition outmF : byte := "F"%byte.
Definition idF : bytes := B "ceilPrec".

Definition opEq : bytes := B "==".
Definition opNq : bytes := B "!=".
Definition opGt : bytes := B ">".
Definition opGtq : bytes := B ">=".
Definition opLt : bytes := B "<".
Definition opLtq : bytes := B "<=".
Definition opInc : bytes := B "++".
Definition opDec : bytes := B "--".

Definition outMode : regex :=
  RGroup 1 (RAlt (RStar (oneOf "jhqu"))
                 (cat [oneOf "fF"; RStar (RByte "."); RStar cDigit])).
Definition kwPrefix : regex := RAlt (lit "prefix") (lit "pfx").
Definition kwSuffix : regex := RAlt (lit "suffix") (lit "sfx").
Definition kwCounter : regex := RAlt (lit "counter") (lit "cntr").
Definition kwSep : regex := RAlt (lit "separator") (lit "sep").

Definition reCutComments : Regexp :=
  mkRegexp (cat [RStar (RByte x09); lit "{#"; RStar (noneOf "#"); lit "#}";
                 RStar (RByte x0a)]) 0.
Definition reCutFmt : Regexp :=
  mkRegexp (cat [plus (RByte x0a); RStar (RByte x09); RStar cSpace]) 0.

Definition reTplPS : Regexp :=
  mkRegexp (cat [RBol; outMode; lit "="; RStar cSpace; RGroup 2 any;
                 lit " "; kwPrefix; lit " "; RGroup 3 any;
                 lit " "; kwSuffix; lit " "; RGroup 4 any]) 4.
Definition reTplP : Regexp :=
  mkRegexp (cat [RBol; outMode; lit "="; RStar cSpace; RGroup 2 any;
                 lit " "; kwPrefix; lit " "; RGroup 3 any]) 3.
Definition reTplS : Regexp :=
  mkRegexp (cat [RBol; outMode; lit "="; RStar cSpace; RGroup 2 any;
                 lit " "; kwSuffix; lit " "; RGroup 3 any]) 3.
Definition reTpl : Regexp :=
  mkRegexp (cat [RBol; outMode; lit "= "; RGroup 2 any]) 2.
Definition reModPfxF : Regexp :=
  mkRegexp (cat [RGroup 1 (plus (oneOf "fF")); RStar (RByte ".");
                 RGroup 2 (RStar cDigit)]) 2.
Definition reMod : Regexp :=
  mkRegexp (cat [RGroup 1 (plus (noneOf "(")); RStar (RByte "(");
                 RGroup 2 (RStar (noneOf ")")); RStar (RByte ")")]) 2.

Definition reCtx : Regexp :=
  mkRegexp (cat [RAlt (lit "context") (lit "ctx"); lit " ";
                 RGroup 1 (plus cWord); RStar cSpace; lit "="; RStar cSpace;
                 RGroup 2 (plus (RSet false (word_ranges ++ single ".")));
                 RStar cSpace; RStar (oneOf "as"); RStar cSpace;
                 RGroup 3 (RStar cWord)]) 3.

Definition reCntr : Regexp :=
  mkRegexp (cat [kwCounter; lit " "; RGroup 1 (plus cWord)]) 1.
Definition reCntrInit : Regexp :=
  mkRegexp (cat [kwCounter; lit " "; RGroup 1 (plus cWord); RStar cSpace;
                 lit "="; RStar cSpace; RGroup 2 (plus cDigit)]) 2.
Definition reCntrOp0 : Regexp :=
  mkRegexp (cat [kwCounter; lit " "; RGroup 1 (plus cWord);
                 RGroup 2 (RAlt (lit "++") (lit "--"))]) 2.
Definition reCntrOp1 : Regexp :=
  mkRegexp (cat [kwCounter; lit " "; RGroup 1 (plus cWord);
                 RGroup 2 (RAlt (cat [lit "+"; plus cDigit])
                                (cat [lit "-"; plus cDigit]))]) 2.

Definition reCond : Regexp := mkRegexp (cat [lit "if "; any]) 0.
Definition reCondExpr : Regexp :=
  mkRegexp (cat [lit "if "; RGroup 1 any;
                 RGroup 2 (alt [lit "=="; lit "!="; lit ">="; lit "<=";
                                lit ">"; lit "<"]);
                 RGroup 3 any]) 3.
Definition reCondHelper : Regexp :=
  mkRegexp (cat [lit "if "; RGroup 1 (plus (noneOf "("));
                 RStar (RByte "("); RGroup 2 (RStar (noneOf ")"));
                 lit ")"]) 2.
Definition reCondComplex : Regexp :=
  mkRegexp (alt [cat [lit "if "; any; lit "&&"]; lit "||"; lit "(";
                 cat [lit ")"; any]]) 0.

Definition reLoop : Regexp := mkRegexp (cat [lit "for "; any]) 0.
Definition reLoopRange : Regexp :=
  mkRegexp (cat [lit "for "; RGroup 1 (plus (noneOf ":")); RStar cSpace;
                 RStar (RByte ":"); lit "="; RStar cSpace; lit "range";
                 RStar cSpace; RGroup 2 (RStar (RSet true space_ranges));
                 RStar cSpace; RStar kwSep; RStar cSpace; RGroup 3 any]) 3.
Definition reLoopCount : Regexp :=
  mkRegexp (cat [lit "for "; RGroup 1 (RStar cWord); RStar cSpace;
                 RStar (RByte ":"); lit "="; RStar cSpace;
                 RGroup 2 (plus cWord); RStar cSpace; lit ";"; RStar cSpace;
                 plus cWord; RStar cSpace;
                 plus (RGroup 3 (alt [lit "<"; lit "<="; lit ">"; lit ">=";
                                      lit "!="]));
                 RStar cSpace; RGroup 4 (plus (noneOf ";")); RStar cSpace;
                 lit ";"; RStar cSpace; RStar cWord;
                 plus (RGroup 5 (RAlt (lit "--") (lit "++")));
                 RStar cSpace; RStar kwSep; RStar cSpace; RGroup 6 any]) 6.

Definition reSwitch : Regexp :=
  mkRegexp (cat [RBol; lit "switch"; RStar cSpace; RGroup 1 any]) 1.
Definition reSwitchCase : Regexp :=
  mkRegexp (cat [lit "case "; RGroup 1 (plus (noneOf "<=>!"));
                 RStar (RGroup 2 (RCat (oneOf "<=>!") (oneOf "<=>!")));
                 RGroup 3 any]) 3.

(** *** Parser state *)

(** [type Parser struct]: the option, the template body and the depth
    counters of conditions, loops and switches.  No integer of the parser
    can leave the range of [int]: each is bounded by the length of the
    template. *)
Record Parser := mkParser {
  keepFmt : bool;
  tpl : bytes;
  cc : Z;
  cl : Z;
  cs : Z
}.

Definition set_tpl (t : bytes) (p : Parser) : Parser :=
  mkParser (keepFmt p) t (cc p) (cl p) (cs p).
Definition set_cc (z : Z) (p : Parser) : Parser :=
  mkParser (keepFmt p) (tpl p) z (cl p) (cs p).
Definition set_cl (z : Z) (p : Parser) : Parser :=
  mkParser (keepFmt p) (tpl p) (cc p) z (cs p).
Definition set_cs (z : Z) (p : Parser) : Parser :=
  mkParser (keepFmt p) (tpl p) (cc p) (cl p) z.

(** [type target map[int]int]; a missing key reads as 0. *)
Abbreviation target := (gmap Z Z).

Definition tget (t : target) (k : Z) : Z := default 0 (t !! k).

Definition newTarget (p : Parser) : target :=
  <[targetSwitch := cs p]> (<[targetLoop := cl p]> (<[targetCond := cc p]> ∅)).

Definition reached (t : target) (p : Parser) : bool :=
  (tget t targetCond =? cc p) && (tget t targetLoop =? cl p)
  && (tget t targetSwitch =? cs p).

Definition eqZero (t : target) : bool :=
  (tget t targetCond =? 0) && (tget t targetLoop =? 0)
  && (tget t targetSwitch =? 0).

Definition cutComments (p : Parser) : Parser :=
  set_tpl (ReplaceAllEmpty reCutComments (tpl p)) p.

Definition cutFmt (p : Parser) : Parser :=
  if keepFmt p then p
  else
    let p := set_tpl (ReplaceAllEmpty reCutFmt (tpl p)) p in
    set_tpl (Trim (tpl p) noFmt) p.

(** [func (p *Parser) parseOp(src []byte) Op] *)
Definition parseOp (src : bytes) : Op :=
  if bytes_eqb src opEq then OpEq
  else if bytes_eqb src opNq then OpNq
  else if bytes_eqb src opGt then OpGt
  else if bytes_eqb src opGtq then OpGtq
  else if bytes_eqb src opLt then OpLt
  else if bytes_eqb src opLtq then OpLtq
  else if bytes_eqb src opInc then OpInc
  else if bytes_eqb src opDec then OpDec
  else OpUnk.

(** What a call of [processCtl] returns, with the parser it leaves:
    [(nodes, offset, up, err, p)]; and of [parseTpl]:
    [(nodes, offset, err, p)].  [None] is a model that ran out of fuel. *)
Abbreviation CtlRes :=
  (option (list Node * Z * bool * option error * Parser)).
Abbreviation TplRes := (option (list Node * Z * option error * Parser)).

(** The two branch nodes a condition gets from its split body. *)
Definition condBranches (split : list (list Node)) (root : Node) : Node :=
  let root :=
    if 0 <? len split
    then set_child (child root
                      ++ [set_child (nth 0 split []) (set_typ TypeCondTrue Node0)])
                   root
    else root in
  if 1 <? len split
  then set_child (child root
                    ++ [set_child (nth 1 split []) (set_typ TypeCondFalse Node0)])
                 root
  else root.

Section Parser.
(** [isStatic] is not among the sources, and the registry of modifiers
    is the process-wide [modRegistry]. *)
Variable isStatic : bytes -> bool.
Variable modRegistry : gmap string ModFn.

(** [func (p *Parser) parseCondExpr(expr []byte)] *)
Definition parseCondExpr (expr : bytes) : bytes * bytes * bool * bool * Op :=
  match FindSubmatch reCondExpr expr with
  | Some m =>
      let l := Trim (sub m 1) space in
      let r := Trim (sub m 3) space in
      (l, r, isStatic l, isStatic r, parseOp (sub m 2))
  | None => ([], [], false, false, OpUnk)
  end.

(** [func (p *Parser) parseCaseExpr(expr []byte)] *)
Definition parseCaseExpr (expr : bytes) : bytes * bytes * bool * bool * Op :=
  match FindSubmatch reSwitchCase expr with
  | Some m =>
      let l := Trim (sub m 1) space in
      let sl := isStatic l in
      if 1 <? len m then
        let r := Trim (sub m 3) space in
        (l, r, sl, isStatic r, parseOp (sub m 2))
      else (l, [], sl, false, OpUnk)
  | None => ([], [], false, false, OpUnk)
  end.

(** [func (p *Parser) extractArgs(l []byte) []*arg] *)
Definition extractArgs (l : bytes) : list modArg :=
  if len l =? 0 then []
  else
    map (fun a =>
           let a := Trim a space in
           mkArg (Trim a quotes) (isStatic a) [])
        (Split l comma).

(** The first loop of [extractMods], over [chunks[1:]]. *)
Fixpoint suffixMods (chunks : list bytes) (ms : list Mod) : list Mod :=
  match chunks with
  | [] => ms
  | chunk :: chunks' =>
      match FindSubmatch reMod chunk with
      | Some m =>
          match GetModFn modRegistry (B2S (sub m 1)) with
          | None => suffixMods chunks' ms
          | Some f =>
              suffixMods chunks'
                (ms ++ [mkMod (sub m 1) (Some f) (extractArgs (sub m 2))])
          end
      | None => suffixMods chunks' ms
      end
  end.

(** The mod a print prefix stands for, with the function the registry
    has under [name], nil when it has none. *)
Definition prefixMod (name : string) (id_ : bytes) (args : list modArg)
    (ms : list Mod) : list Mod :=
  ms ++ [mkMod id_ (GetModFn modRegistry name) args].

(** [func (p *Parser) extractMods(t, outm []byte) ([]byte, []mod)] *)
Definition extractMods (t outm : bytes) : bytes * list Mod :=
  if Contains t vline || (0 <? len outm) then
    let chunks := Split t vline in
    let ms := suffixMods (drop 1 chunks) [] in
    let ms := if bytes_eqb outm outmJ
              then prefixMod "jsonEscape" idJ [] ms else ms in
    let ms := if bytes_eqb outm outmQ
              then prefixMod "jsonQuote" idQ [] ms else ms in
    let ms := if bytes_eqb outm outmH
              then prefixMod "htmlEscape" idH [] ms else ms in
    let ms := if bytes_eqb outm outmU
              then prefixMod "urlEncode" idU [] ms else ms in
    let ms :=
      match FindSubmatch reModPfxF outm with
      | Some m =>
          match sub m 1 with
          | c :: _ =>
              if Byte.eqb c outmf
              then prefixMod "floorPrec" idf [mkArg (sub m 2) true []] ms
              else if Byte.eqb c outmF
              then prefixMod "ceilPrec" idF [mkArg (sub m 2) true []] ms
              else ms
          | [] => ms
          end
      | None => ms
      end in
    (nth 0 chunks [], ms)
  else (t, []).

(** The print node of [processCtl], from the most complex pattern to the
    simplest. *)
Definition printNode (t : bytes) (root : Node) : Node :=
  let root := set_typ TypeTpl root in
  let put (rm : bytes * list Mod) (pre suf : bytes) :=
    set_mods (snd rm)
      (set_prn (mkPrint (fst rm) (rawStatic (prn root)) (rawSsc (prn root))
                        pre suf) root) in
  match FindSubmatch reTplPS t with
  | Some m => put (extractMods (sub m 2) (sub m 1)) (sub m 3) (sub m 4)
  | None =>
  match FindSubmatch reTplP t with
  | Some m => put (extractMods (sub m 2) (sub m 1)) (sub m 3) []
  | None =>
  match FindSubmatch reTplS t with
  | Some m => put (extractMods (sub m 2) (sub m 1)) [] (sub m 3)
  | None =>
  match FindSubmatch reTpl t with
  | Some m => put (extractMods (Trim (sub m 2) ctlTrimAll) (sub m 1)) [] []
  | None => put (extractMods (Trim t ctlTrimAll) []) [] []
  end end end end.

(** The context node. *)
Definition ctxNode (t : bytes) (root : Node) : Node :=
  let root := set_typ TypeCtx root in
  match FindSubmatch reCtx t with
  | Some m =>
      set_ctxf
        (mkCtxF (sub m 1) (sub m 2) (isStatic (sub m 2))
                (ctxSrcSsc (ctxf root))
                (if (3 <? len m) && (0 <? len (sub m 3)) then sub m 3
                 else ctxStatic))
        root
  | None => root
  end.

(** The counter node, or the error of [strconv.Atoi]. *)
Definition cntrNode (t : bytes) (root : Node) : Node + error :=
  let root := set_typ TypeCounter root in
  let root := set_cntr (mkCntr (cntrVar (cntr root)) false
                               (cntrInit (cntr root)) (cntrOp (cntr root))
                               (cntrOpArg (cntr root))) root in
  match FindSubmatch reCntrInit t with
  | Some m =>
      match Atoi (sub m 2) with
      | inr e => inr e
      | inl i =>
          inl (set_cntr (mkCntr (sub m 1) true i (cntrOp (cntr root))
                                (cntrOpArg (cntr root))) root)
      end
  | None =>
  match FindSubmatch reCntrOp0 t with
  | Some m =>
      inl (set_cntr (mkCntr (sub m 1) (cntrInitF (cntr root))
                            (cntrInit (cntr root))
                            (if bytes_eqb (sub m 2) opDec then OpDec
                             else OpInc)
                            1) root)
  | None =>
  match FindSubmatch reCntrOp1 t with
  | Some m =>
      match Atoi (drop 1 (sub m 2)) with
      | inr e => inr e
      | inl a =>
          inl (set_cntr (mkCntr (sub m 1) (cntrInitF (cntr root))
                                (cntrInit (cntr root))
                                (match sub m 2 with
                                 | c :: _ => if Byte.eqb c "-" then OpDec
                                             else OpInc
                                 | [] => OpInc
                                 end)
                                a) root)
      end
  | None => inl root
  end end end.

(** The fields of a condition node but its children. *)
Definition condNode (t hlp : bytes) (hlpArg : list modArg) (root : Node)
    : Node :=
  let root := set_typ TypeCond root in
  let '(l, r, sl, sr, op) := parseCondExpr t in
  set_cond (mkCond l r sl sr (condRSsc (cond root)) op hlp hlpArg) root.

(** The fields of a loop node but its children; [None] when neither loop
    pattern matches. *)
Definition loopNode (t : bytes) (root : Node) : option Node :=
  let l := loop root in
  match FindSubmatch reLoopRange t with
  | Some m =>
      let root := set_typ TypeLoopRange root in
      let '(key, val) :=
        if Contains (sub m 1) comma then
          let kv := Split (sub m 1) comma in
          let key := Trim (nth 0 kv []) space in
          let key := if bytes_eqb key uscore then [] else key in
          (key, Trim (nth 1 kv []) space)
        else (Trim (sub m 1) space, loopVal l) in
      Some (set_loop
              (mkLoop key val (sub m 2) (loopCnt l) (loopCntInit l)
                      (loopCntStatic l) (loopCntOp l) (loopCondOp l)
                      (loopLim l) (loopLimStatic l)
                      (if 2 <? len m then sub m 3 else loopSep l))
              root)
  | None =>
  match FindSubmatch reLoopCount t with
  | Some m =>
      let root := set_typ TypeLoopCount root in
      Some (set_loop
              (mkLoop (loopKey l) (loopVal l) (loopSrc l) (sub m 1)
                      (sub m 2) (isStatic (sub m 2)) (parseOp (sub m 5))
                      (parseOp (sub m 3)) (sub m 4) (isStatic (sub m 4))
                      (if 5 <? len m then sub m 6 else loopSep l))
              root)
  | None => None
  end end.

(** [func (p *Parser) processCtl(nodes []Node, root *Node, ctl []byte,
    pos int) ([]Node, int, bool, error)]; [parseTpl] is the method it
    dives into for a nested body. *)
Definition processCtl
    (parseTpl : Parser -> list Node -> Z -> target -> TplRes)
    (p : Parser) (nodes : list Node) (root : Node) (ctl : bytes) (pos : Z)
    : CtlRes :=
  let t := Trim ctl ctlTrim in
  if Match reTplPS t || Match reTplP t || Match reTplS t || Match reTpl t
  then Some (addNode nodes (printNode t root), pos + len ctl, false, None, p)
  else if Match reCtx t
  then Some (addNode nodes (ctxNode t root), pos + len ctl, false, None, p)
  else if Match reCntr t
  then
    match cntrNode t root with
    | inr e => Some (nodes, 0, false, Some e, p)
    | inl root => Some (addNode nodes root, pos + len ctl, false, None, p)
    end
  else if Match reCond t
  then
    if Match reCondComplex t
    then
      match FindSubmatch reCondHelper t with
      | Some m =>
          let target := newTarget p in
          let p := set_cc (cc p + 1) p in
          '(subNodes, offset, err, p) ← parseTpl p [] (pos + len ctl) target;
          let split := splitNodes subNodes in
          let root := condNode t (sub m 1) (extractArgs (sub m 2)) root in
          let root := condBranches split root in
          Some (addNode nodes root, offset, false, err, p)
      | None => Some (nodes, pos, false, Some (ErrCondComplex t pos), p)
      end
    else
      let target := newTarget p in
      let p := set_cc (cc p + 1) p in
      '(subNodes, offset, err, p) ← parseTpl p [] (pos + len ctl) target;
      let split := splitNodes subNodes in
      let root := condNode t (condHlp (cond root)) (condHlpArg (cond root))
                    root in
      let root := condBranches split root in
      Some (addNode nodes root, offset, false, err, p)
  else if bytes_eqb t condElse
  then Some (addNode nodes (set_typ TypeDiv root), pos + len ctl, false,
             None, p)
  else if bytes_eqb t condEnd
  then Some (nodes, pos + len ctl, true, None, set_cc (cc p - 1) p)
  else if Match reLoop t
  then
    match loopNode t root with
    | None => Some (nodes, 0, false, Some (ErrLoopParse t pos), p)
    | Some root =>
        let target := newTarget p in
        let p := set_cl (cl p + 1) p in
        '(ch, offset, err, p) ← parseTpl p [] (pos + len ctl) target;
        Some (addNode nodes (set_child ch root), offset, false, err, p)
    end
  else if bytes_eqb t loopEnd
  then Some (nodes, pos + len ctl, true, None, set_cl (cl p - 1) p)
  else if bytes_eqb t loopBrk
  then Some (addNode nodes (set_typ TypeBreak root), pos + len ctl, false,
             None, p)
  else if bytes_eqb t loopCnt_
  then Some (addNode nodes (set_typ TypeContinue root), pos + len ctl,
             false, None, p)
  else
  match FindSubmatch reSwitch t with
  | Some m =>
      let target := newTarget p in
      let p := set_cs (cs p + 1) p in
      let root := set_typ TypeSwitch root in
      let root := if 0 <? len m then set_switchArg (sub m 1) root
                  else root in
      '(ch, offset, err, p) ← parseTpl p [] (pos + len ctl) target;
      let root := set_child (rollupSwitchNodes ch) root in
      Some (addNode nodes root, offset, false, err, p)
  | None =>
  if Match reSwitchCase t
  then
    let '(l, r, sl, sr, op) := parseCaseExpr t in
    let root := set_typ TypeCase root in
    let root := set_case (mkCase l r sl sr (caseLSsc (case_ root))
                                 (caseRSsc (case_ root)) op) root in
    Some (addNode nodes root, pos + len ctl, false, None, p)
  else if bytes_eqb t swDefault
  then Some (addNode nodes (set_typ TypeDefault root), pos + len ctl, false,
             None, p)
  else if bytes_eqb t swEnd
  then Some (nodes, pos + len ctl, true, None, set_cs (cs p - 1) p)
  else if bytes_eqb t ctlExit
  then Some (addNode nodes (set_typ TypeExit root), pos + len ctl, false,
             None, p)
  else Some (nodes, 0, false, Some (ErrUnknownCtlAt t pos), p)
  end.

(** The loop of [parseTpl] on its variables [nodes], [o], [i] and
    [inCtl]; each pass and each nested call takes one unit of fuel. *)
Fixpoint parseLoop (fuel : nat) (p : Parser) (nodes : list Node) (o i : Z)
    (inCtl : bool) (tg : target) : TplRes :=
  match fuel with
  | O => None
  | S fuel' =>
      if negb (reached tg p) || eqZero tg then
        let i := IndexAt (tpl p) ctlOpen i in
        if i <? 0 then
          if inCtl then Some (nodes, o, Some ErrUnexpectedEOF, p)
          else Some (addRaw nodes (fromZ (tpl p) o), len (tpl p), None, p)
        else if inCtl then
          let e := IndexAt (tpl p) ctlClose i in
          if e <? 0 then Some (nodes, o, Some ErrUnexpectedEOF, p)
          else
            let e := e + 2 in
            '(nodes', e, goUp, err, p) ←
              processCtl
                (fun p ns off tg => parseLoop fuel' p ns off off false tg)
                p nodes Node0 (sliceZ (tpl p) o e) o;
            match err with
            | Some er => Some (nodes', o, Some er, p)
            | None =>
                if (goUp : bool) then Some (nodes', e, None, p)
                else parseLoop fuel' p nodes' e e false tg
            end
        else parseLoop fuel' p (addRaw nodes (sliceZ (tpl p) o i)) i i true tg
      else Some (nodes, o, None, p)
  end.

(** [func (p *Parser) parseTpl(nodes []Node, offset int, target *target)
    ([]Node, int, error)] *)
Definition parseTpl (fuel : nat) (p : Parser) (nodes : list Node)
    (offset : Z) (tg : target) : TplRes :=
  parseLoop fuel p nodes offset offset false tg.

(** The passes and nested calls a template of [n] bytes can take. *)
Definition parseFuel (n : nat) : nat := S (S n).

(** [func Parse(tpl []byte, keepFmt bool) (tree *Tree, err error)] *)
Definition Parse (tpl_ : bytes) (keepFmt_ : bool)
    : option (Tree * option error) :=
  let p := mkParser keepFmt_ tpl_ 0 0 0 in
  let p := cutComments p in
  let p := cutFmt p in
  let tg := newTarget p in
  '(ns, _, err, _) ← parseTpl (parseFuel (length (tpl p))) p [] 0 tg;
  Some (mkTree ns, err).
End Parser.

(** ** A small host, to run the engine on examples *)

(** A context whose variables hold byte strings, numbers and sequences,
    compared as text for [==] and [!=] and as decimal numbers for the
    order operators, a conversion to bytes that overwrites its buffer,
    and an [isStatic] that takes a quoted or numeric operand for a
    literal; it serves any sink. *)
Module Demo.
Definition lookupVar (path : bytes) (ctx : Ctx) : iface :=
  default INil (vars ctx !! B2S path).

Definition valBytes (v : iface) : option bytes :=
  match v with
  | IString b | IBytes b | IPtrBytes b => Some b
  | IBool true => Some (B "true")
  | IBool false => Some (B "false")
  | _ => None
  end.

Definition cmpBytes (b : bytes) (op : Op) (right : bytes) : bool :=
  match op with
  | OpEq => bytes_eqb b right
  | OpNq => negb (bytes_eqb b right)
  | _ =>
      match Atoi b, Atoi right with
      | inl x, inl y =>
          match op with
          | OpGt => y <? x
          | OpGtq => y <=? x
          | OpLt => x <? y
          | OpLtq => x <=? y
          | _ => false
          end
      | _, _ => false
      end
  end.

Definition setVars (vs : gmap string iface) (c : Ctx) : Ctx :=
  mkCtx vs (Err c) (buf c) (bbuf c) (modA c).

Definition elemsOf (v : iface) : list (iface * iface * unit) :=
  match v with
  | ISlice l => imap (fun i x => (IInt (Z.of_nat i), x, tt)) l
  | _ => []
  end.

#[export] Instance host `{Writer} : Host := {|
  Inspector := unit;
  getSsc path _ ctx := (lookupVar path ctx, setBuf (lookupVar path ctx) ctx);
  cmp path op right ctx :=
    (match valBytes (lookupVar path ctx) with
     | Some b => cmpBytes b op right
     | None => false
     end, ctx);
  AnyToBytes _ v :=
    match valBytes v with
    | Some b => (b, None)
    | None => ([], Some (ErrExternal "unsupported value"))
    end;
  GetInspector _ := inl tt;
  SetBytes name b ctx := setVars (<[name := IBytes b]> (vars ctx)) ctx;
  SetVar name v _ ctx := setVars (<[name := v]> (vars ctx)) ctx;
  rangeElems path ctx := (elemsOf (lookupVar path ctx), ctx);
  cloop _ _ st := Some ([], st)
|}.

Definition isStatic (b : bytes) : bool :=
  match b with
  | c :: _ => isDigit c || memb c quotes
  | [] => false
  end.

(** A fresh context over the bindings [vs]. *)
Definition ctxOf (vs : list (string * iface)) : Ctx :=
  mkCtx (list_to_map vs) None INil [] [].

(** Parse [src] with no modifier registered, register the tree as
    [id_], and render it. *)
Definition parse (src : string) : option (Tree * option error) :=
  Parse isStatic ∅ (B src) false.

Definition run (src : string) (vs : list (string * iface))
    : option (string * option error) :=
  '(tree, _) ← parse src;
  '(o, e) ← Render (H := @host Buffer) (<["t" := tree]> ∅) "t" (ctxOf vs);
  Some (B2S o, e).

(** A sink with room for a number of bytes: a write that fits is taken,
    a write that does not is refused and leaves the room as it is. *)
Definition limited : Writer :=
  {| Sink := Z;
     Write room p :=
       if len p <=? room then (room - len p, None)
       else (room, Some (ErrExternal "no room")) |}.
End Demo.

(** ** Definitions for the statements *)

(** A run of registrations, oldest first, and the keys one of them
    writes. *)
Definition registerAll {F} (rs : list (string * string * F))
    (reg : gmap string F) : gmap string F :=
  foldl (fun r '(n, a, f) => RegisterModFn n a f r) reg rs.

Definition registers {F} (k : string) (r : string * string * F) : Prop :=
  k = r.1.1 \/ (r.1.2 <> EmptyString /\ k = r.1.2).

(** The Cond node with the operands exchanged and the operator swapped,
    and the one with the operands exchanged only. *)
Definition mirrorCond (node : Node) : Node :=
  let c := cond node in
  set_cond (mkCond (condR c) (condL c) (condStaticR c) (condStaticL c)
                   (condRSsc c) (Swap (condOp c)) (condHlp c) (condHlpArg c))
           node.

Definition swapOperands (node : Node) : Node :=
  let c := cond node in
  set_cond (mkCond (condR c) (condL c) (condStaticR c) (condStaticL c)
                   (condRSsc c) (condOp c) (condHlp c) (condHlpArg c))
           node.




Section SwitchSpec.
Context `{Host}.




End SwitchSpec.

(** The chunks [os] with [sep] between each two of them. *)
Fixpoint joinSep (sep : bytes) (os : list bytes) : bytes :=
  match os with
  | [] => []
  | [o] => o
  | o :: os' => o ++ sep ++ joinSep sep os'
  end.

(** How a pass over the body of a loop ends. *)
Inductive PassEnd := PassDone | PassSkipped | PassBroken.

Section LoopSpec.
Context `{Host}.

(** One pass over the body of a loop in the words of the specification:
    the body nodes are rendered in order; a continue signal skips the
    nodes that remain, a break signal does so too and ends the loop.
    Any other error of a body node is not looked at. *)
Fixpoint bodyPass (kids : list Renderer) (st : State)
    : option (PassEnd * bytes * State) :=
  match kids with
  | [] => Some (PassDone, [], st)
  | k :: kids' =>
      '(e, o, st) ← k st;
      match e with
      | Some ErrBreakLoop => Some (PassBroken, o, st)
      | Some ErrContLoop => Some (PassSkipped, o, st)
      | _ => after o (bodyPass kids' st)
      end
  end.

(** What the body of a range loop writes, pass by pass: one chunk for
    each element the enumeration reaches, whether the pass ran to its
    end or was cut short; before every pass but the first the separator,
    if one is declared, goes to the sink.  The flag tells that a break
    signal ended the enumeration. *)
Fixpoint bodyTrace (node : Node) (kids : list Renderer)
    (elems : list (iface * iface * Inspector)) (first : bool)
    (st : State) : option (list bytes * bool * State) :=
  match elems with
  | [] => Some ([], false, st)
  | el :: elems' =>
      let sep := loopSep (loop node) in
      let ctx := bindElem (NewRangeLoop node) el st.2 in
      let w := if first then st.1
               else if 0 <? len sep then writeQuiet sep st.1 else st.1 in
      '(how, o, st) ← bodyPass kids (w, ctx);
      match how with
      | PassBroken => Some ([o], true, st)
      | _ =>
          '(os, broke, st) ← bodyTrace node kids elems' false st;
          Some (o :: os, broke, st)
      end
  end.
End LoopSpec.

(** The chunks with [sep] before each but, when [first], the first. *)
Fixpoint joinFrom (first : bool) (sep : bytes) (os : list bytes) : bytes :=
  match os with
  | [] => []
  | o :: os' => (if first then [] else sep) ++ o ++ joinFrom false sep os'
  end.

(** The shape of the conditions of a tree: a Cond node has no child, or a
    true branch, or a true branch and a false branch, and so for the
    nodes below it. *)
Fixpoint condOK (n : Node) : bool :=
  (if bool_decide (typ n = TypeCond) then
     match child n with
     | [] => true
     | [t] => bool_decide (typ t = TypeCondTrue)
     | [t; f] =>
         bool_decide (typ t = TypeCondTrue)
         && bool_decide (typ f = TypeCondFalse)
     | _ => false
     end
   else true)
  && forallb condOK (child n).

Definition branchTrue (body : list Node) : Node :=
  set_child body (set_typ TypeCondTrue Node0).
Definition branchFalse (body : list Node) : Node :=
  set_child body (set_typ TypeCondFalse Node0).

(** A nested parse that keeps the shape. *)
Definition keepsOK
    (rec : Parser -> list Node -> Z -> target -> TplRes) : Prop :=
  forall p ns off tg ns' o' e p',
    forallb condOK ns = true -> rec p ns off tg = Some (ns', o', e, p') -> forallb condOK ns' = true.


Module DemoNodes.
(** The first node of a parsed template. *)
Definition firstNode (src : string) : Node :=
  match Demo.parse src with
  | Some (mkTree (n :: _), _) => n
  | _ => Node0
  end.

Definition loopSkip2 : Node :=
  firstNode "{% for _, v := range l sep , %}<{% if v == 2 %}{% continue %}{% endif %}{%= v %}>{% endfor %}".

Definition three : Ctx :=
  Demo.ctxOf [("l", ISlice [IBytes (B "1"); IBytes (B "2"); IBytes (B "3")])].
End DemoNodes.

(** ** Definitions for the further properties *)

(** The template as the parser scans it, after both preprocessing
    passes. *)
Definition preprocessed (src : bytes) (keep : bool) : bytes :=
  tpl (cutFmt (cutComments (mkParser keep src 0 0 0))).

(** What a terminating parse step promises: a result, the same template,
    and on success an offset between [lo] and the end of the template. *)
Definition lands (T : bytes) (lo : Z) (r : TplRes) : Prop :=
  exists ns o e p,
    r = Some (ns, o, e, p) /\ tpl p = T /\ (e = None -> lo <= o <= len T).

Definition isDiv (n : Node) : bool := bool_decide (typ n = TypeDiv).

(** The parts of a body between its dividers, read off the list itself:
    [cur] is the part being collected. *)
Fixpoint parts (l cur : list Node) : list (list Node) :=
  match l with
  | [] => match cur with [] => [] | _ => [cur] end
  | n :: l' => if isDiv n then cur :: parts l' [] else parts l' (cur ++ [n])
  end.

(** A group laid flat again: its head without children, then the nodes
    it absorbed. *)
Definition headOf (g : Node) : Node := set_child [] g.
Definition flatten (g : Node) : list Node := headOf g :: child g.

(** A Case or Default that has no children yet, as the parser emits it. *)
Definition bareHead (n : Node) : bool :=
  if isCaseOrDefault n then bool_decide (child n = []) else true.

(** The shape of a node the parser builds, and of the nodes below it: a
    Raw node holds text and is a leaf; print, context, counter, divider,
    break, continue and exit nodes are leaves; the children of a Switch
    are Case and Default nodes; the body of a condition branch holds no
    divider; no node has the type the switch roll-up starts from. *)
Fixpoint shapeOK (n : Node) : bool :=
  match typ n with
  | TypeRaw =>
      (0 <? len (raw (prn n))) && bool_decide (child n = [])
  | TypeTpl | TypeCtx | TypeCounter | TypeDiv | TypeBreak | TypeContinue
  | TypeExit => bool_decide (child n = [])
  | TypeSwitch => forallb isCaseOrDefault (child n)
  | TypeCondTrue | TypeCondFalse =>
      forallb (fun c => negb (isDiv c)) (child n)
  | TypeNone => false
  | _ => true
  end
  && forallb shapeOK (child n).

(** A nested parse that keeps the shape. *)
Definition keepsShape
    (nested : Parser -> list Node -> Z -> target -> TplRes) : Prop :=
  forall p ns off tg ns' o' e p',
    forallb shapeOK ns = true ->
    nested p ns off tg = Some (ns', o', e, p') ->
    forallb shapeOK ns' = true.

(** A modifier whose function is the one the registry holds under the
    modifier's own name. *)
Definition registeredMod (modRegistry : gmap string ModFn) (m : Mod)
    : Prop :=
  exists f, mod_fn m = Some f /\ modRegistry !! B2S (mod_id m) = Some f.

(** The closing tags of conditions, loops and switches. *)
Definition isCloser (t : bytes) : bool :=
  bytes_eqb t condEnd || bytes_eqb t loopEnd || bytes_eqb t swEnd.

(** The bytes of [l] that are equal to [c], counted. *)
Definition countByte (c : byte) (l : bytes) : nat :=
  length (List.filter (fun d => Byte.eqb d c) l).

(** Neither end of [b] is a byte of [cut]. *)
Definition endsClear (b cut : bytes) : Prop :=
  (forall c, head b = Some c -> memb c cut = false)
  /\ (forall c, last b = Some c -> memb c cut = false).

(** The conversion to bool of the small host. *)
Definition demoConvBool (v : iface) : option bool :=
  match v with IBool b => Some b | _ => None end.

(** ** Further definitions for the statements *)

(** The print node of the examples: the variable [v] between [<] and
    [>]. *)
Definition demoPrint : Node :=
  set_prn (mkPrint (B "v") false [] (B "<") (B ">")) (set_typ TypeTpl Node0).



(** The loop control a pass hands back for the way it ended. *)
Definition ctlOf (how : PassEnd) : LoopCtl :=
  match how with
  | PassDone => LoopCtlNone
  | PassSkipped => LoopCtlCnt
  | PassBroken => LoopCtlBrk
  end.

(** The loop of the examples whose body breaks on the element [2]. *)
Definition demoLoopBreak : string :=
  "{% for _, v := range l sep , %}{% if v == 2 %}{% break %}{% endif %}{%= v %}{% endfor %}".

(** The errors a complete tag raises on its own account: a condition
    too complex to parse, a loop that matches no loop pattern, a tag
    that matches nothing, a number that [strconv.Atoi] refuses. *)
Definition tagError (e : error) : Prop :=
  match e with
  | ErrCondComplex _ _ | ErrLoopParse _ _ | ErrUnknownCtlAt _ _
  | ErrExternal _ => True
  | _ => False
  end.

(** A region opener at the offset [j] of [body] that has no closer at or
    after it. *)
Definition unclosedAt (body : bytes) (j : Z) : Prop :=
  0 <= j
  /\ hasPrefix (drop (Z.to_nat j) body) ctlOpen = true
  /\ IndexAt body ctlClose j < 0.

(** What a parse from the offset [lo] may end in when [j] is such an
    opener: the end-of-file error, the error of a tag before [j], or a
    stop before [j]. *)
Definition stopsAt (j : Z) (e : option error) (o : Z) : Prop :=
  match e with
  | None => o <= j
  | Some er => er = ErrUnexpectedEOF \/ tagError er
  end.

(** The call of [parseTpl] that [Parse] makes. *)
Definition parseRoot (isStatic : bytes -> bool)
    (modRegistry : gmap string ModFn) (src : bytes) (keep : bool)
    : TplRes :=
  let p := cutFmt (cutComments (mkParser keep src 0 0 0)) in
  parseTpl isStatic modRegistry (parseFuel (length (tpl p))) p [] 0
           (newTarget p).

(** The children a condition is given for the parts of its body: a true
    branch for the first part, a false branch for the second, nothing
    for the parts after it. *)
Definition condChildren (split : list (list Node)) : list Node :=
  match split with
  | [] => []
  | [s0] => [branchTrue s0]
  | s0 :: s1 :: _ => [branchTrue s0; branchFalse s1]
  end.

(** Every Cond node, at any depth, has the children of some body cut at
    its dividers. *)
Fixpoint condTied (n : Node) : Prop :=
  (typ n = TypeCond -> exists body, child n = condChildren (parts body []))
  /\ fold_right (fun c acc => condTied c /\ acc) True (child n).

(** * Properties *)

(** ** Auxiliary facts *)

Lemma len_nil {A} : len (@nil A) = 0.
Proof. reflexivity. Qed.

Lemma len_pos {A} (l : list A) : (0 <? len l) = true <-> l <> [].
Proof.
  unfold len. destruct l as [|x l]; simpl.
  - split; [discriminate | congruence].
  - split; [discriminate | intros _; apply Z.ltb_lt; lia].
Qed.

Lemma list_byte_of_string_nil (s : string) :
  list_byte_of_string s = [] <-> s = EmptyString.
Proof.
  destruct s as [|a s]; simpl; split; try reflexivity; discriminate.
Qed.

(** ** The modifier registry *)

Section RegistryFacts.
Context {F : Type}.
Implicit Types (reg : gmap string F) (fn : F).

Lemma GetModFn_lookup reg k : GetModFn reg k = reg !! k.
Proof. unfold GetModFn. by destruct (reg !! k). Qed.

Lemma RegisterModFn_alias reg name alias fn :
  alias <> EmptyString ->
  RegisterModFn name alias fn reg = <[alias := fn]> (<[name := fn]> reg).
Proof.
  intros Ha. unfold RegisterModFn.
  destruct (0 <? len (list_byte_of_string alias)) eqn:E; [done|].
  exfalso. apply Ha, list_byte_of_string_nil.
  destruct (list_byte_of_string alias); [done|].
  unfold len in E. simpl in E. apply Z.ltb_ge in E. lia.
Qed.

Lemma RegisterModFn_no_alias reg name fn :
  RegisterModFn name EmptyString fn reg = <[name := fn]> reg.
Proof. reflexivity. Qed.

Lemma RegisterModFn_other reg name alias fn k :
  ~ registers k (name, alias, fn) ->
  RegisterModFn name alias fn reg !! k = reg !! k.
Proof.
  unfold registers; simpl. intros Hk.
  destruct (decide (alias = EmptyString)) as [->|Ha].
  - rewrite RegisterModFn_no_alias, lookup_insert_ne; [done|].
    intros ->. tauto.
  - rewrite RegisterModFn_alias by done.
    rewrite !lookup_insert_ne; [done| |]; intros ->; tauto.
Qed.

Lemma registerAll_other rs reg k :
  Forall (fun r => ~ registers k r) rs ->
  registerAll rs reg !! k = reg !! k.
Proof.
  revert reg. induction rs as [|[[n a] f] rs IH]; intros reg Hall; [done|].
  inversion Hall as [|? ? Hr Hrs]; subst.
  change (registerAll rs (RegisterModFn n a f reg) !! k = reg !! k).
  rewrite IH by done. by apply RegisterModFn_other.
Qed.
End RegistryFacts.

(** C10: a registration makes the function retrievable under the name
    and, when the alias is not empty, under the alias too; with an empty
    alias only the name is written; a name that no registration wrote
    reads as nil. *)
Theorem register_then_get {F : Type} (reg : gmap string F)
    (name alias : string) (fn : F) :
  GetModFn (RegisterModFn name alias fn reg) name = Some fn
  /\ (alias <> EmptyString ->
      GetModFn (RegisterModFn name alias fn reg) alias = Some fn)
  /\ (alias = EmptyString ->
      forall k, k <> name ->
                GetModFn (RegisterModFn name alias fn reg) k = GetModFn reg k)
  /\ (forall k, k <> name -> k <> alias ->
                GetModFn (RegisterModFn name alias fn reg) k = GetModFn reg k)
  /\ (forall rs k, Forall (fun r => ~ registers k r) rs ->
                   GetModFn (registerAll rs (∅ : gmap string F)) k = None).
Proof.
  rewrite !GetModFn_lookup. repeat split.
  - destruct (decide (alias = EmptyString)) as [->|Ha].
    + rewrite RegisterModFn_no_alias. apply lookup_insert_eq.
    + rewrite RegisterModFn_alias by done.
      destruct (decide (alias = name)) as [->|Hne].
      * apply lookup_insert_eq.
      * rewrite lookup_insert_ne by done. apply lookup_insert_eq.
  - intros Ha. rewrite RegisterModFn_alias by done. apply lookup_insert_eq.
  - intros -> k Hk. rewrite !GetModFn_lookup, RegisterModFn_no_alias.
    by rewrite lookup_insert_ne.
  - intros k Hn Ha. rewrite !GetModFn_lookup.
    apply RegisterModFn_other. unfold registers; simpl. tauto.
  - intros rs k Hall. rewrite GetModFn_lookup, registerAll_other by done.
    apply lookup_empty.
Qed.

Lemma register_then_get_witness :
  GetModFn (RegisterModFn "default" "def" 7%nat ∅) "def" = Some 7%nat
  /\ GetModFn (RegisterModFn "round" "" 3%nat ∅) "default" = None.
Proof.
  split.
  - destruct (register_then_get ∅ "default" "def" 7%nat) as (_ & Ha & _).
    apply Ha. discriminate.
  - destruct (register_then_get ∅ "round" "" 3%nat) as (_ & _ & Hn & _ & He).
    rewrite Hn; [|reflexivity|discriminate].
    apply (He [] "default"). constructor.
Defined.

(** ** The renderer *)

Section RendererFacts.
Context `{Host}.

Lemma renderNode_eq (node : Node) (st : State) :
  renderNode node st =
  let kids := map renderNode (child node) in
  match typ node with
  | TypeRaw => write (raw (prn node)) st
  | TypeTpl => renderTpl node st
  | TypeCtx => renderCtx node st
  | TypeCond => renderCond node kids st
  | TypeCondTrue | TypeCondFalse | TypeCase | TypeDefault =>
      renderSeq kids st
  | TypeLoopCount => afterLoop (cloop node kids st)
  | TypeLoopRange =>
      afterLoop (rloopWith kids (loopSrc (loop node)) node st)
  | TypeBreak => Some (Some ErrBreakLoop, [], st)
  | TypeContinue => Some (Some ErrContLoop, [], st)
  | TypeSwitch => renderSwitch node (zip (child node) kids) st
  | TypeExit => Some (Some ErrInterrupt, [], st)
  | _ => Some (Some ErrUnknownCtl, [], st)
  end.
Proof. destruct node; reflexivity. Qed.

Lemma callAt_0 (k : Renderer) (kids : list Renderer) (st : State) :
  callAt (k :: kids) 0 st = k st.
Proof. reflexivity. Qed.

Lemma len_cons_pos {A} (x : A) (l : list A) : (0 <? len (x :: l)) = true.
Proof. apply Z.ltb_lt. unfold len. simpl. lia. Qed.

Lemma len_cons2_pos {A} (x y : A) (l : list A) :
  (1 <? len (x :: y :: l)) = true.
Proof. apply Z.ltb_lt. unfold len. simpl. lia. Qed.

(** On a false comparison a Cond node with two children renders the
    first of them. *)
Lemma renderCond_false (node : Node) (k0 k1 : Renderer)
    (kids : list Renderer) (w : Sink) (ctx ctx' : Ctx) :
  condEval node ctx = (inr false, ctx') ->
  renderCond node (k0 :: k1 :: kids) (w, ctx) = k0 (w, ctx').
Proof.
  intros E. unfold renderCond. rewrite E. by rewrite len_cons2_pos.
Qed.

Lemma renderCond_true (node : Node) (k0 : Renderer)
    (kids : list Renderer) (w : Sink) (ctx ctx' : Ctx) :
  condEval node ctx = (inr true, ctx') ->
  renderCond node (k0 :: kids) (w, ctx) = k0 (w, ctx').
Proof.
  intros E. unfold renderCond. rewrite E. by rewrite len_cons_pos.
Qed.

Lemma condEval_static_left (node : Node) (ctx : Ctx) :
  condStaticL (cond node) = true ->
  condStaticR (cond node) = false ->
  condEval node ctx =
  let c := cond node in
  let '(r, ctx') := cmp (condR c) (Swap (condOp c)) (condL c) ctx in
  match Err ctx' with
  | Some e => (inl e, ctx')
  | None => (inr r, ctx')
  end.
Proof.
  intros Hl Hr. unfold condEval. rewrite Hl, Hr. simpl.
  destruct (cmp _ _ _ ctx) as [r ctx']. reflexivity.
Qed.

Lemma condEval_static_right (node : Node) (ctx : Ctx) :
  condStaticL (cond node) = false ->
  condStaticR (cond node) = true ->
  condEval node ctx =
  let c := cond node in
  let '(r, ctx') := cmp (condL c) (condOp c) (condR c) ctx in
  match Err ctx' with
  | Some e => (inl e, ctx')
  | None => (inr r, ctx')
  end.
Proof.
  intros Hl Hr. unfold condEval. rewrite Hl, Hr. simpl.
  destruct (cmp _ _ _ ctx) as [r ctx']. reflexivity.
Qed.

(** What a Cond node renders once its comparison is known. *)
Lemma renderCond_children (node : Node) (w : Sink) (ctx : Ctx) :
  typ node = TypeCond ->
  renderNode node (w, ctx) =
  match condEval node ctx with
  | (inl e, ctx') => Some (Some e, [], (w, ctx'))
  | (inr r, ctx') =>
      match child node with
      | [] => Some (None, [], (w, ctx'))
      | [t] => if r then renderNode t (w, ctx')
               else Some (None, [], (w, ctx'))
      | t :: _ => renderNode t (w, ctx')
      end
  end.
Proof.
  intros Ht. rewrite renderNode_eq, Ht. cbv beta iota zeta.
  unfold renderCond.
  destruct (condEval node ctx) as [[e|r] ctx']; [reflexivity|].
  destruct (child node) as [|t [|f rest]]; cbn [map].
  - by destruct r.
  - by destruct r.
  - rewrite len_cons_pos, len_cons2_pos. by destruct r.
Qed.
End RendererFacts.

(** C8: when the left operand is the only static one, the renderer
    issues the comparison with the operands exchanged and the operator
    swapped and goes on with its result, which is the call the same
    condition written the other way round issues; the two nodes render
    alike. *)
Theorem cond_static_left_swap `{Host} (node : Node) (w : Sink) (ctx : Ctx) :
  typ node = TypeCond ->
  condStaticL (cond node) = true ->
  condStaticR (cond node) = false ->
  (Swap OpGt = OpLt /\ Swap OpGtq = OpLtq /\ Swap OpLt = OpGt
   /\ Swap OpLtq = OpGtq /\ Swap OpEq = OpEq /\ Swap OpNq = OpNq
   /\ Swap OpUnk = OpUnk /\ Swap OpInc = OpInc /\ Swap OpDec = OpDec)
  /\ condEval node ctx =
     (let c := cond node in
      let '(r, ctx') := cmp (condR c) (Swap (condOp c)) (condL c) ctx in
      match Err ctx' with
      | Some e => (inl e, ctx')
      | None => (inr r, ctx')
      end)
  /\ renderNode node (w, ctx) =
     (let c := cond node in
      let '(r, ctx') := cmp (condR c) (Swap (condOp c)) (condL c) ctx in
      match Err ctx' with
      | Some e => Some (Some e, [], (w, ctx'))
      | None =>
          match child node with
          | [] => Some (None, [], (w, ctx'))
          | [t] => if r then renderNode t (w, ctx')
                   else Some (None, [], (w, ctx'))
          | t :: _ => renderNode t (w, ctx')
          end
      end)
  /\ condEval (mirrorCond node) ctx = condEval node ctx
  /\ renderNode (mirrorCond node) (w, ctx) = renderNode node (w, ctx)
  /\ (Swap (condOp (cond node)) = condOp (cond node) ->
      renderNode (swapOperands node) (w, ctx) = renderNode node (w, ctx)).
Proof.
  intros Ht Hl Hr.
  assert (Em : condEval (mirrorCond node) ctx = condEval node ctx).
  { rewrite (condEval_static_left node) by done.
    rewrite (condEval_static_right (mirrorCond node)) by (by destruct node).
    by destruct node. }
  split; [by repeat split|].
  split; [by apply condEval_static_left|].
  split.
  { rewrite renderCond_children by done.
    rewrite (condEval_static_left node) by done. cbv zeta.
    destruct (cmp _ _ _ ctx) as [r ctx']. by destruct (Err ctx'). }
  split; [done|].
  assert (Rm : renderNode (mirrorCond node) (w, ctx)
               = renderNode node (w, ctx)).
  { rewrite !renderCond_children by (by destruct node).
    rewrite Em.
    by replace (child (mirrorCond node)) with (child node)
      by (by destruct node). }
  split; [done|].
  intros Hs. rewrite <- Rm. f_equal.
  unfold swapOperands, mirrorCond. by rewrite Hs.
Qed.

(** The conditions [5 > a] and [a < 5] over [a = 3]. *)
Lemma cond_static_left_swap_witness :
  Demo.run "{% if 5 > a %}T{% endif %}" [("a", IBytes (B "3"))]
  = Demo.run "{% if a < 5 %}T{% endif %}" [("a", IBytes (B "3"))]
  /\ @renderNode Buffer Demo.host
       (mirrorCond (set_cond (mkCond (B "5") (B "a") true false [] OpGt [] [])
                             (set_typ TypeCond Node0)))
       ([], Demo.ctxOf [("a", IBytes (B "3"))])
     = @renderNode Buffer Demo.host
         (set_cond (mkCond (B "5") (B "a") true false [] OpGt [] [])
                   (set_typ TypeCond Node0))
         ([], Demo.ctxOf [("a", IBytes (B "3"))]).
Proof.
  split; [vm_compute; reflexivity|].
  destruct (@cond_static_left_swap Buffer Demo.host
              (set_cond (mkCond (B "5") (B "a") true false [] OpGt [] [])
                        (set_typ TypeCond Node0))
              ([] : bytes) (Demo.ctxOf [("a", IBytes (B "3"))])
              eq_refl eq_refl eq_refl) as (_ & _ & _ & _ & E & _).
  exact E.
Defined.

(** C1: the template [if a == 1] with both branches, rendered where the
    comparison is false, writes the true branch. *)
Theorem if_else_false_renders_true_branch :
  Demo.run "{% if a == 1 %}T{% else %}F{% endif %}" [("a", IBytes (B "2"))]
  = Some ("T"%string, None)
  /\ Demo.run "{% if a == 1 %}T{% else %}F{% endif %}" [("a", IBytes (B "1"))]
     = Some ("T"%string, None).
Proof. split; vm_compute; reflexivity. Qed.

Section PrintFacts.
Context `{Host}.

Lemma isNilOrEmptyString_iff (v : iface) :
  isNilOrEmptyString v = true <-> v = INil \/ v = IString [].
Proof.
  destruct v as [|[|c s]| | | | | |]; simpl; split; try tauto;
    try discriminate; intros [?|?]; discriminate.
Qed.

Lemma nonempty_or_nil (b : bytes) : (if 0 <? len b then b else []) = b.
Proof. by destruct b. Qed.

Lemma tplOutput_eq (node : Node) (bb : bytes) :
  tplOutput node bb = prefix (prn node) ++ bb ++ suffix (prn node).
Proof. unfold tplOutput. by rewrite !nonempty_or_nil. Qed.

(** The print node from the point where its final value is known. *)
Lemma renderTpl_final (node : Node) (w : Sink) (ctx ctx0 ctx1 : Ctx)
    (v0 v : iface) :
  typ node = TypeTpl ->
  tplOperand node ctx = (v0, ctx0) ->
  Err ctx0 = None ->
  runMods (mods node) v0 ctx0 = Some (v, ctx1) ->
  Err ctx1 = None ->
  renderNode node (w, ctx) =
  if isNilOrEmptyString v then Some (Some ErrEmptyArg, [], (w, ctx1))
  else
    let '(bb, e) := AnyToBytes (bbuf ctx1) v in
    match e with
    | Some e => Some (Some e, [], (w, setBbuf bb ctx1))
    | None =>
        let '(w', err) := tplWrites node bb w in
        Some (err, tplOutput node bb, (w', setBbuf bb ctx1))
    end.
Proof.
  intros Ht Hop He0 Hm He1.
  rewrite renderNode_eq, Ht. cbv beta iota zeta. unfold renderTpl.
  rewrite Hop, He0, Hm. cbn [mbind option_bind]. rewrite He1.
  destruct (isNilOrEmptyString v); [reflexivity|].
  destruct (AnyToBytes (bbuf ctx1) v) as [bb [e|]]; reflexivity.
Qed.
End PrintFacts.

(** C6, as the code has it: after a modifier chain that ran without
    error, a nil final value or an empty string makes the print node fail
    with the empty-argument error, nothing written; every other final
    value, an empty byte sequence too, is converted, and if the
    conversion fails its error is returned and nothing is written;
    otherwise the prefix, if it is not empty, the converted value, and
    the suffix, if it is not empty, are handed to the sink in this order,
    and the error returned is the one the write of the value gave, the
    errors of the two other writes being dropped. *)
Theorem print_final_value `{Host} (node : Node) (w : Sink)
    (ctx ctx0 ctx1 : Ctx) (v0 v : iface) :
  typ node = TypeTpl ->
  tplOperand node ctx = (v0, ctx0) ->
  Err ctx0 = None ->
  runMods (mods node) v0 ctx0 = Some (v, ctx1) ->
  Err ctx1 = None ->
  (isNilOrEmptyString v = true <-> v = INil \/ v = IString [])
  /\ (isNilOrEmptyString v = true ->
      renderNode node (w, ctx) = Some (Some ErrEmptyArg, [], (w, ctx1)))
  /\ (isNilOrEmptyString v = false ->
      renderNode node (w, ctx) =
      let '(bb, e) := AnyToBytes (bbuf ctx1) v in
      match e with
      | Some e => Some (Some e, [], (w, setBbuf bb ctx1))
      | None =>
          let pre := prefix (prn node) in
          let suf := suffix (prn node) in
          let w1 := if 0 <? len pre then (Write w pre).1 else w in
          let '(w2, err) := Write w1 bb in
          let w3 := if 0 <? len suf then (Write w2 suf).1 else w2 in
          Some (err, pre ++ bb ++ suf, (w3, setBbuf bb ctx1))
      end).
Proof.
  intros Ht Hop He0 Hm He1.
  split; [apply isNilOrEmptyString_iff|].
  rewrite (renderTpl_final node w ctx ctx0 ctx1 v0 v) by assumption.
  split; intros ->; [reflexivity|].
  destruct (AnyToBytes (bbuf ctx1) v) as [bb [e|]]; [reflexivity|].
  unfold tplWrites, writeQuiet. cbv zeta. rewrite tplOutput_eq.
  by destruct (Write _ bb).
Qed.

(** An empty string is refused; the value [x] goes out between its
    affixes, and to a sink without room the failure of its write is
    what the node returns. *)
Lemma print_final_value_witness :
  @renderNode Buffer Demo.host demoPrint
    ([], Demo.ctxOf [("v", IString [])])
  = Some (Some ErrEmptyArg, [],
          ([], setBuf (IString []) (Demo.ctxOf [("v", IString [])])))
  /\ @renderNode Demo.limited Demo.host demoPrint
       (0, Demo.ctxOf [("v", IBytes (B "x"))])
     = Some (Some (ErrExternal "no room"), B "<x>",
             (0, setBbuf (B "x")
                   (setBuf (IBytes (B "x"))
                      (Demo.ctxOf [("v", IBytes (B "x"))])))).
Proof.
  split.
  - apply (@print_final_value Buffer Demo.host demoPrint []
             (Demo.ctxOf [("v", IString [])])
             (setBuf (IString []) (Demo.ctxOf [("v", IString [])]))
             (setBuf (IString []) (Demo.ctxOf [("v", IString [])]))
             (IString []) (IString []));
      reflexivity.
  - destruct (@print_final_value Demo.limited Demo.host demoPrint 0
                (Demo.ctxOf [("v", IBytes (B "x"))])
                (setBuf (IBytes (B "x")) (Demo.ctxOf [("v", IBytes (B "x"))]))
                (setBuf (IBytes (B "x")) (Demo.ctxOf [("v", IBytes (B "x"))]))
                (IBytes (B "x")) (IBytes (B "x"))
                eq_refl eq_refl eq_refl eq_refl eq_refl) as (_ & _ & E).
    refine (eq_trans (E eq_refl) _). vm_compute. reflexivity.
Defined.

(** C6, as stated, fails on an empty byte sequence: the print node of
    [v] with a prefix and a suffix, where [v] is an empty byte slice,
    returns no error and writes the prefix and the suffix. *)
Lemma print_empty_bytes_not_rejected :
  @renderNode Buffer Demo.host demoPrint ([], Demo.ctxOf [("v", IBytes [])])
  = Some (None, B "<>",
          (B "<>", setBuf (IBytes []) (Demo.ctxOf [("v", IBytes [])]))).
Proof. vm_compute. reflexivity. Qed.

Section SwitchFacts.
Context `{Host}.

Lemma after_nil {A S} (r : option (A * bytes * S)) : after [] r = r.
Proof. destruct r as [[[a o] c]|]; reflexivity. Qed.









End SwitchFacts.



Section LoopFacts.
Context `{Host}.

Lemma after_after {A S} (a b : bytes) (r : option (A * bytes * S)) :
  after a (after b r) = after (a ++ b) r.
Proof. destruct r as [[[x o] c]|]; simpl; [|done]. by rewrite app_assoc. Qed.

Lemma renderTop_no_interrupt (ns : list Node) (st c : State)
    (e : option error) (o : bytes) :
  renderTop ns st = Some (e, o, c) -> e <> Some ErrInterrupt.
Proof.
  revert st o. induction ns as [|n ns IH]; intros st o; simpl.
  - intros [= <- <- <-]. discriminate.
  - destruct (renderNode n st) as [[[e1 o1] c1]|]; simpl; [|discriminate].
    destruct e1 as [e1|].
    + case_bool_decide; intros [= <- <- <-]; [discriminate|congruence].
    + destruct (renderTop ns c1) as [[[e2 o2] c2]|] eqn:E; simpl;
        [|discriminate].
      intros [= <- <- <-]. by eapply IH.
Qed.

(** The top-level loop past nodes that all returned nil. *)
Lemma renderTop_app (pre rest : list Node) (st st1 : State) (o1 : bytes) :
  renderSeq (map renderNode pre) st = Some (None, o1, st1) ->
  renderTop (pre ++ rest) st = after o1 (renderTop rest st1).
Proof.
  revert st o1. induction pre as [|n pre IH]; intros st o1.
  - cbn [map renderSeq app]. intros [= <- <-]. by rewrite after_nil.
  - cbn [map renderSeq app renderTop].
    destruct (renderNode n st) as [[[e o] c]|]; [|discriminate].
    cbn [mbind option_bind]. destruct e as [e|]; [discriminate|].
    destruct (renderSeq (map renderNode pre) c) as [[[e2 o2] c2]|] eqn:E;
      [|discriminate].
    cbn [after mbind option_bind]. intros [= -> <- <-].
    rewrite (IH _ _ E). apply after_after.
Qed.

Lemma renderSeq_app (k1 k2 : list Renderer) (st : State) :
  renderSeq (k1 ++ k2) st =
  match renderSeq k1 st with
  | Some (None, o, c) => after o (renderSeq k2 c)
  | r => r
  end.
Proof.
  revert st. induction k1 as [|k k1 IH]; intros st.
  - simpl. by rewrite after_nil.
  - cbn [app renderSeq]. destruct (k st) as [[[e o] c]|]; [|reflexivity].
    cbn [mbind option_bind]. destruct e as [e|]; [reflexivity|].
    rewrite IH. destruct (renderSeq k1 c) as [[[e1 o1] c1]|]; [|reflexivity].
    destruct e1 as [e1|]; [reflexivity|].
    cbn [after mbind option_bind]. apply after_after.
Qed.

Lemma iterChildren_break (k : Renderer) (kids : list Renderer)
    (st c : State) (o : bytes) :
  k st = Some (Some ErrBreakLoop, o, c) ->
  iterChildren (k :: kids) st = Some (LoopCtlBrk, o, c).
Proof. intros E. simpl. rewrite E. reflexivity. Qed.

Lemma iterChildren_continue (k : Renderer) (kids : list Renderer)
    (st c : State) (o : bytes) :
  k st = Some (Some ErrContLoop, o, c) ->
  iterChildren (k :: kids) st = Some (LoopCtlCnt, o, c).
Proof. intros E. simpl. rewrite E. reflexivity. Qed.

Lemma iterChildren_other (k : Renderer) (kids : list Renderer)
    (st c : State) (e : option error) (o : bytes) :
  k st = Some (e, o, c) ->
  e <> Some ErrBreakLoop -> e <> Some ErrContLoop ->
  iterChildren (k :: kids) st = after o (iterChildren kids c).
Proof.
  intros E Hb Hc. simpl. rewrite E. simpl.
  by rewrite !bool_decide_eq_false_2.
Qed.

(** A pass past body nodes none of which gave a loop signal. *)
Lemma iterChildren_app (pre post : list Renderer) (st st1 : State)
    (o1 : bytes) :
  iterChildren pre st = Some (LoopCtlNone, o1, st1) ->
  iterChildren (pre ++ post) st = after o1 (iterChildren post st1).
Proof.
  revert st o1. induction pre as [|k pre IH]; intros st o1.
  - cbn [iterChildren app]. intros [= <- <-]. by rewrite after_nil.
  - cbn [iterChildren app].
    destruct (k st) as [[[e o] c]|]; [|discriminate].
    cbn [mbind option_bind].
    case_bool_decide; [discriminate|]. case_bool_decide; [discriminate|].
    destruct (iterChildren pre c) as [[[ctl o2] c2]|] eqn:E; [|discriminate].
    cbn [after mbind option_bind]. intros [= -> <- <-].
    rewrite (IH _ _ E). apply after_after.
Qed.

Lemma afterLoop_err (r : option (bytes * State)) (e : option error)
    (o : bytes) (c : State) :
  afterLoop r = Some (e, o, c) -> e = Err c.2.
Proof.
  destruct r as [[o1 c1]|]; simpl; [|discriminate].
  destruct (Err c1.2) eqn:E; intros [= <- <- <-]; by rewrite E.
Qed.

Lemma loop_node_error (node : Node) (st c : State) (e : option error)
    (o : bytes) :
  typ node = TypeLoopRange \/ typ node = TypeLoopCount ->
  renderNode node st = Some (e, o, c) -> e = Err c.2.
Proof.
  rewrite renderNode_eq. intros [Ht|Ht]; rewrite Ht; simpl;
    apply afterLoop_err.
Qed.

Lemma typ_set_child (l : list Node) (n : Node) : typ (set_child l n) = typ n.
Proof. by destruct n. Qed.

Lemma child_set_child (l : list Node) (n : Node) : child (set_child l n) = l.
Proof. by destruct n. Qed.

(** A branch node renders as the sequence of its children. *)
Lemma renderNode_branch (node : Node) (l : list Node) (st : State) :
  typ node = TypeCondTrue \/ typ node = TypeCondFalse
  \/ typ node = TypeCase \/ typ node = TypeDefault ->
  renderNode (set_child l node) st = renderSeq (map renderNode l) st.
Proof.
  intros Ht. rewrite renderNode_eq, typ_set_child, child_set_child.
  destruct Ht as [-> | [-> | [-> | ->]]]; reflexivity.
Qed.
End LoopFacts.

(** C3, as the code has it.  The render entry never returns the exit
    signal: wherever the top-level loop meets it, from a node at any
    position and raised at any depth below that node, the render ends
    there with a nil error.  Any other error a top-level node returns,
    the break and continue signals among them, is returned to the
    caller: a Break or Continue node outside any loop is such a node,
    directly or through the branch nodes it sits in.  In a range loop
    the break and continue signals a body node returns, at any position
    of the body, end the pass of [Iterate] as the loop controls, which
    [Iterate] hands on as they are, and what a loop node returns is the
    error slot of the context, not a signal of its body. *)
Theorem signals_at_render_entry `{Host} (st : State) :
  (forall reg id_ e o c,
     RenderTo reg id_ st = Some (e, o, c) -> e <> Some ErrInterrupt)
  /\ (forall pre node ns o1 st1 o st2,
        renderSeq (map renderNode pre) st = Some (None, o1, st1) ->
        renderNode node st1 = Some (Some ErrInterrupt, o, st2) ->
        renderTop (pre ++ node :: ns) st = Some (None, o1 ++ o, st2))
  /\ (forall pre node ns e o1 st1 o st2,
        renderSeq (map renderNode pre) st = Some (None, o1, st1) ->
        renderNode node st1 = Some (Some e, o, st2) ->
        e <> ErrInterrupt ->
        renderTop (pre ++ node :: ns) st = Some (Some e, o1 ++ o, st2))
  /\ (forall node pre x post e o1 st1 o st2,
        typ node = TypeCondTrue \/ typ node = TypeCondFalse
        \/ typ node = TypeCase \/ typ node = TypeDefault ->
        renderSeq (map renderNode pre) st = Some (None, o1, st1) ->
        renderNode x st1 = Some (Some e, o, st2) ->
        renderNode (set_child (pre ++ x :: post) node) st
        = Some (Some e, o1 ++ o, st2))
  /\ (forall node,
        (typ node = TypeBreak ->
         renderNode node st = Some (Some ErrBreakLoop, [], st))
        /\ (typ node = TypeContinue ->
            renderNode node st = Some (Some ErrContLoop, [], st))
        /\ (typ node = TypeExit ->
            renderNode node st = Some (Some ErrInterrupt, [], st)))
  /\ (forall pre k post o1 st1 o st2,
        iterChildren pre st = Some (LoopCtlNone, o1, st1) ->
        k st1 = Some (Some ErrBreakLoop, o, st2) ->
        iterChildren (pre ++ k :: post) st = Some (LoopCtlBrk, o1 ++ o, st2))
  /\ (forall pre k post o1 st1 o st2,
        iterChildren pre st = Some (LoopCtlNone, o1, st1) ->
        k st1 = Some (Some ErrContLoop, o, st2) ->
        iterChildren (pre ++ k :: post) st = Some (LoopCtlCnt, o1 ++ o, st2))
  /\ (forall rl w c,
        Iterate rl (w, c) =
        let sep := loopSep (loop (rl_node rl)) in
        let wr := (0 <? rl_cntr rl) && (0 <? len sep) in
        '(ctl, o, st') ← iterChildren (map renderNode (child (rl_node rl)))
                           (if wr then (Write w sep).1 else w, c);
        Some (ctl, mkRangeLoop (wrap64 (rl_cntr rl + 1)) (rl_node rl),
              (if wr then sep else []) ++ o, st'))
  /\ (forall node e o c,
        typ node = TypeLoopRange \/ typ node = TypeLoopCount ->
        renderNode node st = Some (e, o, c) -> e = Err c.2).
Proof.
  split.
  { intros reg id_ e o c. unfold RenderTo.
    destruct (reg !! id_) as [t|].
    - apply renderTop_no_interrupt.
    - intros [= <- <- <-]. discriminate. }
  split.
  { intros pre node ns o1 st1 o st2 Hpre Hn.
    rewrite (renderTop_app _ _ _ _ _ Hpre). cbn [renderTop]. rewrite Hn.
    reflexivity. }
  split.
  { intros pre node ns e o1 st1 o st2 Hpre Hn He.
    rewrite (renderTop_app _ _ _ _ _ Hpre). cbn [renderTop]. rewrite Hn.
    cbn [mbind option_bind]. by rewrite bool_decide_eq_false_2. }
  split.
  { intros node pre x post e o1 st1 o st2 Ht Hpre Hx.
    rewrite renderNode_branch by done.
    rewrite map_app, renderSeq_app, Hpre. cbn [map renderSeq]. rewrite Hx.
    reflexivity. }
  split.
  { intros node. repeat split; intros Ht; rewrite renderNode_eq, Ht;
      reflexivity. }
  split.
  { intros pre k post o1 st1 o st2 Hpre Hk.
    rewrite (iterChildren_app _ _ _ _ _ Hpre).
    by rewrite (iterChildren_break _ _ _ _ _ Hk). }
  split.
  { intros pre k post o1 st1 o st2 Hpre Hk.
    rewrite (iterChildren_app _ _ _ _ _ Hpre).
    by rewrite (iterChildren_continue _ _ _ _ _ Hk). }
  split; [intros rl w c; reflexivity|].
  intros node e o c. apply loop_node_error.
Qed.

(** An Exit node after text at top level, and a Break node after text
    in a loop body. *)
Lemma signals_at_render_entry_witness :
  @renderTop Buffer Demo.host
    ([rawNode (B "a")] ++ set_typ TypeExit Node0 :: [rawNode (B "b")])
    ([], Demo.ctxOf [])
  = Some (None, B "a", (B "a", Demo.ctxOf []))
  /\ iterChildren
       ([@renderNode Buffer Demo.host (rawNode (B "a"))]
        ++ @renderNode Buffer Demo.host (set_typ TypeBreak Node0)
        :: [@renderNode Buffer Demo.host (rawNode (B "b"))])
       ([], Demo.ctxOf [])
     = Some (LoopCtlBrk, B "a", (B "a", Demo.ctxOf [])).
Proof.
  destruct (@signals_at_render_entry Buffer Demo.host ([], Demo.ctxOf []))
    as (_ & Hexit & _ & _ & _ & Hbrk & _ & _ & _).
  split.
  - apply (Hexit [rawNode (B "a")] (set_typ TypeExit Node0)
             [rawNode (B "b")] (B "a") (B "a", Demo.ctxOf []) []
             (B "a", Demo.ctxOf [])); reflexivity.
  - apply (Hbrk [@renderNode Buffer Demo.host (rawNode (B "a"))]
             (@renderNode Buffer Demo.host (set_typ TypeBreak Node0))
             [@renderNode Buffer Demo.host (rawNode (B "b"))]
             (B "a") (B "a", Demo.ctxOf []) [] (B "a", Demo.ctxOf []));
      reflexivity.
Defined.

(** C3, as stated, fails for a Break node outside any loop: the template
    [a{% break %}b] renders [a] and returns the break signal to the
    caller as an error. *)
Lemma break_outside_loop_reaches_caller :
  Demo.run "a{% break %}b" [] = Some ("a"%string, Some ErrBreakLoop).
Proof. vm_compute. reflexivity. Qed.

Section SeparatorFacts.
Context `{Host}.

Lemma joinFrom_true (sep : bytes) (os : list bytes) :
  joinFrom true sep os = joinSep sep os.
Proof.
  destruct os as [|o os]; [reflexivity|]. simpl.
  revert o. induction os as [|o' os IH]; intros o; simpl.
  - by rewrite app_nil_r.
  - f_equal. f_equal. apply IH.
Qed.

Lemma wrap64_small (z : Z) : - 2 ^ 63 <= z < 2 ^ 63 -> wrap64 z = z.
Proof.
  intros Hz. unfold wrap64. rewrite Z.mod_small; lia.
Qed.

(** The child loop of [Iterate] is a pass as the specification has it. *)
Lemma iterChildren_bodyPass (kids : list Renderer) (st : State) :
  iterChildren kids st =
  '(how, o, st') ← bodyPass kids st; Some (ctlOf how, o, st').
Proof.
  revert st. induction kids as [|k kids IH]; intros st; [reflexivity|].
  cbn [iterChildren bodyPass].
  destruct (k st) as [[[e o] c]|]; [|reflexivity].
  cbn [mbind option_bind].
  assert (Hgo : after o (iterChildren kids c)
                = '(how, o0, st') ← after o (bodyPass kids c);
                  Some (ctlOf how, o0, st')).
  { rewrite IH. by destruct (bodyPass kids c) as [[[how o2] c2]|]. }
  destruct e as [[]|]; try exact Hgo; reflexivity.
Qed.

Lemma bindElem_node (rl rl' : RangeLoop) el (ctx : Ctx) :
  rl_node rl = rl_node rl' -> bindElem rl el ctx = bindElem rl' el ctx.
Proof.
  intros E. destruct el as [[k v] ins].
  unfold bindElem, RequireKey, SetKey, SetVal. by rewrite E.
Qed.

Lemma loopDrive_trace (kids : list Renderer)
    (elems : list (iface * iface * Inspector)) (node : Node) (c : Z)
    (st : State) :
  0 <= c -> c + len elems < 2 ^ 63 ->
  loopDrive kids elems (mkRangeLoop c node) st =
  '(os, broke, st') ← bodyTrace node kids elems (c =? 0) st;
  Some (mkRangeLoop (c + len os) node,
        joinFrom (c =? 0) (loopSep (loop node)) os, st').
Proof.
  revert c st. induction elems as [|el elems IH]; intros c [w ctx] Hc Hn.
  - simpl. rewrite Z.add_0_r. reflexivity.
  - unfold len in Hn. rewrite length_cons, Nat2Z.inj_succ in Hn.
    cbn [loopDrive bodyTrace fst snd]. unfold IterateWith.
    cbn [rl_cntr rl_node].
    rewrite (bindElem_node (mkRangeLoop c node) (NewRangeLoop node))
      by reflexivity.
    set (ctx1 := bindElem (NewRangeLoop node) el ctx).
    set (sep := loopSep (loop node)).
    assert (Hw : (if (0 <? c) && (0 <? len sep) then writeQuiet sep w else w)
                 = (if c =? 0 then w
                    else if 0 <? len sep then writeQuiet sep w else w)).
    { destruct (Z.eqb_spec c 0) as [->|Hne]; [reflexivity|].
      by rewrite (proj2 (Z.ltb_lt 0 c)) by lia. }
    assert (Ho : (if (0 <? c) && (0 <? len sep) then sep else [])
                 = (if c =? 0 then [] else sep)).
    { destruct (Z.eqb_spec c 0) as [->|Hne]; [reflexivity|].
      rewrite (proj2 (Z.ltb_lt 0 c)) by lia. by destruct sep. }
    rewrite Hw, Ho, iterChildren_bodyPass.
    destruct (bodyPass kids _) as [[[how o] st1]|]; [|reflexivity].
    cbn [mbind option_bind].
    rewrite wrap64_small by lia.
    assert (Hrest :
      after ((if c =? 0 then [] else sep) ++ o)
            (loopDrive kids elems (mkRangeLoop (c + 1) node) st1)
      = '(os, broke, st') ← ('(os, broke, st0) ←
                               bodyTrace node kids elems false st1;
                             Some (o :: os, broke, st0));
        Some (mkRangeLoop (c + len os) node,
              joinFrom (c =? 0) sep os, st')).
    { rewrite IH by (unfold len; lia).
      rewrite (proj2 (Z.eqb_neq (c + 1) 0)) by lia.
      destruct (bodyTrace node kids elems false st1) as [[[os b] st2]|];
        [|reflexivity].
      cbn [after mbind option_bind joinFrom].
      unfold len. rewrite length_cons, Nat2Z.inj_succ.
      rewrite <- !app_assoc. do 4 f_equal. lia. }
    destruct how; cbn [ctlOf].
    + apply Hrest.
    + apply Hrest.
    + cbn [mbind option_bind joinFrom]. rewrite app_nil_r. reflexivity.
Qed.

(** A pass for every element unless a pass breaks, which is then the
    last. *)
Lemma bodyTrace_length (node : Node) (kids : list Renderer)
    (elems : list (iface * iface * Inspector)) (first : bool)
    (st st' : State) (os : list bytes) (broke : bool) :
  bodyTrace node kids elems first st = Some (os, broke, st') ->
  (length os <= length elems)%nat
  /\ (broke = false -> length os = length elems)
  /\ (broke = true -> os <> []).
Proof.
  revert first st os. induction elems as [|el elems IH];
    intros first st os.
  - cbn [bodyTrace]. intros [= <- <- <-]. repeat split; [done|discriminate].
  - cbn [bodyTrace].
    destruct (bodyPass kids _) as [[[how o] st1]|]; [|discriminate].
    cbn [mbind option_bind].
    assert (Hgo :
      ('(os0, broke0, st0) ← bodyTrace node kids elems false st1;
       Some (o :: os0, broke0, st0)) = Some (os, broke, st') ->
      (length os <= length (el :: elems))%nat
      /\ (broke = false -> length os = length (el :: elems))
      /\ (broke = true -> os <> [])).
    { destruct (bodyTrace node kids elems false st1) as [[[os0 b0] st0]|]
        eqn:E; [|discriminate].
      cbn [mbind option_bind]. intros [= <- <- <-].
      destruct (IH _ _ _ E) as (Hle & Heq & _).
      repeat split; simpl; [lia| |discriminate].
      intros Hb. by rewrite Heq. }
    destruct how; try exact Hgo.
    intros [= <- <- <-]. repeat split; simpl; [lia|discriminate|discriminate].
Qed.
End SeparatorFacts.

(** C9, as the code has it: a range loop writes its separator before
    every pass of its body but the first and nowhere else: what [rloop]
    writes is the chunks of the passes joined by the separator, a pass
    cut short by continue being a chunk like any other; [Iterate]
    decides on the separator by its counter alone and counts every pass.
    There is a pass for every element unless a pass ends in a break
    signal; that pass is the last, and its separator is written by then.
    The counter is an [int], so the elements enumerated are fewer than
    [2 ^ 63]. *)
Theorem range_loop_separators `{Host} (path : bytes) (node : Node)
    (w : Sink) (ctx ctx0 : Ctx) (elems : list (iface * iface * Inspector)) :
  rangeElems path ctx = (elems, ctx0) ->
  len elems < 2 ^ 63 ->
  let kids := map renderNode (child node) in
  rloop path node (w, ctx) =
    ('(os, _, st) ← bodyTrace node kids elems true (w, ctx0);
     Some (joinSep (loopSep (loop node)) os, st))
  /\ (forall os broke st,
        bodyTrace node kids elems true (w, ctx0) = Some (os, broke, st) ->
        (length os <= length elems)%nat
        /\ (broke = false -> length os = length elems)
        /\ (broke = true -> os <> []))
  /\ (forall rl w' c,
        Iterate rl (w', c) =
        let sep := loopSep (loop (rl_node rl)) in
        let wr := (0 <? rl_cntr rl) && (0 <? len sep) in
        '(how, o, st) ← bodyPass (map renderNode (child (rl_node rl)))
                          (if wr then (Write w' sep).1 else w', c);
        Some (ctlOf how, mkRangeLoop (wrap64 (rl_cntr rl + 1)) (rl_node rl),
              (if wr then sep else []) ++ o, st))
  /\ (forall sep o1 o2 o3,
        joinSep sep [o1; o2; o3] = o1 ++ sep ++ o2 ++ sep ++ o3)
  /\ (typ node = TypeLoopRange ->
      renderNode node (w, ctx)
      = afterLoop (rloop (loopSrc (loop node)) node (w, ctx))).
Proof.
  intros He Hn kids. split.
  { unfold rloop, rloopWith. rewrite He. unfold NewRangeLoop.
    rewrite loopDrive_trace by (rewrite ?Z.add_0_l; done || lia).
    fold kids. change (0 =? 0) with true.
    destruct (bodyTrace _ _ _ _ _) as [[[os b] st]|];
      cbn [mbind option_bind]; [|reflexivity].
    by rewrite joinFrom_true. }
  split; [intros os broke st; apply bodyTrace_length|].
  split.
  { intros rl w' c. unfold Iterate, IterateWith. cbv zeta.
    rewrite iterChildren_bodyPass. unfold writeQuiet.
    by destruct (bodyPass _ _) as [[[how o] st]|]. }
  split; [reflexivity|].
  intros Ht. rewrite renderNode_eq, Ht. reflexivity.
Qed.

(** A loop over three elements whose second pass is cut short by
    continue: two separators, the second one after the shortened pass. *)
Lemma range_loop_separators_witness :
  fst <$> @rloop Buffer Demo.host (B "l") DemoNodes.loopSkip2
            ([], DemoNodes.three)
  = Some (B "<1>,<,<3>").
Proof.
  destruct (@range_loop_separators Buffer Demo.host (B "l")
              DemoNodes.loopSkip2 [] DemoNodes.three DemoNodes.three
              (Demo.elemsOf (Demo.lookupVar (B "l") DemoNodes.three))
              eq_refl eq_refl) as (E & _).
  refine (eq_trans (f_equal (fmap fst) E) _).
  vm_compute. reflexivity.
Defined.

(** C9, as stated, fails where the body breaks: the loop over three
    elements whose body breaks on the second writes one separator, and
    it ends the output. *)
Lemma break_leaves_trailing_separator :
  Demo.run demoLoopBreak
    [("l", ISlice [IBytes (B "1"); IBytes (B "2"); IBytes (B "3")])]
  = Some ("1,"%string, None).
Proof. vm_compute. reflexivity. Qed.

(** C5, at a switch body that ends in a Default with nothing after it:
    the group of the Default is missing from the result, while the same
    empty group in the middle of the body is kept; rendered with a
    matching last Case that has no body, the switch writes the Default
    group. *)
Theorem rollup_drops_trailing_empty_group :
  let case1 := set_case (mkCase (B "1") [] true false [] [] OpUnk)
                        (set_typ TypeCase Node0) in
  let default := set_typ TypeDefault Node0 in
  rollupSwitchNodes [case1; rawNode (B "A"); default]
  = [set_child [rawNode (B "A")] case1]
  /\ rollupSwitchNodes [default; case1; rawNode (B "A")]
     = [default; set_child [rawNode (B "A")] case1]
  /\ Demo.run "{% switch a %}{% default %}D{% case 1 %}{% endswitch %}"
              [("a", IBytes (B "1"))]
     = Some ("D"%string, None).
Proof. repeat split; vm_compute; reflexivity. Qed.

(** ** The parser *)

Section ScanFacts.
Lemma Index_eq (s sep : bytes) :
  Index s sep =
  if hasPrefix s sep then 0
  else match s with
       | [] => -1
       | _ :: s' => let i := Index s' sep in if i <? 0 then -1 else i + 1
       end.
Proof. destruct s; reflexivity. Qed.

Lemma Index_hasPrefix (s sep : bytes) :
  hasPrefix s sep = true -> Index s sep = 0.
Proof. intros E. by rewrite Index_eq, E. Qed.

Lemma Index_found (s sep : bytes) (j : Z) :
  Index s sep = j -> 0 <= j ->
  j <= len s /\ hasPrefix (drop (Z.to_nat j) s) sep = true.
Proof.
  revert j. induction s as [|c s IH]; intros j.
  - rewrite Index_eq. destruct (hasPrefix [] sep) eqn:E; intros <- Hj; [|lia].
    by split.
  - rewrite Index_eq.
    destruct (hasPrefix (c :: s) sep) eqn:E.
    + intros <- _. split; [unfold len; lia|exact E].
    + simpl. destruct (Index s sep <? 0) eqn:L; intros <- Hj; [lia|].
      apply Z.ltb_ge in L.
      destruct (IH (Index s sep) eq_refl L) as [Hl Hp].
      split.
      * unfold len in *. rewrite length_cons. lia.
      * replace (Z.to_nat (Index s sep + 1)) with (S (Z.to_nat (Index s sep)))
          by lia.
        exact Hp.
Qed.

Lemma IndexAt_found (p sep : bytes) (a i : Z) :
  IndexAt p sep a = i -> 0 <= i ->
  a <= i <= len p /\ hasPrefix (drop (Z.to_nat i) p) sep = true.
Proof.
  unfold IndexAt.
  destruct ((a <? 0) || (len p <? a)) eqn:R; [intros <-; lia|].
  apply orb_false_elim in R as [Ha Hl].
  apply Z.ltb_ge in Ha. apply Z.ltb_ge in Hl.
  destruct (Index (drop (Z.to_nat a) p) sep <? 0) eqn:L; [intros <-; lia|].
  apply Z.ltb_ge in L. intros <- _.
  destruct (Index_found _ _ _ eq_refl L) as [Hj Hp].
  unfold len in Hj. rewrite length_drop in Hj.
  split; [unfold len in *; lia|].
  rewrite drop_drop in Hp.
  replace (Z.to_nat (Index (drop (Z.to_nat a) p) sep + a))
    with (Z.to_nat a + Z.to_nat (Index (drop (Z.to_nat a) p) sep))%nat
    by lia.
  exact Hp.
Qed.

(** Looking again from where an occurrence was found finds it again. *)
Lemma IndexAt_again (p sep : bytes) (a i : Z) :
  IndexAt p sep a = i -> 0 <= i -> IndexAt p sep i = i.
Proof.
  intros E Hi. destruct (IndexAt_found _ _ _ _ E Hi) as [[Ha Hl] Hp].
  unfold IndexAt.
  rewrite (proj2 (Z.ltb_ge i 0)), (proj2 (Z.ltb_ge (len p) i)) by lia.
  simpl. rewrite (Index_hasPrefix _ _ Hp). reflexivity.
Qed.
End ScanFacts.

Section ParserFacts.
Variable isStatic : bytes -> bool.
Variable modRegistry : gmap string ModFn.

(** The loop of [parseTpl], entered where the next opener has no closer
    after it: the text before the opener becomes a Raw node and the
    parse fails. *)
Lemma parseTpl_unclosed (fuel : nat) (p : Parser) (ns : list Node)
    (offset i : Z) (tg : target) :
  negb (reached tg p) || eqZero tg = true ->
  IndexAt (tpl p) ctlOpen offset = i -> 0 <= i ->
  IndexAt (tpl p) ctlClose i < 0 ->
  parseTpl isStatic modRegistry (S (S fuel)) p ns offset tg
  = Some (addRaw ns (sliceZ (tpl p) offset i), i, Some ErrUnexpectedEOF, p).
Proof.
  intros Hc Ho Hi He. unfold parseTpl.
  cbn [parseLoop]. rewrite Hc, Ho.
  rewrite (proj2 (Z.ltb_ge i 0)) by lia.
  rewrite (IndexAt_again _ _ _ _ Ho Hi).
  rewrite (proj2 (Z.ltb_ge i 0)) by lia.
  by rewrite (proj2 (Z.ltb_lt _ 0) He).
Qed.

Lemma eqZero_root (p : Parser) :
  cc p = 0 -> cl p = 0 -> cs p = 0 -> eqZero (newTarget p) = true.
Proof.
  intros Hcc Hcl Hcs. unfold eqZero, tget, newTarget.
  rewrite Hcc, Hcl, Hcs. vm_compute. reflexivity.
Qed.

Lemma preprocess_counters (src : bytes) (k : bool) :
  let p := cutFmt (cutComments (mkParser k src 0 0 0)) in
  cc p = 0 /\ cl p = 0 /\ cs p = 0.
Proof.
  unfold cutFmt, cutComments, set_tpl. cbn [keepFmt cc cl cs tpl].
  destruct k; cbn [cc cl cs]; repeat split; reflexivity.
Qed.
End ParserFacts.

Section Termination.
Variable isStatic : bytes -> bool.
Variable modRegistry : gmap string ModFn.

Lemma hasPrefix_length (s pre : bytes) :
  hasPrefix s pre = true -> (length pre <= length s)%nat.
Proof.
  revert s. induction pre as [|c pre IH]; intros s; simpl; [lia|].
  destruct s as [|d s]; [discriminate|].
  intros E. apply andb_prop in E as [_ E]. apply IH in E. simpl. lia.
Qed.

Lemma len_sliceZ (b : bytes) (o e : Z) :
  0 <= o <= e -> e <= len b -> len (sliceZ b o e) = e - o.
Proof.
  intros Ho He. unfold sliceZ, len in *.
  rewrite length_take, length_drop. lia.
Qed.

(** The closer of a region lies after its opener. *)
Lemma closer_after_opener (t : bytes) (o e : Z) :
  IndexAt t ctlOpen o = o -> 0 <= o ->
  IndexAt t ctlClose o = e -> 0 <= e ->
  o + 1 <= e /\ e + 2 <= len t.
Proof.
  intros Ho Hpos He Hepos.
  destruct (IndexAt_found _ _ _ _ Ho Hpos) as [_ Hp].
  destruct (IndexAt_found _ _ _ _ He Hepos) as [[Hoe Hel] Hq].
  pose proof (hasPrefix_length _ _ Hq) as Hlen.
  rewrite length_drop in Hlen. simpl in Hlen.
  split; [|unfold len in *; lia].
  destruct (Z.eq_dec e o) as [->|Hne]; [|lia].
  exfalso. destruct (drop (Z.to_nat o) t) as [|c s]; [discriminate|].
  simpl in Hp, Hq.
  apply andb_prop in Hp as [Hp _]. apply andb_prop in Hq as [Hq _].
  apply byte_dec_bl in Hp, Hq. congruence.
Qed.

Lemma processCtl_lands nested (p : Parser) (ns : list Node) (ctl : bytes)
    (pos : Z) :
  pos + len ctl <= len (tpl p) ->
  (forall q tg, tpl q = tpl p ->
                lands (tpl p) (pos + len ctl) (nested q [] (pos + len ctl) tg)) ->
  exists ns' o goUp e p',
    processCtl isStatic modRegistry nested p ns Node0 ctl pos
    = Some (ns', o, goUp, e, p')
    /\ tpl p' = tpl p
    /\ (e = None -> pos + len ctl <= o <= len (tpl p)).
Proof.
  intros Hb Hrec. unfold processCtl.
  set (t := Trim ctl ctlTrim).
  repeat (case_match;
          try (do 5 eexists; split; [reflexivity|];
               split; [reflexivity|]; intros; first [lia|discriminate])).
  all: match goal with
       | |- context [mbind _ (_ ?q [] _ ?tg)] =>
           destruct (Hrec q tg eq_refl) as (ms & o & e & p' & -> & Ht & Ho)
       end; simpl; do 5 eexists; split; [reflexivity|]; split; assumption.
Qed.

Lemma parseLoop_lands (fuel : nat) : forall p ns o inCtl tg,
  0 <= o <= len (tpl p) ->
  (inCtl = true -> IndexAt (tpl p) ctlOpen o = o) ->
  (Z.to_nat (len (tpl p) - o) + (if inCtl then 1 else 2) <= fuel)%nat ->
  lands (tpl p) o (parseLoop isStatic modRegistry fuel p ns o o inCtl tg).
Proof.
  induction fuel as [|fuel IH]; intros p ns o inCtl tg Ho Hin Hf.
  { destruct inCtl; lia. }
  cbn [parseLoop].
  destruct (negb (reached tg p) || eqZero tg).
  2: { exists ns, o, None, p. repeat split; lia. }
  destruct (IndexAt (tpl p) ctlOpen o <? 0) eqn:Li.
  { destruct inCtl.
    - exists ns, o, (Some ErrUnexpectedEOF), p.
      split; [reflexivity|]. split; [reflexivity|discriminate].
    - exists (addRaw ns (fromZ (tpl p) o)), (len (tpl p)), None, p.
      split; [reflexivity|]. split; [reflexivity|lia]. }
  apply Z.ltb_ge in Li.
  set (i := IndexAt (tpl p) ctlOpen o) in *.
  pose proof (IndexAt_found _ _ _ _ (eq_refl i) Li) as [[Hlo Hhi] _].
  pose proof (IndexAt_again _ _ _ _ (eq_refl i) Li) as Hagain.
  destruct inCtl.
  - assert (Hio : i = o) by (apply Hin; reflexivity).
    destruct (IndexAt (tpl p) ctlClose i <? 0) eqn:Le.
    { exists ns, o, (Some ErrUnexpectedEOF), p.
      split; [reflexivity|]. split; [reflexivity|discriminate]. }
    apply Z.ltb_ge in Le.
    pose proof (closer_after_opener _ _ _ Hagain Li eq_refl Le) as [He1 He2].
    set (e := IndexAt (tpl p) ctlClose i + 2) in *.
    assert (Hlen : o + len (sliceZ (tpl p) o e) = e)
      by (rewrite len_sliceZ; lia).
    destruct (processCtl_lands
                (fun p ns off tg =>
                   parseLoop isStatic modRegistry fuel p ns off off false tg)
                p ns (sliceZ (tpl p) o e) o)
      as (ns1 & o1 & up1 & e1 & q1 & -> & Ht1 & Ho1).
    { lia. }
    { intros q tg0 Hq. rewrite Hlen, <- Hq.
      apply IH; [rewrite Hq; lia|discriminate|rewrite Hq; lia]. }
    simpl. destruct e1 as [er|].
    { exists ns1, o, (Some er), q1.
      split; [reflexivity|]. split; [assumption|discriminate]. }
    specialize (Ho1 eq_refl). rewrite Hlen in Ho1.
    destruct up1.
    { exists ns1, o1, None, q1.
      split; [reflexivity|]. split; [assumption|lia]. }
    destruct (IH q1 ns1 o1 false tg) as (ns2 & o2 & e2 & p2 & E2 & Ht2 & Ho2);
      [rewrite Ht1; lia|discriminate|rewrite Ht1; lia|].
    rewrite E2. exists ns2, o2, e2, p2.
    split; [reflexivity|]. split; [congruence|].
    intros He2'; specialize (Ho2 He2'). rewrite Ht1 in Ho2. lia.
  - destruct (IH p (addRaw ns (sliceZ (tpl p) o i)) i true tg)
      as (ns2 & o2 & e2 & p2 & E2 & Ht2 & Ho2); [lia|done|lia|].
    rewrite E2. exists ns2, o2, e2, p2.
    split; [reflexivity|]. split; [assumption|].
    intros He2'; specialize (Ho2 He2'). lia.
Qed.

End Termination.

Section SplitFacts.

Lemma slice_snoc (all : list Node) (o i : nat) (n : Node) :
  (o <= i)%nat -> all !! i = Some n ->
  slice all o (S i) = slice all o i ++ [n].
Proof.
  intros Hoi Hn. unfold slice.
  replace (S i - o)%nat with (S (i - o)) by lia.
  assert (Hd : drop o all !! (i - o)%nat = Some n).
  { rewrite lookup_drop. by replace (o + (i - o))%nat with i by lia. }
  by rewrite (take_S_r _ _ _ Hd).
Qed.

Lemma drop_lookup_end (all : list Node) (o : nat) :
  (o < length all)%nat -> drop o all <> [].
Proof.
  intros Ho E. apply (f_equal length) in E. rewrite length_drop in E.
  simpl in E. lia.
Qed.

(** The loop of [splitNodes], from any point of the walk. *)
Lemma splitLoop_parts (done rest : list Node) (o : nat)
    (split : list (list Node)) :
  (o <= length done)%nat ->
  let all := done ++ rest in
  let '(o', split') := splitLoop all rest (length done) o split in
  (if (o' <? length all)%nat then split' ++ [drop o' all] else split')
  = split ++ parts rest (slice all o (length done)).
Proof.
  revert done o split. induction rest as [|n rest IH]; intros done o split Ho.
  - cbn zeta. simpl splitLoop. simpl parts. cbv beta iota.
    rewrite app_nil_r. unfold slice.
    destruct (o <? length done)%nat eqn:L.
    + apply Nat.ltb_lt in L.
      rewrite take_ge by (rewrite length_drop; lia).
      pose proof (drop_lookup_end done o L).
      by destruct (drop o done).
    + apply Nat.ltb_ge in L.
      rewrite drop_ge by lia. rewrite take_nil. by rewrite app_nil_r.
  - cbn zeta. simpl splitLoop.
    assert (Hn : (done ++ n :: rest) !! length done = Some n)
      by (by rewrite list_lookup_middle).
    specialize (IH (done ++ [n])).
    rewrite length_app in IH. simpl in IH.
    replace (length done + 1)%nat with (S (length done)) in IH by lia.
    rewrite <- app_assoc in IH. simpl in IH.
    simpl parts. unfold isDiv.
    destruct (decide (typ n = TypeDiv)) as [Hd|Hd].
    + rewrite (bool_decide_eq_true_2 _ Hd).
      specialize (IH (S (length done)) (split ++ [slice (done ++ n :: rest) o (length done)])
                     ltac:(lia)).
      destruct (splitLoop _ rest _ _ _) as [o' split'].
      rewrite IH, <- app_assoc. simpl. do 2 f_equal.
      unfold slice. by rewrite Nat.sub_diag.
    + rewrite (bool_decide_eq_false_2 _ Hd).
      specialize (IH o split ltac:(lia)).
      destruct (splitLoop _ rest _ _ _) as [o' split'].
      rewrite IH. by rewrite (slice_snoc _ _ _ n) by done.
Qed.

Lemma splitNodes_parts (l : list Node) : splitNodes l = parts l [].
Proof.
  destruct l as [|n l]; [reflexivity|].
  unfold splitNodes.
  pose proof (splitLoop_parts [] (n :: l) 0 [] (le_n 0)) as H.
  simpl app in H. cbn zeta in H. simpl length in H at 1.
  destruct (splitLoop (n :: l) (n :: l) 0 0 []) as [o split].
  rewrite H. reflexivity.
Qed.

Lemma parts_concat (l cur : list Node) :
  concat (parts l cur) = cur ++ List.filter (fun n => negb (isDiv n)) l.
Proof.
  revert cur. induction l as [|n l IH]; intros cur; simpl.
  - destruct cur; simpl; by rewrite ?app_nil_r.
  - destruct (isDiv n) eqn:E; simpl; rewrite IH; [done|].
    by rewrite <- app_assoc.
Qed.

Lemma parts_no_div (l cur : list Node) :
  forallb (fun n => negb (isDiv n)) cur = true ->
  Forall (fun s => forallb (fun n => negb (isDiv n)) s = true) (parts l cur).
Proof.
  revert cur. induction l as [|n l IH]; intros cur Hc; simpl.
  - destruct cur; constructor; [done|constructor].
  - destruct (isDiv n) eqn:E.
    + constructor; [done|]. by apply IH.
    + apply IH. rewrite forallb_app, Hc. simpl. by rewrite E.
Qed.

Lemma parts_plain (l cur : list Node) :
  forallb (fun n => negb (isDiv n)) l = true ->
  parts l cur = match cur ++ l with [] => [] | _ => [cur ++ l] end.
Proof.
  revert cur. induction l as [|n l IH]; intros cur Hl; simpl in *.
  - by rewrite app_nil_r.
  - apply andb_prop in Hl as [Hn Hl]. apply negb_true_iff in Hn.
    rewrite Hn, IH by done. rewrite <- app_assoc. simpl.
    by destruct cur.
Qed.
End SplitFacts.

Section EofFacts.
Variable isStatic : bytes -> bool.
Variable modRegistry : gmap string ModFn.

(** [Index] finds no occurrence later than one there is. *)
Lemma Index_first (s sep : bytes) (k : nat) :
  hasPrefix (drop k s) sep = true -> 0 <= Index s sep <= Z.of_nat k.
Proof.
  revert k. induction s as [|c s IH]; intros k Hk.
  - rewrite drop_nil in Hk. rewrite Index_eq, Hk. lia.
  - rewrite Index_eq. destruct (hasPrefix (c :: s) sep) eqn:E; [lia|].
    destruct k as [|k]; [cbn [drop] in Hk; congruence|].
    cbn [drop] in Hk. specialize (IH k Hk). cbv zeta.
    rewrite (proj2 (Z.ltb_ge _ 0)) by lia. lia.
Qed.

Lemma IndexAt_first (p sep : bytes) (a j : Z) :
  0 <= a <= j -> j <= len p ->
  hasPrefix (drop (Z.to_nat j) p) sep = true ->
  a <= IndexAt p sep a <= j.
Proof.
  intros Ha Hj Hp. unfold IndexAt.
  rewrite (proj2 (Z.ltb_ge a 0)), (proj2 (Z.ltb_ge (len p) a)) by lia.
  cbn [orb].
  assert (Hd : hasPrefix (drop (Z.to_nat (j - a)) (drop (Z.to_nat a) p)) sep
               = true).
  { rewrite drop_drop.
    by replace (Z.to_nat a + Z.to_nat (j - a))%nat with (Z.to_nat j) by lia. }
  pose proof (Index_first _ _ _ Hd) as Hi.
  rewrite (proj2 (Z.ltb_ge _ 0)) by lia. lia.
Qed.

(** An opener lies inside the body. *)
Lemma opener_inside (body : bytes) (j : Z) :
  0 <= j -> hasPrefix (drop (Z.to_nat j) body) ctlOpen = true ->
  j + 2 <= len body.
Proof.
  intros Hj Hp. apply hasPrefix_length in Hp.
  rewrite length_drop in Hp. simpl in Hp. unfold len. lia.
Qed.

(** A closer found from an opener lies before every unclosed opener
    that is not before that opener, and apart from it. *)
Lemma closer_before_unclosed (body : bytes) (o e j : Z) :
  0 <= o <= j -> unclosedAt body j ->
  IndexAt body ctlClose o = e -> 0 <= e ->
  e + 2 <= j.
Proof.
  intros Ho (Hj & Hop & Hno) He Hpos.
  destruct (IndexAt_found _ _ _ _ He Hpos) as [[Hoe Hel] Hq].
  pose proof (opener_inside _ _ Hj Hop) as Hin.
  destruct (Z.le_gt_cases j e) as [Hje|Hej].
  { pose proof (IndexAt_first body ctlClose j e ltac:(lia) Hel Hq). lia. }
  destruct (Z.eq_dec (e + 1) j) as [<-|Hne]; [|lia].
  exfalso.
  replace (Z.to_nat (e + 1)) with (S (Z.to_nat e)) in Hop by lia.
  assert (Hs : drop (S (Z.to_nat e)) body = drop 1 (drop (Z.to_nat e) body))
    by (rewrite drop_drop; f_equal; lia).
  rewrite Hs in Hop.
  destruct (drop (Z.to_nat e) body) as [|c1 [|c2 s]]; try discriminate.
  simpl in Hop, Hq.
  apply andb_prop in Hop as [Hop _]. apply andb_prop in Hq as [_ Hq].
  apply andb_prop in Hq as [Hq _].
  apply byte_dec_bl in Hop, Hq. congruence.
Qed.

Lemma Atoi_tagError (b : bytes) (e : error) :
  Atoi b = inr e -> tagError e.
Proof. unfold Atoi. repeat case_match; intros [= <-]; exact I. Qed.

Lemma cntrNode_tagError (t : bytes) (root : Node) (e : error) :
  cntrNode t root = inr e -> tagError e.
Proof.
  unfold cntrNode.
  repeat case_match; try discriminate; intros [= <-];
    by eapply Atoi_tagError.
Qed.

(** The ways [processCtl] ends: past its tag with no error, with an
    error of the tag, or as the nested parse of the tag's body ended. *)
Lemma processCtl_cases nested (p p' : Parser) (ns ns' : list Node)
    (root : Node) (ctl : bytes) (pos o' : Z) (goUp : bool)
    (e : option error) (R : Z -> option error -> Parser -> Prop) :
  processCtl isStatic modRegistry nested p ns root ctl pos
  = Some (ns', o', goUp, e, p') ->
  (forall q, tpl q = tpl p -> R (pos + len ctl) None q) ->
  (forall er o q, tagError er -> tpl q = tpl p -> R o (Some er) q) ->
  (forall q tg ms off err q',
     tpl q = tpl p ->
     nested q [] (pos + len ctl) tg = Some (ms, off, err, q') ->
     R off err q') ->
  R o' e p'.
Proof.
  intros HP Hleaf Herr Hnest. revert HP. unfold processCtl.
  set (t := Trim ctl ctlTrim).
  repeat (case_match;
          try (intros [= <- <- <- <- <-];
               first [ by apply Hleaf
                     | by apply Herr
                     | apply Herr; [by eapply cntrNode_tagError|done] ])).
  all: match goal with
       | |- context [mbind _ (?f ?q [] _ ?tg)] =>
           destruct (f q [] (pos + len ctl) tg)
             as [[[[ms off] err] q']|] eqn:En;
           cbn [mbind option_bind]; [|discriminate];
           intros [= <- <- <- <- <-];
           by apply (Hnest q tg ms _ _ _ eq_refl En)
       end.
Qed.

(** What a call of the scanning loop ends in: it keeps the template; a
    nil error leaves the offset at or after where it started; the
    end-of-file error comes with an opener that has no closer; and an
    opener without closer that lies ahead is not passed with a nil
    error. *)
Lemma parseLoop_outcome (fuel : nat) : forall p ns o inCtl tg ns' o' e p',
  0 <= o <= len (tpl p) ->
  (inCtl = true -> IndexAt (tpl p) ctlOpen o = o) ->
  parseLoop isStatic modRegistry fuel p ns o o inCtl tg
  = Some (ns', o', e, p') ->
  tpl p' = tpl p
  /\ (e = None -> o <= o' <= len (tpl p))
  /\ (e = Some ErrUnexpectedEOF ->
      exists j, o <= j /\ unclosedAt (tpl p) j)
  /\ (forall j, o <= j -> unclosedAt (tpl p) j -> stopsAt j e o').
Proof.
  induction fuel as [|fuel IH]; intros p ns o inCtl tg ns' o' e p' Ho Hin;
    [discriminate|].
  cbn [parseLoop].
  destruct (negb (reached tg p) || eqZero tg).
  2: { intros [= <- <- <- <-]. repeat split; try lia; try discriminate.
       intros j Hj _. exact Hj. }
  destruct (IndexAt (tpl p) ctlOpen o <? 0) eqn:Li.
  { apply Z.ltb_lt in Li. destruct inCtl.
    - rewrite Hin in Li by reflexivity. lia.
    - intros [= <- <- <- <-]. repeat split; try lia; try discriminate.
      intros j Hj (Hj0 & Hop & _).
      pose proof (opener_inside _ _ Hj0 Hop).
      pose proof (IndexAt_first (tpl p) ctlOpen o j ltac:(lia) ltac:(lia) Hop).
      lia. }
  apply Z.ltb_ge in Li.
  set (i := IndexAt (tpl p) ctlOpen o) in *.
  pose proof (IndexAt_found _ _ _ _ (eq_refl i) Li) as [[Hlo Hhi] Hpi].
  pose proof (IndexAt_again _ _ _ _ (eq_refl i) Li) as Hagain.
  destruct inCtl.
  - assert (Hio : i = o) by (apply Hin; reflexivity).
    destruct (IndexAt (tpl p) ctlClose i <? 0) eqn:Le.
    { apply Z.ltb_lt in Le. intros [= <- <- <- <-].
      split; [reflexivity|]. split; [discriminate|]. split.
      - intros _. exists o. split; [lia|].
        rewrite Hio in Hpi, Le. by repeat split; [lia| |].
      - intros j _ _. by left. }
    apply Z.ltb_ge in Le.
    pose proof (closer_after_opener _ _ _ Hagain Li eq_refl Le) as [He1 He2].
    assert (Hclose : forall j, o <= j -> unclosedAt (tpl p) j ->
                               IndexAt (tpl p) ctlClose i + 2 <= j).
    { intros j Hj Hu.
      apply (closer_before_unclosed (tpl p) i _ j); [lia|done|done|done]. }
    set (e0 := IndexAt (tpl p) ctlClose i + 2) in *.
    assert (Hlen : o + len (sliceZ (tpl p) o e0) = e0)
      by (rewrite len_sliceZ; lia).
    destruct (processCtl _ _ _ _ _ _ _ _)
      as [[[[[ns1 o1] up1] err1] p1]|] eqn:Ep;
      cbn [mbind option_bind]; [|discriminate].
    pose proof (processCtl_cases _ _ _ _ _ _ _ _ _ _ _
      (fun off err q =>
         tpl q = tpl p
         /\ (err = None -> e0 <= off <= len (tpl p))
         /\ (err = Some ErrUnexpectedEOF ->
             exists j, e0 <= j /\ unclosedAt (tpl p) j)
         /\ (forall j, e0 <= j -> unclosedAt (tpl p) j -> stopsAt j err off))
      Ep) as HR.
    rewrite Hlen in HR.
    destruct HR as (Ht1 & Hn1 & Heof1 & Hst1).
    { intros q Hq. repeat split; try lia; try done. }
    { intros er off q Her Hq. split; [done|]. split; [discriminate|].
      split; [intros [= ->]; destruct Her|]. intros j _ _. by right. }
    { intros q tg0 ms off err q' Hq En.
      destruct (IH q [] e0 false tg0 ms off err q') as (Ha & Hb & Hc & Hd).
      { rewrite Hq; lia. }
      { discriminate. }
      { exact En. }
      rewrite Hq in Ha, Hb, Hc, Hd.
      exact (conj Ha (conj Hb (conj Hc Hd))). }
    destruct err1 as [er|].
    { intros [= <- <- <- <-]. split; [done|]. split; [discriminate|]. split.
      - intros Hx. destruct (Heof1 Hx) as (j & Hj & Hu).
        exists j. split; [lia|done].
      - intros j Hj Hu. apply (Hst1 j); [by apply Hclose|done]. }
    specialize (Hn1 eq_refl).
    destruct up1.
    { intros [= <- <- <- <-]. split; [done|]. split; [lia|].
      split; [discriminate|].
      intros j Hj Hu. apply (Hst1 j); [by apply Hclose|done]. }
    intros Hrest.
    destruct (IH p1 ns1 o1 false tg ns' o' e p') as (Ha & Hb & Hc & Hd);
      [rewrite Ht1; lia|discriminate|exact Hrest|].
    rewrite Ht1 in *. split; [done|]. split; [intros Hx; specialize (Hb Hx); lia|].
    split.
    + intros Hx. destruct (Hc Hx) as (j & Hj & Hu). exists j. split; [lia|done].
    + intros j Hj Hu. apply Hd; [|done].
      exact (Hst1 j (Hclose j Hj Hu) Hu).
  - intros Hrest.
    destruct (IH p (addRaw ns (sliceZ (tpl p) o i)) i true tg ns' o' e p')
      as (Ha & Hb & Hc & Hd); [lia|done|exact Hrest|].
    split; [done|]. split; [intros Hx; specialize (Hb Hx); lia|]. split.
    + intros Hx. destruct (Hc Hx) as (j & Hj & Hu). exists j. split; [lia|done].
    + intros j Hj Hu. apply Hd; [|done].
      destruct Hu as (Hj0 & Hop & _).
      pose proof (opener_inside _ _ Hj0 Hop).
      pose proof (IndexAt_first (tpl p) ctlOpen o j ltac:(lia) ltac:(lia) Hop).
      fold i in H0. lia.
Qed.
End EofFacts.

Section Untouched.

(** A search finds nothing in a text at no offset of which the pattern
    matches. *)
Lemma rsearch_none (r : regex) (g : nat) : forall (s : bytes) (pos : nat),
  (forall j pos caps k, rmatch r pos (drop j s) caps k = None) ->
  rsearch r g pos s = None.
Proof.
  induction s as [|b s IH]; intros pos H; cbn [rsearch].
  - by rewrite (H 0%nat).
  - rewrite (H 0%nat). apply IH. intros j. apply (H (S j)).
Qed.

Lemma ReplaceAllEmpty_none (r : Regexp) (s : bytes) :
  (forall j pos caps k, rmatch (re r) pos (drop j s) caps k = None) ->
  ReplaceAllEmpty r s = s.
Proof.
  intros H. unfold ReplaceAllEmpty. cbn [cutAll].
  by rewrite rsearch_none.
Qed.

(** A run of one byte followed by something that matches nowhere in the
    text matches nowhere. *)
Lemma star_byte_none (c : byte) (k : nat -> bytes -> Caps -> option (nat * Caps)) :
  forall (s : bytes) (pos : nat) (caps : Caps),
  (forall j pos caps, k pos (drop j s) caps = None) ->
  rmatch (RStar (RByte c)) pos s caps k = None.
Proof.
  intros s pos caps. cbn [rmatch]. generalize (length s). intros n.
  revert s pos caps. induction n as [|n IH]; intros s pos caps H.
  - apply (H 0%nat).
  - destruct s as [|b s]; [apply (H 0%nat)|].
    destruct (Byte.eqb b c); [|apply (H 0%nat)].
    destruct (pos <? S pos)%nat; [|apply (H 0%nat)].
    rewrite IH; [apply (H 0%nat)|]. intros j. apply (H (S j)).
Qed.

Lemma lit1_none (a : byte) (r1 rest : regex) (t : bytes) pos caps k :
  hasPrefix t [a] = false ->
  rmatch (RCat (RCat (RByte a) r1) rest) pos t caps k = None.
Proof.
  intros H. cbn [rmatch]. destruct t as [|x t]; [done|].
  destruct (Byte.eqb x a) eqn:E; [|done].
  apply byte_dec_bl in E. subst x. cbn [hasPrefix] in H.
  rewrite (byte_dec_lb eq_refl) in H. by destruct t.
Qed.

Lemma lit2_none (a b : byte) (rest : regex) (t : bytes) pos caps k :
  hasPrefix t [a; b] = false ->
  rmatch (RCat (RCat (RByte a) (RCat (RByte b) REmpty)) rest) pos t caps k
  = None.
Proof.
  intros H. cbn [rmatch]. destruct t as [|x t]; [done|].
  destruct (Byte.eqb x a) eqn:E; [|done].
  apply byte_dec_bl in E. subst x.
  destruct t as [|y t]; [done|].
  destruct (Byte.eqb y b) eqn:E'; [|done].
  apply byte_dec_bl in E'. subst y. cbn [hasPrefix] in H.
  rewrite !(byte_dec_lb eq_refl) in H. by destruct t.
Qed.

Lemma Index_none (s sep : bytes) (j : nat) :
  Index s sep < 0 -> hasPrefix (drop j s) sep = false.
Proof.
  intros H. destruct (hasPrefix (drop j s) sep) eqn:E; [|done].
  pose proof (Index_first _ _ _ E). lia.
Qed.

(** A source without a comment opener keeps its bytes through
    [cutComments]; one without a line feed and with nothing to trim
    keeps them through [cutFmt]. *)
Lemma cutComments_none (src : bytes) :
  Index src (B "{#") < 0 -> ReplaceAllEmpty reCutComments src = src.
Proof.
  intros H. apply ReplaceAllEmpty_none. intros j pos caps k.
  change (re reCutComments) with
    (RCat (RStar (RByte x09))
       (RCat (RCat (RByte "{") (RCat (RByte "#") REmpty))
          (cat [RStar (noneOf "#"); lit "#}"; RStar (RByte x0a)]))).
  cbn [rmatch]. apply star_byte_none. intros i pos' caps'.
  apply (lit2_none "{" "#"). rewrite drop_drop. by apply Index_none.
Qed.

Lemma cutFmt_none (src : bytes) :
  Index src [x0a] < 0 -> ReplaceAllEmpty reCutFmt src = src.
Proof.
  intros H. apply ReplaceAllEmpty_none. intros j pos caps k.
  change (re reCutFmt) with
    (RCat (RCat (RByte x0a) (RStar (RByte x0a)))
       (cat [RStar (RByte x09); RStar cSpace])).
  apply lit1_none. by apply Index_none.
Qed.

Lemma preprocessed_none (src : bytes) (keep : bool) :
  Index src (B "{#") < 0 ->
  keep = true \/ (Index src [x0a] < 0 /\ Trim src noFmt = src) ->
  preprocessed src keep = src.
Proof.
  intros Hc Hk. unfold preprocessed, cutFmt, cutComments, set_tpl.
  cbn [keepFmt tpl]. rewrite (cutComments_none _ Hc).
  destruct keep; [reflexivity|].
  destruct Hk as [|[Hn Ht]]; [discriminate|].
  cbn [tpl]. by rewrite (cutFmt_none _ Hn).
Qed.
End Untouched.

(** C2, as the code has it.  [Parse] always returns.  It returns the
    unexpected-end error only when the template holds an opener [{%]
    with no [%}] after it, and, whatever the depth of such an opener,
    the parse does not go past it: it ends in that error, in the error
    of a tag before the opener, or, with a nil error, at a stray closing
    tag before the opener.  When the first opener of the template is the
    unclosed one the result is the text before it and the error, and so
    it is for any call of [parseTpl], nested ones included, whose next
    opener has no closer.  The preprocessed template is the source
    itself when the source has no comment opener and either the
    formatting is kept or there is no line feed and nothing to trim. *)
Theorem unclosed_region_is_eof (isStatic : bytes -> bool)
    (modRegistry : gmap string ModFn) (src : bytes) (keep : bool) :
  let body := preprocessed src keep in
  (exists ns o err p,
     parseRoot isStatic modRegistry src keep = Some (ns, o, err, p)
     /\ Parse isStatic modRegistry src keep = Some (mkTree ns, err)
     /\ (forall j, unclosedAt body j -> stopsAt j err o)
     /\ (err = Some ErrUnexpectedEOF -> exists j, unclosedAt body j))
  /\ (forall i,
        IndexAt body ctlOpen 0 = i -> 0 <= i ->
        IndexAt body ctlClose i < 0 ->
        Parse isStatic modRegistry src keep
        = Some (mkTree (addRaw [] (sliceZ body 0 i)), Some ErrUnexpectedEOF))
  /\ (forall fuel p ns offset i tg,
        negb (reached tg p) || eqZero tg = true ->
        IndexAt (tpl p) ctlOpen offset = i -> 0 <= i ->
        IndexAt (tpl p) ctlClose i < 0 ->
        parseTpl isStatic modRegistry (S (S fuel)) p ns offset tg
        = Some (addRaw ns (sliceZ (tpl p) offset i), i,
                Some ErrUnexpectedEOF, p))
  /\ (Index src (B "{#") < 0 ->
      keep = true \/ (Index src [x0a] < 0 /\ Trim src noFmt = src) ->
      body = src).
Proof.
  intros body. split; [|split; [|split]].
  - unfold Parse, parseRoot, parseFuel, parseTpl. cbv zeta.
    set (p := cutFmt (cutComments (mkParser keep src 0 0 0))).
    assert (Hb : tpl p = body) by reflexivity.
    destruct (parseLoop_lands isStatic modRegistry (S (S (length (tpl p))))
                p [] 0 false (newTarget p))
      as (ns & o & e & q & E & _); [unfold len; lia|discriminate| |].
    { unfold len. lia. }
    rewrite E. exists ns, o, e, q. split; [reflexivity|].
    split; [reflexivity|].
    destruct (parseLoop_outcome isStatic modRegistry
                (S (S (length (tpl p)))) p [] 0 false
                (newTarget p) ns o e q) as (_ & _ & Heof & Hst);
      [unfold len; lia|discriminate|exact E|].
    rewrite Hb in Heof, Hst. split.
    + intros j Hj. apply Hst; [|exact Hj]. by destruct Hj.
    + intros He. destruct (Heof He) as (j & _ & Hj). by exists j.
  - intros i Ho Hi He. unfold Parse, parseFuel.
    destruct (preprocess_counters src keep) as (Hcc & Hcl & Hcs).
    rewrite parseTpl_unclosed with (i := i);
      [reflexivity| |exact Ho|exact Hi|exact He].
    rewrite eqZero_root by assumption. apply orb_true_r.
  - intros fuel p ns offset i tg. apply parseTpl_unclosed.
  - apply preprocessed_none.
Qed.

Lemma unclosed_region_is_eof_witness :
  let src := B "{%= a %}x{% if" in
  (exists ns o err p,
     parseRoot Demo.isStatic ∅ src false = Some (ns, o, err, p)
     /\ Demo.parse "{%= a %}x{% if" = Some (mkTree ns, err)
     /\ stopsAt 9 err o)
  /\ preprocessed src false = src
  /\ Demo.parse "foo {% bar"
     = Some (mkTree [rawNode (B "foo ")], Some ErrUnexpectedEOF).
Proof.
  intros src.
  destruct (unclosed_region_is_eof Demo.isStatic ∅ src false)
    as ((ns & o & err & p & E & EP & Hst & _) & _ & _ & Hsrc).
  destruct (unclosed_region_is_eof Demo.isStatic ∅ (B "foo {% bar") false)
    as (_ & Hfirst & _ & _).
  split; [|split].
  - exists ns, o, err, p. split; [exact E|]. split; [exact EP|].
    apply Hst. vm_compute. repeat split; discriminate.
  - apply Hsrc; [vm_compute; reflexivity|].
    right. split; vm_compute; reflexivity.
  - refine (eq_trans (Hfirst 4 ltac:(vm_compute; reflexivity) ltac:(lia)
                        ltac:(vm_compute; reflexivity)) _).
    vm_compute. reflexivity.
Defined.

(** C2, as stated, fails: [{% if a %}] followed by text and no
    [{% endif %}] parses without error, to a Cond node whose true branch
    is the text. *)
Lemma unterminated_if_parses :
  exists tree,
    Demo.parse "{% if a %}text" = Some (tree, None)
    /\ map typ (nodes tree) = [TypeCond]
    /\ map (fun n => map typ (child n)) (nodes tree) = [[TypeCondTrue]].
Proof. eexists. vm_compute. repeat split. Qed.

Section CondShape.
Variable isStatic : bytes -> bool.
Variable modRegistry : gmap string ModFn.

Abbreviation allOK l := (forallb condOK l = true).

Lemma condOK_eq (n : Node) :
  condOK n =
  (if bool_decide (typ n = TypeCond) then
     match child n with
     | [] => true
     | [t] => bool_decide (typ t = TypeCondTrue)
     | [t; f] =>
         bool_decide (typ t = TypeCondTrue)
         && bool_decide (typ f = TypeCondFalse)
     | _ => false
     end
   else true)
  && forallb condOK (child n).
Proof. destruct n; reflexivity. Qed.

Lemma condOK_leaf (n : Node) : child n = [] -> condOK n = true.
Proof.
  intros E. rewrite condOK_eq, E. simpl. by destruct (bool_decide _).
Qed.

Lemma condOK_other (n : Node) :
  typ n <> TypeCond -> allOK (child n) -> condOK n = true.
Proof.
  intros Ht Hc. rewrite condOK_eq, Hc, bool_decide_eq_false_2 by done.
  reflexivity.
Qed.

Lemma condOK_children (n : Node) : condOK n = true -> allOK (child n).
Proof. rewrite condOK_eq. intros E. by apply andb_prop in E as [_ E]. Qed.

Lemma allOK_snoc (l : list Node) (n : Node) :
  allOK l -> condOK n = true -> allOK (addNode l n).
Proof.
  intros Hl Hn. unfold addNode. rewrite forallb_app, Hl. simpl.
  by rewrite Hn.
Qed.

Lemma allOK_addRaw (l : list Node) (r : bytes) :
  allOK l -> allOK (addRaw l r).
Proof.
  intros Hl. unfold addRaw. destruct r; [done|].
  apply (allOK_snoc l); [done|]. by apply condOK_leaf.
Qed.

Lemma allOK_Forall (l : list Node) :
  allOK l <-> Forall (fun n => condOK n = true) l.
Proof.
  induction l as [|n l IH]; simpl.
  - split; [constructor|done].
  - rewrite andb_true_iff, IH. split.
    + intros [? ?]. by constructor.
    + inversion 1; subst. by split.
Qed.

Lemma allOK_slice (l : list Node) (o i : nat) :
  allOK l -> allOK (slice l o i).
Proof.
  rewrite !allOK_Forall. intros Hl. unfold slice.
  by apply Forall_take, Forall_drop.
Qed.

Lemma allOK_drop (l : list Node) (o : nat) : allOK l -> allOK (drop o l).
Proof. rewrite !allOK_Forall. apply Forall_drop. Qed.

Lemma splitLoop_OK (all rest : list Node) (i o : nat)
    (split : list (list Node)) :
  allOK all -> Forall (fun s => allOK s) split ->
  Forall (fun s => allOK s) (splitLoop all rest i o split).2.
Proof.
  intros Ha. revert i o split.
  induction rest as [|n rest IH]; intros i o split Hs; simpl; [done|].
  destruct (decide (typ n = TypeDiv)); apply IH; [|done].
  apply Forall_app. split; [done|].
  constructor; [|constructor]. by apply allOK_slice.
Qed.

Lemma splitNodes_OK (l : list Node) :
  allOK l -> Forall (fun s => allOK s) (splitNodes l).
Proof.
  intros Hl. unfold splitNodes. destruct l as [|n l]; [constructor|].
  pose proof (splitLoop_OK (n :: l) (n :: l) 0 0 [] Hl (List.Forall_nil _)) as Hs.
  destruct (splitLoop (n :: l) (n :: l) 0 0 []) as [o split].
  simpl in Hs. destruct (o <? length (n :: l))%nat; [|done].
  apply Forall_app. split; [done|].
  constructor; [|constructor]. by apply allOK_drop.
Qed.

Lemma rollupLoop_OK (rest r : list Node) (group : Node) :
  allOK rest -> allOK r ->
  typ group <> TypeCond -> allOK (child group) ->
  let '(r', group') := rollupLoop rest r group in
  allOK r' /\ typ group' <> TypeCond /\ allOK (child group').
Proof.
  revert r group. induction rest as [|n rest IH]; intros r group Hrest Hr Hg Hc.
  - simpl. done.
  - simpl in Hrest. apply andb_prop in Hrest as [Hn Hrest]. simpl.
    destruct (negb (isCaseOrDefault n) && bool_decide (typ group = TypeNone)).
    + by apply IH.
    + destruct (isCaseOrDefault n) eqn:Hcd.
      * assert (Hnt : typ n <> TypeCond).
        { unfold isCaseOrDefault in Hcd.
          apply orb_prop in Hcd as [Hcd|Hcd];
            apply bool_decide_eq_true_1 in Hcd; congruence. }
        apply IH; [exact Hrest| |exact Hnt|by apply condOK_children].
        destruct (bool_decide (typ group <> TypeNone)); [|exact Hr].
        apply (allOK_snoc r); [exact Hr|]. by apply condOK_other.
      * apply IH; [exact Hrest|exact Hr| |].
        -- by destruct group.
        -- replace (child (set_child (child group ++ [n]) group))
             with (child group ++ [n]) by (by destruct group).
           rewrite forallb_app, Hc. simpl. by rewrite Hn.
Qed.

Lemma rollupSwitchNodes_OK (l : list Node) :
  allOK l -> allOK (rollupSwitchNodes l).
Proof.
  intros Hl. unfold rollupSwitchNodes. destruct l as [|n l]; [done|].
  pose proof (rollupLoop_OK (n :: l) [] (set_typ TypeNone Node0) Hl
                eq_refl ltac:(discriminate) eq_refl) as Hr.
  destruct (rollupLoop (n :: l) [] (set_typ TypeNone Node0)) as [r g].
  destruct Hr as (Hr & Hg & Hc).
  destruct (0 <? len (child g)); [|done].
  apply (allOK_snoc r); [done|]. by apply condOK_other.
Qed.

(** The children a condition gets: at most the first two parts of its
    split body, whatever parts follow. *)
Lemma condBranches_child (split : list (list Node)) (root : Node) :
  child (condBranches split root) =
  child root ++
  match split with
  | [] => []
  | [s0] => [branchTrue s0]
  | s0 :: s1 :: _ => [branchTrue s0; branchFalse s1]
  end.
Proof.
  unfold condBranches.
  destruct split as [|s0 [|s1 rest]].
  - simpl. by rewrite app_nil_r.
  - simpl. by destruct root.
  - replace (0 <? len (s0 :: s1 :: rest)) with true
      by (symmetry; apply Z.ltb_lt; unfold len; simpl; lia).
    replace (1 <? len (s0 :: s1 :: rest)) with true
      by (symmetry; apply Z.ltb_lt; unfold len; simpl; lia).
    destruct root; simpl. by rewrite <- app_assoc.
Qed.

Lemma condBranches_typ (split : list (list Node)) (root : Node) :
  typ (condBranches split root) = typ root.
Proof.
  unfold condBranches.
  destruct (0 <? len split), (1 <? len split); by destruct root.
Qed.

Lemma condNode_child (t hlp : bytes) (a : list modArg) (root : Node) :
  child (condNode isStatic t hlp a root) = child root.
Proof.
  unfold condNode. destruct (parseCondExpr isStatic t) as [[[[l r] sl] sr] op].
  by destruct root.
Qed.

Lemma condBranches_OK (split : list (list Node)) (root : Node) :
  child root = [] -> Forall (fun s => allOK s) split ->
  condOK (condBranches split root) = true.
Proof.
  intros Hr Hs. rewrite condOK_eq, condBranches_child, Hr, app_nil_l.
  destruct split as [|s0 [|s1 rest]].
  - by destruct (bool_decide _).
  - inversion Hs; subst.
    assert (E1 : condOK (branchTrue s0) = true) by (by apply condOK_other).
    cbv beta iota. cbn [forallb]. rewrite E1.
    by destruct (bool_decide (typ _ = TypeCond)).
  - inversion Hs as [|? ? H0 Hs']; subst. inversion Hs'; subst.
    assert (E1 : condOK (branchTrue s0) = true) by (by apply condOK_other).
    assert (E2 : condOK (branchFalse s1) = true) by (by apply condOK_other).
    cbv beta iota. cbn [forallb]. rewrite E1, E2.
    by destruct (bool_decide (typ _ = TypeCond)).
Qed.

Lemma printNode_child (t : bytes) (root : Node) :
  child (printNode isStatic modRegistry t root) = child root.
Proof. unfold printNode. repeat case_match; by destruct root. Qed.

Lemma ctxNode_child (t : bytes) (root : Node) :
  child (ctxNode isStatic t root) = child root.
Proof. unfold ctxNode. repeat case_match; by destruct root. Qed.

Lemma cntrNode_child (t : bytes) (root root' : Node) :
  cntrNode t root = inl root' -> child root' = child root.
Proof.
  unfold cntrNode. repeat case_match; intros [= <-]; by destruct root.
Qed.

Lemma loopNode_typ (t : bytes) (root root' : Node) :
  loopNode isStatic t root = Some root' -> typ root' <> TypeCond.
Proof.
  unfold loopNode. repeat case_match; intros [= <-]; by destruct root.
Qed.

Lemma processCtl_OK rec (p p' : Parser) (ns ns' : list Node)
    (ctl : bytes) (pos o' : Z) (goUp : bool) (e : option error) :
  keepsOK rec -> allOK ns ->
  processCtl isStatic modRegistry rec p ns Node0 ctl pos
  = Some (ns', o', goUp, e, p') ->
  allOK ns'.
Proof.
  intros Hrec Hns. unfold processCtl.
  set (t := Trim ctl ctlTrim).
  repeat (case_match; try (intros [= <- <- <- <- <-]; first
                             [ exact Hns
                             | apply (allOK_snoc ns); [exact Hns|];
                               apply condOK_leaf;
                               first [ apply printNode_child
                                     | apply ctxNode_child
                                     | by erewrite cntrNode_child
                                         by eassumption
                                     | reflexivity ] ])).
  all: (destruct (rec _ _ _ _) as [[[[body off] err] q]|] eqn:Er;
            simpl; [|discriminate]; intros [= <- <- <- <- <-];
            apply (allOK_snoc ns); [exact Hns|];
            pose proof (Hrec _ [] _ _ _ _ _ _ (eq_refl true) Er) as Hsub).
  - apply condBranches_OK; [by rewrite condNode_child|].
    by apply splitNodes_OK.
  - apply condBranches_OK; [by rewrite condNode_child|].
    by apply splitNodes_OK.
  - apply condOK_other.
    + replace (typ (set_child body n)) with (typ n) by (by destruct n).
      by eapply loopNode_typ.
    + by replace (child (set_child body n)) with body by (by destruct n).
  - apply condOK_other;
      cbn [typ child set_child set_switchArg set_typ Node0];
      [discriminate|by apply rollupSwitchNodes_OK].
  - apply condOK_other;
      cbn [typ child set_child set_switchArg set_typ Node0];
      [discriminate|by apply rollupSwitchNodes_OK].
Qed.

Lemma parseLoop_OK (fuel : nat) : forall p ns o i inCtl tg ns' o' e p',
  allOK ns ->
  parseLoop isStatic modRegistry fuel p ns o i inCtl tg
  = Some (ns', o', e, p') ->
  allOK ns'.
Proof.
  induction fuel as [|fuel IH]; intros p ns o i inCtl tg ns' o' e p' Hns;
    [discriminate|].
  cbn [parseLoop].
  destruct (negb (reached tg p) || eqZero tg);
    [|intros [= <- <- <- <-]; exact Hns].
  destruct (IndexAt (tpl p) ctlOpen i <? 0).
  { destruct inCtl; intros [= <- <- <- <-];
      [exact Hns|by apply allOK_addRaw]. }
  destruct inCtl.
  - destruct (IndexAt (tpl p) ctlClose _ <? 0);
      [intros [= <- <- <- <-]; exact Hns|].
    destruct (processCtl _ _ _ _ _ _ _ _) as [[[[[ns1 e1] up1] err1] p1]|]
      eqn:Ep; simpl; [|discriminate].
    assert (Hns1 : allOK ns1).
    { eapply processCtl_OK; [|exact Hns|exact Ep].
      intros q ms off tg0 ms' off' e0 q' Hms. apply IH. exact Hms. }
    destruct err1; [intros [= <- <- <- <-]; exact Hns1|].
    destruct up1; [intros [= <- <- <- <-]; exact Hns1|].
    by apply IH.
  - apply IH. by apply allOK_addRaw.
Qed.

Lemma condNode_typ (t hlp : bytes) (a : list modArg) (root : Node) :
  typ (condNode isStatic t hlp a root) = TypeCond.
Proof.
  unfold condNode. destruct (parseCondExpr isStatic t) as [[[[l r] sl] sr] op].
  by destruct root.
Qed.

Lemma printNode_typ (t : bytes) (root : Node) :
  typ (printNode isStatic modRegistry t root) = TypeTpl.
Proof. unfold printNode. repeat case_match; by destruct root. Qed.

Lemma ctxNode_typ (t : bytes) (root : Node) :
  typ (ctxNode isStatic t root) = TypeCtx.
Proof. unfold ctxNode. repeat case_match; by destruct root. Qed.

Lemma cntrNode_typ (t : bytes) (root root' : Node) :
  cntrNode t root = inl root' -> typ root' = TypeCounter.
Proof.
  unfold cntrNode. repeat case_match; intros [= <-]; by destruct root.
Qed.

Lemma loopNode_typ' (t : bytes) (root root' : Node) :
  loopNode isStatic t root = Some root' ->
  typ root' = TypeLoopRange \/ typ root' = TypeLoopCount.
Proof.
  unfold loopNode. repeat case_match; intros [= <-]; destruct root; auto.
Qed.

(** The same walk for the tie between a condition and its body. *)
Abbreviation allTied l := (Forall condTied l).

Lemma condTied_eq (n : Node) :
  condTied n <->
  (typ n = TypeCond -> exists body, child n = condChildren (parts body []))
  /\ allTied (child n).
Proof.
  destruct n as [ty a1 a2 a3 a4 a5 a6 a7 a8 ch]. cbn [condTied typ child].
  apply and_iff_compat_l.
  induction ch as [|c ch IH]; cbn [fold_right].
  - split; [constructor|done].
  - rewrite IH. split; [intros [? ?]; by constructor|].
    inversion 1; by subst.
Qed.

Lemma condTied_leaf (n : Node) : child n = [] -> condTied n.
Proof.
  intros E. apply condTied_eq. rewrite E. split; [|constructor].
  intros _. by exists [].
Qed.

Lemma condTied_other (n : Node) :
  typ n <> TypeCond -> allTied (child n) -> condTied n.
Proof. intros Ht Hc. apply condTied_eq. by split. Qed.

Lemma condTied_children (n : Node) : condTied n -> allTied (child n).
Proof. intros Hn. by apply condTied_eq in Hn as [_ ?]. Qed.

Lemma allTied_snoc (l : list Node) (n : Node) :
  allTied l -> condTied n -> allTied (addNode l n).
Proof.
  intros Hl Hn. unfold addNode. apply Forall_app. split; [done|].
  by constructor.
Qed.

Lemma allTied_addRaw (l : list Node) (r : bytes) :
  allTied l -> allTied (addRaw l r).
Proof.
  intros Hl. unfold addRaw. destruct r; [done|].
  apply (allTied_snoc l); [done|]. by apply condTied_leaf.
Qed.

Lemma parts_tied (l cur : list Node) :
  allTied l -> allTied cur -> Forall (fun s => allTied s) (parts l cur).
Proof.
  revert cur. induction l as [|n l IH]; intros cur Hl Hc; cbn [parts].
  - destruct cur; [constructor|]. by constructor.
  - inversion Hl; subst. destruct (isDiv n).
    + constructor; [done|]. by apply IH.
    + apply IH; [done|]. apply Forall_app. split; [done|]. by constructor.
Qed.

Lemma rollupLoop_tied (rest r : list Node) (group : Node) :
  allTied rest -> allTied r ->
  typ group <> TypeCond -> allTied (child group) ->
  let '(r', group') := rollupLoop rest r group in
  allTied r' /\ typ group' <> TypeCond /\ allTied (child group').
Proof.
  revert r group. induction rest as [|n rest IH]; intros r group Hrest Hr Hg Hc.
  - simpl. done.
  - inversion Hrest as [|? ? Hn Hrest']; subst. simpl.
    destruct (negb (isCaseOrDefault n) && bool_decide (typ group = TypeNone)).
    + by apply IH.
    + destruct (isCaseOrDefault n) eqn:Hcd.
      * assert (Hnt : typ n <> TypeCond).
        { unfold isCaseOrDefault in Hcd.
          apply orb_prop in Hcd as [Hcd|Hcd];
            apply bool_decide_eq_true_1 in Hcd; congruence. }
        apply IH; [exact Hrest'| |exact Hnt|by apply condTied_children].
        destruct (bool_decide (typ group <> TypeNone)); [|exact Hr].
        apply (allTied_snoc r); [exact Hr|]. by apply condTied_other.
      * apply IH; [exact Hrest'|exact Hr| |].
        -- by destruct group.
        -- replace (child (set_child (child group ++ [n]) group))
             with (child group ++ [n]) by (by destruct group).
           apply Forall_app. split; [done|]. by constructor.
Qed.

Lemma rollupSwitchNodes_tied (l : list Node) :
  allTied l -> allTied (rollupSwitchNodes l).
Proof.
  intros Hl. unfold rollupSwitchNodes. destruct l as [|n l]; [done|].
  pose proof (rollupLoop_tied (n :: l) [] (set_typ TypeNone Node0) Hl
                (List.Forall_nil _) ltac:(discriminate) (List.Forall_nil _))
    as Hr.
  destruct (rollupLoop (n :: l) [] (set_typ TypeNone Node0)) as [r g].
  destruct Hr as (Hr & Hg & Hc).
  destruct (0 <? len (child g)); [|done].
  apply (allTied_snoc r); [done|]. by apply condTied_other.
Qed.

Lemma condChildren_tied (split : list (list Node)) :
  Forall (fun s => allTied s) split -> allTied (condChildren split).
Proof.
  intros Hs. destruct split as [|s0 [|s1 rest]]; cbn [condChildren].
  - constructor.
  - inversion Hs; subst. constructor; [|constructor].
    by apply condTied_other.
  - inversion Hs as [|? ? H0 Hs']; subst. inversion Hs'; subst.
    constructor; [by apply condTied_other|].
    constructor; [by apply condTied_other|constructor].
Qed.

(** The node built for a condition from the nodes of its body. *)
Lemma cond_of_body (t hlp : bytes) (a : list modArg) (body : list Node) :
  let n := condBranches (splitNodes body)
                        (condNode isStatic t hlp a Node0) in
  typ n = TypeCond /\ child n = condChildren (parts body []).
Proof.
  cbv zeta. rewrite condBranches_typ, condNode_typ, condBranches_child,
    condNode_child, splitNodes_parts. by split.
Qed.

Lemma cond_of_body_tied (t hlp : bytes) (a : list modArg)
    (body : list Node) :
  allTied body ->
  condTied (condBranches (splitNodes body)
                         (condNode isStatic t hlp a Node0)).
Proof.
  intros Hb. destruct (cond_of_body t hlp a body) as [Ht Hc].
  apply condTied_eq. rewrite Hc. split; [by exists body|].
  apply condChildren_tied, parts_tied; [done|constructor].
Qed.

(** A nested parse that keeps the tie. *)
Lemma processCtl_tied nested (p p' : Parser) (ns ns' : list Node)
    (ctl : bytes) (pos o' : Z) (goUp : bool) (e : option error) :
  (forall q ms off tg ms' off' e0 q',
     nested q ms off tg = Some (ms', off', e0, q') ->
     allTied ms -> allTied ms') ->
  allTied ns ->
  processCtl isStatic modRegistry nested p ns Node0 ctl pos
  = Some (ns', o', goUp, e, p') ->
  allTied ns'.
Proof.
  intros Hrec Hns. unfold processCtl.
  set (t := Trim ctl ctlTrim).
  repeat (case_match; try (intros [= <- <- <- <- <-]; first
                             [ exact Hns
                             | apply (allTied_snoc ns); [exact Hns|];
                               apply condTied_leaf;
                               first [ apply printNode_child
                                     | apply ctxNode_child
                                     | by erewrite cntrNode_child
                                         by eassumption
                                     | reflexivity ] ])).
  all: (destruct (nested _ _ _ _) as [[[[body off] err] q]|] eqn:Er;
            simpl; [|discriminate]; intros [= <- <- <- <- <-];
            apply (allTied_snoc ns); [exact Hns|];
            pose proof (Hrec _ _ _ _ _ _ _ _ Er (List.Forall_nil _)) as Hsub).
  - by apply cond_of_body_tied.
  - by apply cond_of_body_tied.
  - apply condTied_other.
    + replace (typ (set_child body n)) with (typ n) by (by destruct n).
      by eapply loopNode_typ.
    + by replace (child (set_child body n)) with body by (by destruct n).
  - apply condTied_other;
      cbn [typ child set_child set_switchArg set_typ Node0];
      [discriminate|by apply rollupSwitchNodes_tied].
  - apply condTied_other;
      cbn [typ child set_child set_switchArg set_typ Node0];
      [discriminate|by apply rollupSwitchNodes_tied].
Qed.

Lemma parseLoop_tied (fuel : nat) : forall p ns o i inCtl tg ns' o' e p',
  parseLoop isStatic modRegistry fuel p ns o i inCtl tg
  = Some (ns', o', e, p') ->
  allTied ns -> allTied ns'.
Proof.
  induction fuel as [|fuel IH]; intros p ns o i inCtl tg ns' o' e p';
    [discriminate|].
  cbn [parseLoop]. intros HP Hns. revert HP.
  destruct (negb (reached tg p) || eqZero tg);
    [|intros [= <- <- <- <-]; exact Hns].
  destruct (IndexAt (tpl p) ctlOpen i <? 0).
  { destruct inCtl; intros [= <- <- <- <-];
      [exact Hns|by apply allTied_addRaw]. }
  destruct inCtl.
  - destruct (IndexAt (tpl p) ctlClose _ <? 0);
      [intros [= <- <- <- <-]; exact Hns|].
    destruct (processCtl _ _ _ _ _ _ _ _) as [[[[[ns1 e1] up1] err1] p1]|]
      eqn:Ep; simpl; [|discriminate].
    assert (Hns1 : allTied ns1).
    { eapply processCtl_tied; [|exact Hns|exact Ep].
      intros q ms off tg0 ms' off' e0 q' Hms Hm.
      exact (IH _ _ _ _ _ _ _ _ _ _ Hms Hm). }
    destruct err1; [intros [= <- <- <- <-]; exact Hns1|].
    destruct up1; [intros [= <- <- <- <-]; exact Hns1|].
    intros HP. exact (IH _ _ _ _ _ _ _ _ _ _ HP Hns1).
  - intros HP. exact (IH _ _ _ _ _ _ _ _ _ _ HP (allTied_addRaw _ _ Hns)).
Qed.

(** One tag: the list of nodes grows by at most one node, and a Cond
    node among them is built from what the nested parse returned, whose
    error and offset are the ones of the tag. *)
Lemma processCtl_cond nested (p p' : Parser) (ns ns' : list Node)
    (ctl : bytes) (pos o' : Z) (goUp : bool) (e : option error) :
  processCtl isStatic modRegistry nested p ns Node0 ctl pos
  = Some (ns', o', goUp, e, p') ->
  ns' = ns
  \/ exists n,
       ns' = ns ++ [n]
       /\ (typ n = TypeCond ->
           exists body q tg,
             nested q [] (pos + len ctl) tg = Some (body, o', e, p')
             /\ goUp = false
             /\ child n = condChildren (parts body [])).
Proof.
  unfold processCtl.
  set (t := Trim ctl ctlTrim).
  repeat (case_match; try (intros [= <- <- <- <- <-]; first
                             [ by left
                             | right; eexists; split; [reflexivity|];
                               first [ by rewrite printNode_typ
                                     | by rewrite ctxNode_typ
                                     | by erewrite cntrNode_typ
                                         by eassumption
                                     | discriminate ] ])).
  all: (destruct (nested _ _ _ _) as [[[[body off] err] q]|] eqn:Er;
            simpl; [|discriminate]; intros [= <- <- <- <- <-];
            right; eexists; split; [reflexivity|]).
  - intros _. do 3 eexists. split; [exact Er|]. split; [done|].
    apply cond_of_body.
  - intros _. do 3 eexists. split; [exact Er|]. split; [done|].
    apply cond_of_body.
  - replace (typ (set_child body n)) with (typ n) by (by destruct n).
    match goal with
    | Hl : loopNode _ _ _ = Some _ |- _ =>
        destruct (loopNode_typ' _ _ _ Hl) as [-> | ->]
    end; discriminate.
  - discriminate.
  - discriminate.
Qed.
End CondShape.

(** C4, as the code has it.  The nodes of the body of a condition are
    cut at its dividers; the first part becomes the true branch, the
    second the false branch, each in a branch node of its own, and the
    parts after a second divider are kept nowhere.  So every Cond node
    of a parsed tree, at any depth, has the children of some body cut
    this way, at most two; and a tag that adds a Cond node gives it the
    children of the body that the nested parse returned, with the offset
    and the error of that parse and no error of its own. *)
Theorem cond_children_from_split (isStatic : bytes -> bool)
    (modRegistry : gmap string ModFn) (src : bytes) (keep : bool)
    (tree : Tree) (err : option error) :
  Parse isStatic modRegistry src keep = Some (tree, err) ->
  Forall (fun n => condOK n = true) (nodes tree)
  /\ (forall split root,
        child (condBranches split root) =
        child root ++
        match split with
        | [] => []
        | [s0] => [branchTrue s0]
        | s0 :: s1 :: _ => [branchTrue s0; branchFalse s1]
        end)
  /\ Forall condTied (nodes tree)
  /\ (forall body, splitNodes body = parts body [])
  /\ (forall nested p p' ns ns' ctl pos o' goUp e,
        processCtl isStatic modRegistry nested p ns Node0 ctl pos
        = Some (ns', o', goUp, e, p') ->
        ns' = ns
        \/ exists n,
             ns' = ns ++ [n]
             /\ (typ n = TypeCond ->
                 exists body q tg,
                   nested q [] (pos + len ctl) tg = Some (body, o', e, p')
                   /\ goUp = false
                   /\ child n = condChildren (parts body []))).
Proof.
  intros HP. split; [|split; [apply condBranches_child|split; [|split]]].
  - apply allOK_Forall. unfold Parse, parseTpl in HP.
    destruct (parseLoop _ _ _ _ _ _ _ _ _) as [[[[ns o] e] p]|] eqn:E;
      simpl in HP; [|discriminate].
    injection HP as <- <-. simpl.
    by eapply parseLoop_OK; [|exact E].
  - unfold Parse, parseTpl in HP.
    destruct (parseLoop _ _ _ _ _ _ _ _ _) as [[[[ns o] e] p]|] eqn:E;
      simpl in HP; [|discriminate].
    injection HP as <- <-. simpl.
    eapply parseLoop_tied; [exact E|constructor].
  - apply splitNodes_parts.
  - intros nested p p' ns ns' ctl pos o' goUp e.
    apply processCtl_cond.
Qed.

Lemma cond_children_from_split_witness :
  exists tree err,
    Demo.parse "{% if a == 1 %}A{% else %}B{% endif %}" = Some (tree, err)
    /\ Forall (fun n => condOK n = true) (nodes tree)
    /\ Forall condTied (nodes tree).
Proof.
  destruct (Demo.parse "{% if a == 1 %}A{% else %}B{% endif %}")
    as [[tree err]|] eqn:E; [|vm_compute in E; discriminate].
  exists tree, err. split; [reflexivity|].
  destruct (cond_children_from_split Demo.isStatic ∅ _ false tree err E)
    as (H1 & _ & H3 & _).
  by split.
Defined.

(** C4, as stated, fails on a body with two dividers: the template
    parses without error, the Cond node keeps the first two parts and
    the third is gone. *)
Lemma second_else_is_no_error :
  exists tree,
    Demo.parse "{% if a == 1 %}A{% else %}B{% else %}C{% endif %}"
    = Some (tree, None)
    /\ nodes tree =
       [set_child [branchTrue [rawNode (B "A")];
                   branchFalse [rawNode (B "B")]]
          (set_cond (mkCond (B "a") (B "1") false true [] OpEq [] [])
                    (set_typ TypeCond Node0))].
Proof. eexists. vm_compute. split; reflexivity. Qed.

(** * Further properties *)

(** X1: the parser terminates on every input: [Parse] returns a tree and
    an error slot for whatever source and option it is given. *)
Theorem Parse_total (isStatic : bytes -> bool)
    (modRegistry : gmap string ModFn) (src : bytes) (keep : bool) :
  exists tree err, Parse isStatic modRegistry src keep = Some (tree, err).
Proof.
  unfold Parse, parseTpl, parseFuel.
  set (p := cutFmt (cutComments (mkParser keep src 0 0 0))).
  destruct (parseLoop_lands isStatic modRegistry (S (S (length (tpl p))))
              p [] 0 false (newTarget p))
    as (ns & o & e & q & -> & _); [unfold len; lia|discriminate| |].
  - unfold len. lia.
  - simpl. by exists (mkTree ns), e.
Qed.

(** X2: [splitNodes] cuts a body at its dividers and loses nothing else:
    the parts, put end to end, are the body without its dividers, in
    order, and no part holds a divider.  A body that starts with a
    divider has an empty first part; a body without dividers is one part,
    and the empty body has none. *)
Theorem splitNodes_keeps_body (l : list Node) :
  concat (splitNodes l) = List.filter (fun n => negb (isDiv n)) l
  /\ Forall (fun s => forallb (fun n => negb (isDiv n)) s = true)
            (splitNodes l)
  /\ (forall d, isDiv d = true -> splitNodes (d :: l) = [] :: splitNodes l)
  /\ (forallb (fun n => negb (isDiv n)) l = true ->
      splitNodes l = match l with [] => [] | _ => [l] end).
Proof.
  rewrite !splitNodes_parts. repeat split.
  - apply (parts_concat l []).
  - by apply parts_no_div.
  - intros d Hd. rewrite splitNodes_parts. simpl. by rewrite Hd.
  - intros Hl. by rewrite parts_plain.
Qed.

Lemma splitNodes_keeps_body_witness :
  splitNodes [rawNode (B "T"); set_typ TypeDiv Node0; rawNode (B "F")]
  = [[rawNode (B "T")]; [rawNode (B "F")]]
  /\ splitNodes [rawNode (B "T")] = [[rawNode (B "T")]].
Proof.
  split; [vm_compute; reflexivity|].
  apply (splitNodes_keeps_body [rawNode (B "T")]). reflexivity.
Defined.

Section RollupFacts.

Lemma headOf_bare (n : Node) : child n = [] -> headOf n = n.
Proof. destruct n; simpl. intros ->. reflexivity. Qed.

Lemma rollupLoop_app (a b r : list Node) (g : Node) :
  rollupLoop (a ++ b) r g =
  let '(r1, g1) := rollupLoop a r g in rollupLoop b r1 g1.
Proof.
  revert r g. induction a as [|n a IH]; intros r g; [reflexivity|].
  simpl. destruct (negb _ && _); [apply IH|].
  destruct (isCaseOrDefault n); apply IH.
Qed.

Lemma rollupLoop_skip (pre rest r : list Node) (g : Node) :
  typ g = TypeNone ->
  forallb (fun n => negb (isCaseOrDefault n)) pre = true ->
  rollupLoop (pre ++ rest) r g = rollupLoop rest r g.
Proof.
  intros Hg. induction pre as [|n pre IH]; intros Hp; [reflexivity|].
  simpl in *. apply andb_prop in Hp as [Hn Hp].
  rewrite Hn, (bool_decide_eq_true_2 _ Hg). simpl. by apply IH.
Qed.

(** With a group open, the loop only files the nodes it walks over. *)
Lemma rollupLoop_flat (rest r : list Node) (g : Node) :
  typ g <> TypeNone ->
  forallb bareHead rest = true ->
  let '(r', g') := rollupLoop rest r g in
  concat (map flatten r') ++ flatten g'
  = (concat (map flatten r) ++ flatten g) ++ rest
  /\ map headOf r' ++ [headOf g']
     = (map headOf r ++ [headOf g]) ++ List.filter isCaseOrDefault rest
  /\ typ g' <> TypeNone
  /\ (forallb isCaseOrDefault r = true -> isCaseOrDefault g = true ->
      forallb isCaseOrDefault r' = true /\ isCaseOrDefault g' = true).
Proof.
  revert r g. induction rest as [|n rest IH]; intros r g Hg Hb.
  - simpl. rewrite !app_nil_r. done.
  - simpl in Hb. apply andb_prop in Hb as [Hn Hb]. simpl.
    rewrite (bool_decide_eq_false_2 _ Hg), andb_false_r.
    unfold bareHead in Hn.
    destruct (isCaseOrDefault n) eqn:Hcd.
    + apply bool_decide_eq_true_1 in Hn.
      rewrite (bool_decide_eq_true_2 _ Hg).
      assert (Hnt : typ n <> TypeNone).
      { unfold isCaseOrDefault in Hcd.
        apply orb_prop in Hcd as [E|E]; apply bool_decide_eq_true_1 in E;
          congruence. }
      specialize (IH (r ++ [g]) n Hnt Hb).
      destruct (rollupLoop rest (r ++ [g]) n) as [r' g'].
      destruct IH as (E1 & E2 & E3 & E4). cbv beta iota.
      assert (Hfn : flatten n = [n])
        by (unfold flatten; by rewrite (headOf_bare n Hn), Hn).
      rewrite Hfn, (headOf_bare n Hn) in *.
      split; [|split; [|split]].
      * rewrite E1, map_app, concat_app. simpl.
        rewrite app_nil_r, <- !app_assoc. reflexivity.
      * rewrite E2, map_app. simpl. rewrite <- !app_assoc. reflexivity.
      * exact E3.
      * intros Hr Hgc. apply E4; [|done].
        rewrite forallb_app, Hr. simpl. by rewrite Hgc.
    + specialize (IH r (set_child (child g ++ [n]) g)
                     ltac:(by destruct g) Hb).
      destruct (rollupLoop rest r _) as [r' g'].
      destruct IH as (E1 & E2 & E3 & E4). cbv beta iota.
      rewrite E1, E2.
      assert (Hf : flatten (set_child (child g ++ [n]) g) = flatten g ++ [n])
        by (by destruct g).
      assert (Hh : headOf (set_child (child g ++ [n]) g) = headOf g)
        by (by destruct g).
      rewrite Hf, Hh in *.
      split; [|split; [|split]].
      * rewrite <- !app_assoc. reflexivity.
      * reflexivity.
      * exact E3.
      * intros Hr Hgc. apply E4; [done|]. by destruct g.
Qed.

Lemma rollupLoop_last (rest r : list Node) (g n : Node) :
  typ g <> TypeNone -> isCaseOrDefault n = false ->
  child (rollupLoop (rest ++ [n]) r g).2 <> [].
Proof.
  intros Hg Hn. rewrite rollupLoop_app.
  pose proof (rollupLoop_flat rest r g Hg) as H.
  destruct (rollupLoop rest r g) as [r1 g1] eqn:E.
  assert (Hg1 : typ g1 <> TypeNone).
  { clear H. revert r g Hg E. induction rest as [|m rest IH]; intros r g Hg.
    - simpl. by intros [= <- <-].
    - simpl. rewrite (bool_decide_eq_false_2 _ Hg), andb_false_r.
      destruct (isCaseOrDefault m) eqn:Hcd.
      + apply IH. unfold isCaseOrDefault in Hcd.
        apply orb_prop in Hcd as [E|E]; apply bool_decide_eq_true_1 in E;
          congruence.
      + apply IH. by destruct g. }
  simpl. rewrite (bool_decide_eq_false_2 _ Hg1), andb_false_r, Hn.
  destruct g1 as [? ? ? ? ? ? ? ? ? ch]; simpl. by destruct ch.
Qed.
End RollupFacts.

(** X3: what [rollupSwitchNodes] keeps.  Every node of the result is a
    Case or a Default; the nodes before the first of them are dropped; and
    for a body that starts with a Case or Default, whose Cases and Defaults
    have no children yet and whose last node is none of them, the groups
    laid flat again are the body, and their heads are its Cases and
    Defaults, one group each, in order. *)
Theorem rollup_groups_body (pre body : list Node) (h last_ : Node) :
  forallb (fun n => negb (isCaseOrDefault n)) pre = true ->
  isCaseOrDefault h = true ->
  isCaseOrDefault last_ = false ->
  forallb bareHead (h :: body) = true ->
  let l := h :: body ++ [last_] in
  rollupSwitchNodes (pre ++ l) = rollupSwitchNodes l
  /\ forallb isCaseOrDefault (rollupSwitchNodes l) = true
  /\ concat (map flatten (rollupSwitchNodes l)) = l
  /\ map headOf (rollupSwitchNodes l) = List.filter isCaseOrDefault l.
Proof.
  intros Hpre Hh Hlast Hb l.
  assert (Hht : typ h <> TypeNone).
  { unfold isCaseOrDefault in Hh.
    apply orb_prop in Hh as [E|E]; apply bool_decide_eq_true_1 in E;
      congruence. }
  assert (Hhb : child h = []).
  { simpl in Hb. apply andb_prop in Hb as [Hb _]. unfold bareHead in Hb.
    rewrite Hh in Hb. by apply bool_decide_eq_true_1 in Hb. }
  assert (Hstep : forall r,
            rollupLoop l r (set_typ TypeNone Node0)
            = rollupLoop (body ++ [last_]) r h).
  { intros r. unfold l. simpl. by rewrite Hh. }
  assert (Hl : rollupSwitchNodes l
               = let '(r, g) := rollupLoop (body ++ [last_]) [] h in r ++ [g]).
  { unfold rollupSwitchNodes. unfold l at 1. rewrite Hstep.
    pose proof (rollupLoop_last body [] h last_ Hht Hlast) as Hne.
    destruct (rollupLoop (body ++ [last_]) [] h) as [r g]. simpl in Hne.
    destruct (child g) eqn:Ec; [done|]. reflexivity. }
  split.
  { unfold rollupSwitchNodes at 1.
    destruct (pre ++ l) eqn:Epl; [by destruct pre|]. rewrite <- Epl.
    rewrite rollupLoop_skip by done.
    unfold rollupSwitchNodes, l. reflexivity. }
  rewrite Hl.
  pose proof (rollupLoop_flat (body ++ [last_]) [] h Hht) as H.
  destruct (rollupLoop (body ++ [last_]) [] h) as [r g].
  destruct H as (E1 & E2 & _ & E4).
  { simpl in Hb. apply andb_prop in Hb as [_ Hb].
    rewrite forallb_app, Hb. simpl. unfold bareHead. by rewrite Hlast. }
  destruct (E4 eq_refl Hh) as [Hr Hg].
  repeat split.
  - rewrite forallb_app, Hr. simpl. by rewrite Hg.
  - rewrite map_app, concat_app.
    change (concat (map flatten [g])) with (flatten g ++ []).
    rewrite app_nil_r, E1.
    simpl. unfold flatten. by rewrite (headOf_bare h Hhb), Hhb.
  - rewrite map_app. change (map headOf [g]) with [headOf g].
    rewrite E2. simpl.
    unfold l. simpl. by rewrite Hh, (headOf_bare h Hhb).
Qed.

Lemma rollup_groups_body_witness :
  let case1 := set_case (mkCase (B "1") [] true false [] [] OpUnk)
                        (set_typ TypeCase Node0) in
  let default := set_typ TypeDefault Node0 in
  concat (map flatten
            (rollupSwitchNodes
               [case1; rawNode (B "A"); default; rawNode (B "D")]))
  = [case1; rawNode (B "A"); default; rawNode (B "D")].
Proof.
  intros case1 default.
  apply (rollup_groups_body [] [rawNode (B "A"); default] case1
                            (rawNode (B "D")));
    reflexivity.
Defined.

Lemma bytes_eqb_eq (a b : bytes) : bytes_eqb a b = true <-> a = b.
Proof.
  revert b. induction a as [|x a IH]; intros [|y b]; simpl;
    try (split; [discriminate|discriminate]); [done|].
  rewrite andb_true_iff, IH. split.
  - intros [Hx ->]. apply byte_dec_bl in Hx. by subst.
  - intros [= -> ->]. split; [by apply byte_dec_lb|done].
Qed.

(** X4: swapping an operator twice gives it back, and the operators the
    swap leaves alone are exactly those that are no order comparison. *)
Theorem Swap_involutive (o : Op) :
  Swap (Swap o) = o
  /\ (Swap o = o <-> o <> OpGt /\ o <> OpGtq /\ o <> OpLt /\ o <> OpLtq).
Proof.
  destruct o; simpl; (split; [reflexivity|]); split;
    try discriminate; try (intros (? & ? & ? & ?); congruence);
    intros _; repeat split; discriminate.
Qed.

(** X5: [parseOp] reads back what [Op.String] prints, for every operator,
    and a text it takes for an operator is that operator's text: any
    other text is the unknown operator. *)
Theorem parseOp_String (o : Op) (b : bytes) :
  parseOp (B (OpString o)) = o
  /\ (parseOp b <> OpUnk -> B (OpString (parseOp b)) = b).
Proof.
  split; [by destruct o|].
  unfold parseOp.
  repeat match goal with
    | |- (if bytes_eqb b ?x then _ else _) <> _ -> _ =>
        let E := fresh "E" in
        destruct (bytes_eqb b x) eqn:E;
        [apply bytes_eqb_eq in E; rewrite E; intros _; reflexivity|]
    end.
  intros Hn. by destruct Hn.
Qed.

Lemma parseOp_String_witness :
  B (OpString (parseOp (B ">="))) = B ">=".
Proof.
  apply (parseOp_String OpUnk (B ">=")). discriminate.
Defined.

Section PlainParse.
Variable isStatic : bytes -> bool.
Variable modRegistry : gmap string ModFn.

End PlainParse.

Section PlainText.
Context `{Host}.

End PlainText.



(** X7: a template that is not registered cannot be rendered, and a
    registration replaces the tree an earlier one left under the same
    name, other names keeping theirs. *)
Theorem RenderTo_registry `{Host} (reg : gmap string Tree)
    (id_ other : string) (t1 t2 : Tree) (st : State) :
  (reg !! id_ = None ->
   RenderTo reg id_ st = Some (Some ErrTplNotFound, [], st))
  /\ RenderTo (RegisterTpl id_ t2 (RegisterTpl id_ t1 reg)) id_ st
     = renderTop (nodes t2) st
  /\ (other <> id_ ->
      RenderTo (RegisterTpl id_ t2 reg) other st = RenderTo reg other st).
Proof.
  unfold RenderTo, RegisterTpl. repeat split.
  - by intros ->.
  - by rewrite lookup_insert_eq.
  - intros Hne. by rewrite lookup_insert_ne.
Qed.

Lemma RenderTo_registry_witness :
  @RenderTo Buffer Demo.host ∅ "missing" ([], Demo.ctxOf [])
  = Some (Some ErrTplNotFound, [], ([], Demo.ctxOf [])).
Proof.
  apply (@RenderTo_registry Buffer Demo.host ∅ "missing" "x"
           (mkTree []) (mkTree []) ([], Demo.ctxOf [])).
  reflexivity.
Defined.

Section SeqFacts.
Context `{Host}.

Lemma renderNode_exit (x : Node) (st : State) :
  typ x = TypeExit -> renderNode x st = Some (Some ErrInterrupt, [], st).
Proof. intros Hx. rewrite renderNode_eq, Hx. reflexivity. Qed.

Lemma iterChildren_skip_exit (pre post : list Node) (x : Node) (st : State) :
  typ x = TypeExit ->
  iterChildren (map renderNode (pre ++ x :: post)) st
  = iterChildren (map renderNode (pre ++ post)) st.
Proof.
  intros Hx. revert st. induction pre as [|n pre IH]; intros st.
  - cbn [app map].
    rewrite (iterChildren_other _ _ st st (Some ErrInterrupt) []);
      [apply after_nil|by apply renderNode_exit|discriminate|discriminate].
  - cbn [app map iterChildren].
    destruct (renderNode n st) as [[[e o] c]|]; [|reflexivity].
    cbn [mbind option_bind]. by rewrite IH.
Qed.

(** A sequence of nodes with an Exit node in it ends there. *)
Lemma renderSeq_exit (a b : list Node) (x : Node) (st : State) :
  typ x = TypeExit ->
  renderSeq (map renderNode (a ++ x :: b)) st =
  match renderSeq (map renderNode a) st with
  | Some (None, o, c) => Some (Some ErrInterrupt, o, c)
  | r => r
  end.
Proof.
  intros Hx. rewrite map_app, renderSeq_app.
  destruct (renderSeq (map renderNode a) st) as [[[e o] c]|]; [|reflexivity].
  destruct e; [reflexivity|].
  cbn [map renderSeq]. rewrite renderNode_exit by done.
  cbn [mbind option_bind after]. by rewrite app_nil_r.
Qed.
End SeqFacts.



(** X9: an Exit node among the top-level nodes ends the template there:
    what follows it is not rendered, and the render returns what the
    nodes before it give. *)
Theorem exit_truncates `{Host} (a b : list Node) (x : Node) (st : State) :
  typ x = TypeExit ->
  renderTop (a ++ x :: b) st = renderTop a st.
Proof.
  intros Hx. revert st. induction a as [|n a IH]; intros st.
  - cbn [app renderTop]. rewrite renderNode_exit by done. reflexivity.
  - cbn [app renderTop].
    destruct (renderNode n st) as [[[e o] c]|]; [|reflexivity].
    cbn [mbind option_bind]. destruct e; [reflexivity|]. by rewrite IH.
Qed.

Lemma exit_truncates_witness :
  @renderTop Buffer Demo.host
    ([rawNode (B "a")] ++ set_typ TypeExit Node0 :: [rawNode (B "b")])
    ([], Demo.ctxOf [])
  = Some (None, B "a", (B "a", Demo.ctxOf [])).
Proof.
  refine (eq_trans (@exit_truncates Buffer Demo.host [rawNode (B "a")]
                      [rawNode (B "b")] (set_typ TypeExit Node0)
                      ([], Demo.ctxOf []) eq_refl) _).
  vm_compute. reflexivity.
Defined.

(** X10: an Exit node does not end a range loop.  As a direct child of
    the loop node it has no effect: a pass of [Iterate] over the body
    with the Exit node gives the signal, the counter, the output and the
    state of the pass over the body without it.  Nested in a branch node
    it cuts the rest of that branch, which returns the exit signal; and
    a pass goes on with the next child after any child that returned an
    error other than the two loop signals, the exit signal included. *)
Theorem Iterate_ignores_exit `{Host} (node x : Node)
    (pre post : list Node) (n : Z) (st : State) :
  typ x = TypeExit ->
  passOf (Iterate (mkRangeLoop n (set_child (pre ++ x :: post) node)) st)
  = passOf (Iterate (mkRangeLoop n (set_child (pre ++ post) node)) st)
  /\ (forall br a b s,
        typ br = TypeCondTrue \/ typ br = TypeCondFalse
        \/ typ br = TypeCase \/ typ br = TypeDefault ->
        renderNode (set_child (a ++ x :: b) br) s =
        match renderNode (set_child a br) s with
        | Some (None, o, c) => Some (Some ErrInterrupt, o, c)
        | r => r
        end)
  /\ (forall before c rest s s1 s2 e o1 o2,
        iterChildren (map renderNode before) s = Some (LoopCtlNone, o1, s1) ->
        renderNode c s1 = Some (e, o2, s2) ->
        e <> Some ErrBreakLoop -> e <> Some ErrContLoop ->
        iterChildren (map renderNode (before ++ c :: rest)) s
        = after (o1 ++ o2) (iterChildren (map renderNode rest) s2)).
Proof.
  intros Hx. split; [|split].
  - destruct st as [w ctx]. unfold Iterate, IterateWith.
    cbn [rl_node rl_cntr]. rewrite !child_set_child.
    rewrite iterChildren_skip_exit by done.
    replace (loop (set_child (pre ++ x :: post) node))
      with (loop (set_child (pre ++ post) node)) by (by destruct node).
    destruct (iterChildren _ _) as [[[ctl o] c]|]; reflexivity.
  - intros br a b s Hbr. rewrite !renderNode_branch by done.
    by apply renderSeq_exit.
  - intros before c rest s s1 s2 e o1 o2 Hb Hc Hnb Hnc.
    rewrite map_app, (iterChildren_app _ _ _ _ _ Hb). cbn [map].
    rewrite (iterChildren_other _ _ _ _ _ _ Hc Hnb Hnc).
    apply after_after.
Qed.

Lemma Iterate_ignores_exit_witness :
  passOf (@Iterate Buffer Demo.host
            (mkRangeLoop 0
               (set_child ([rawNode (B "a")]
                           ++ set_typ TypeExit Node0 :: [rawNode (B "b")])
                          (set_typ TypeLoopRange Node0)))
            ([], Demo.ctxOf []))
  = Some (LoopCtlNone, 1, B "ab", (B "ab", Demo.ctxOf []))
  /\ @renderNode Buffer Demo.host
       (set_child ([rawNode (B "b")]
                   ++ set_typ TypeExit Node0 :: [rawNode (B "x")])
                  (set_typ TypeCondTrue Node0))
       ([], Demo.ctxOf [])
     = Some (Some ErrInterrupt, B "b", (B "b", Demo.ctxOf [])).
Proof.
  destruct (@Iterate_ignores_exit Buffer Demo.host
              (set_typ TypeLoopRange Node0) (set_typ TypeExit Node0)
              [rawNode (B "a")] [rawNode (B "b")] 0 ([], Demo.ctxOf [])
              eq_refl) as (E1 & E2 & _).
  split.
  - refine (eq_trans E1 _). vm_compute. reflexivity.
  - refine (eq_trans (E2 (set_typ TypeCondTrue Node0) [rawNode (B "b")]
                         [rawNode (B "x")] ([], Demo.ctxOf [])
                         ltac:(left; reflexivity)) _).
    vm_compute. reflexivity.
Defined.

Section PrintMods.
Context `{Host}.

Lemma runMods_app (a b : list Mod) (v : iface) (ctx : Ctx) :
  Err ctx = None ->
  runMods (a ++ b) v ctx =
  '(v1, c1) ← runMods a v ctx;
  match Err c1 with
  | Some _ => Some (v1, c1)
  | None => runMods b v1 c1
  end.
Proof.
  revert v ctx. induction a as [|m a IH]; intros v ctx Hc.
  - cbn [app runMods mbind option_bind]. by rewrite Hc.
  - cbn [app runMods]. destruct (mod_fn m) as [f|]; [|reflexivity].
    cbn [mbind option_bind].
    destruct (f _ _ _) as [e c]. destruct e as [e|].
    + reflexivity.
    + by apply IH.
Qed.

(** One modifier applied to [v]: the context it is called on. *)
Lemma runMods_one (m : Mod) (ms : list Mod) (f : ModFn) (v : iface)
    (ctx c : Ctx) (e : option error) :
  mod_fn m = Some f ->
  let cin := setBuf v (modArgs (mod_arg m) (setModA [] ctx)) in
  f cin v (modA cin) = (e, c) ->
  runMods (m :: ms) v ctx =
  match e with
  | Some _ => Some (v, setErr e c)
  | None => runMods ms (buf c) (setErr None c)
  end.
Proof.
  intros Hf cin Hr. cbn [runMods]. rewrite Hf. cbn [mbind option_bind].
  change (buf (setBuf v (modArgs (mod_arg m) (setModA [] ctx)))) with v.
  fold cin. rewrite Hr. destruct e; reflexivity.
Qed.

(** The print node whose modifier chain reaches a modifier that fails. *)
Lemma renderNode_mod_fails (node : Node) (w : Sink) (ctx c1 c2 c3 : Ctx)
    (v v' : iface) (pre post : list Mod) (m : Mod) (f : ModFn)
    (e : error) :
  typ node = TypeTpl ->
  tplOperand node ctx = (v, c1) -> Err c1 = None ->
  mods node = pre ++ m :: post ->
  runMods pre v c1 = Some (v', c2) -> Err c2 = None ->
  mod_fn m = Some f ->
  (let cin := setBuf v' (modArgs (mod_arg m) (setModA [] c2)) in
   f cin v' (modA cin) = (Some e, c3)) ->
  renderNode node (w, ctx) = Some (None, [], (w, setErr (Some e) c3)).
Proof.
  intros Ht Hop Hc1 Hm Hpre Hc2 Hf Hr.
  rewrite renderNode_eq, Ht. cbv beta iota zeta. unfold renderTpl.
  rewrite Hop, Hc1, Hm, runMods_app, Hpre by done.
  cbn [mbind option_bind]. rewrite Hc2.
  rewrite (runMods_one m post f v' c2 c3 (Some e) Hf Hr).
  reflexivity.
Qed.

(** The three writes of a print node, one by one. *)
Lemma tplWrites_steps (node : Node) (bb : bytes) (w : Sink) (c : Ctx) :
  (let '(w', err) := tplWrites node bb w in
   Some (err, tplOutput node bb, (w', c)))
  = (let pre := prefix (prn node) in
     let suf := suffix (prn node) in
     let w1 := if 0 <? len pre then (Write w pre).1 else w in
     let '(w2, err) := Write w1 bb in
     let w3 := if 0 <? len suf then (Write w2 suf).1 else w2 in
     Some (err, pre ++ bb ++ suf, (w3, c))).
Proof.
  unfold tplWrites, writeQuiet. cbv zeta. rewrite tplOutput_eq.
  by destruct (Write _ bb).
Qed.

Lemma print_one_mod (node : Node) (w : Sink) (ctx c1 c3 : Ctx) (v : iface)
    (m : Mod) (f : ModFn) (bb : bytes) :
  typ node = TypeTpl ->
  tplOperand node ctx = (v, c1) -> Err c1 = None ->
  mods node = [m] -> mod_fn m = Some f ->
  (let cin := setBuf v (modArgs (mod_arg m) (setModA [] c1)) in
   f cin v (modA cin) = (None, c3)) ->
  isNilOrEmptyString (buf c3) = false ->
  AnyToBytes (bbuf c3) (buf c3) = (bb, None) ->
  renderNode node (w, ctx)
  = (let pre := prefix (prn node) in
     let suf := suffix (prn node) in
     let w1 := if 0 <? len pre then (Write w pre).1 else w in
     let '(w2, err) := Write w1 bb in
     let w3 := if 0 <? len suf then (Write w2 suf).1 else w2 in
     Some (err, pre ++ bb ++ suf, (w3, setBbuf bb (setErr None c3)))).
Proof.
  intros Ht Hop Hc1 Hm Hf Hr Hne Hb.
  rewrite <- tplWrites_steps.
  rewrite renderNode_eq, Ht. cbv beta iota zeta. unfold renderTpl.
  rewrite Hop, Hc1, Hm.
  rewrite (runMods_one m [] f v c1 c3 None Hf Hr).
  cbn [runMods mbind option_bind Err setErr]. rewrite Hne.
  change (bbuf (setErr None c3)) with (bbuf c3). by rewrite Hb.
Qed.

(** The arguments a modifier is called with when all are static. *)
Lemma modArgs_static (args : list modArg) (ctx : Ctx) :
  forallb arg_static args = true ->
  modArgs args ctx
  = setModA (modA ctx ++ map (fun a => IPtrBytes (arg_val a)) args) ctx.
Proof.
  revert ctx. induction args as [|a args IH]; intros ctx Hs.
  - cbn [modArgs map]. rewrite app_nil_r. by destruct ctx.
  - cbn [forallb] in Hs. apply andb_prop in Hs as [Ha Hs].
    cbn [modArgs map]. rewrite Ha, IH by done.
    destruct ctx; cbn. by rewrite <- app_assoc.
Qed.

(** One value per argument, where a lookup leaves the argument list
    alone. *)
Lemma modArgs_length (args : list modArg) (ctx : Ctx) :
  (forall p s c, modA (getSsc p s c).2 = modA c) ->
  length (modA (modArgs args ctx)) = (length (modA ctx) + length args)%nat.
Proof.
  intros Hg. revert ctx. induction args as [|a args IH]; intros ctx.
  - cbn [modArgs length]. lia.
  - cbn [modArgs length]. destruct (arg_static a).
    + rewrite IH. destruct ctx; cbn. rewrite length_app. cbn. lia.
    + pose proof (Hg (arg_val a) (arg_ssc a) ctx) as Hm.
      destruct (getSsc (arg_val a) (arg_ssc a) ctx) as [v c].
      cbn [snd] in Hm. rewrite IH. destruct c; cbn in *.
      rewrite length_app, Hm. cbn. lia.
Qed.
End PrintMods.

(** X11: a modifier that fails ends the modifier chain of its print node
    there: the node writes nothing and returns no error, the modifiers
    after it are not run, and the error is left in the context. *)
Theorem print_modifier_failure `{Host} (node : Node) (w : Sink)
    (ctx c1 c2 c3 : Ctx)
    (v v' : iface) (pre post : list Mod) (m : Mod) (f : ModFn)
    (e : error) :
  typ node = TypeTpl ->
  tplOperand node ctx = (v, c1) -> Err c1 = None ->
  mods node = pre ++ m :: post ->
  runMods pre v c1 = Some (v', c2) -> Err c2 = None ->
  mod_fn m = Some f ->
  (let cin := setBuf v' (modArgs (mod_arg m) (setModA [] c2)) in
   f cin v' (modA cin) = (Some e, c3)) ->
  renderNode node (w, ctx) = Some (None, [], (w, setErr (Some e) c3))
  /\ Err (setErr (Some e) c3) = Some e.
Proof.
  intros Ht Hop Hc1 Hm Hpre Hc2 Hf Hr. split; [|reflexivity].
  by eapply renderNode_mod_fails.
Qed.

(** X12: a modifier whose function pointer is nil, as a print prefix
    without a registered function leaves it, stops the render with a
    run-time panic when the chain reaches it. *)
Theorem print_nil_modifier_panics `{Host} (node : Node) (w : Sink)
    (ctx c1 c2 : Ctx)
    (v v' : iface) (pre post : list Mod) (m : Mod) :
  typ node = TypeTpl ->
  tplOperand node ctx = (v, c1) -> Err c1 = None ->
  mods node = pre ++ m :: post ->
  runMods pre v c1 = Some (v', c2) -> Err c2 = None ->
  mod_fn m = None ->
  renderNode node (w, ctx) = None
  /\ forall ns, renderTop (node :: ns) (w, ctx) = None.
Proof.
  intros Ht Hop Hc1 Hm Hpre Hc2 Hf.
  assert (E : renderNode node (w, ctx) = None).
  { rewrite renderNode_eq, Ht. cbv beta iota zeta. unfold renderTpl.
    rewrite Hop, Hc1, Hm, runMods_app, Hpre by done.
    cbn [mbind option_bind]. rewrite Hc2. cbn [runMods]. by rewrite Hf. }
  split; [exact E|]. intros ns. cbn [renderTop]. by rewrite E.
Qed.

Lemma print_modifier_failure_witness :
  let node :=
    set_mods [mkMod (B "ifThen") (Some (modIfThen demoConvBool)) []]
      (set_prn (mkPrint (B "x") false [] [] []) (set_typ TypeTpl Node0)) in
  exists c,
    @renderNode Buffer Demo.host node
      ([], Demo.ctxOf [("x"%string, IBool true)])
    = Some (None, [], ([], c))
    /\ Err c = Some ErrModNoArgs.
Proof.
  intros node. eexists.
  eapply (@print_modifier_failure Buffer Demo.host node []
            (Demo.ctxOf [("x"%string, IBool true)]) _ _ _ _ _ [] []
            (mkMod (B "ifThen") (Some (modIfThen demoConvBool)) [])
            (modIfThen demoConvBool) ErrModNoArgs);
    try reflexivity.
Defined.

Lemma print_nil_modifier_panics_witness :
  let node :=
    set_mods [mkMod idJ None []]
      (set_prn (mkPrint (B "x") false [] [] []) (set_typ TypeTpl Node0)) in
  @renderNode Buffer Demo.host node
    ([], Demo.ctxOf [("x"%string, IBool true)]) = None.
Proof.
  intros node.
  set (ctx := Demo.ctxOf [("x"%string, IBool true)]).
  exact (proj1 (@print_nil_modifier_panics Buffer Demo.host node [] ctx
                  (setBuf (IBool true) ctx) (setBuf (IBool true) ctx)
                  (IBool true) (IBool true) [] [] (mkMod idJ None [])
                  eq_refl eq_refl eq_refl eq_refl eq_refl eq_refl eq_refl)).
Defined.

(** X13: the [default] modifier in a print node: with one literal
    argument, a value that reads as zero, empty or false at one of the
    six conversions is replaced by the argument, any other value is
    printed as it is.  The prefix, if it is not empty, the converted
    value, and the suffix, if it is not empty, are handed to the writer
    in this order; the node returns the error of the write of the value
    and leaves no error in the context. *)
Theorem print_default `{Host} (Float : Type)
    (ConvInt ConvUint : iface -> option Z)
    (ConvFloat : iface -> option Float) (isZeroF : Float -> bool)
    (ConvBytes ConvStr : iface -> option bytes)
    (ConvBool : iface -> option bool)
    (node : Node) (w : Sink) (ctx c1 : Ctx) (v : iface) (id_ a : bytes)
    (ssc : list string) (bb : bytes) :
  let dflt := modDefault Float ConvInt ConvUint ConvFloat isZeroF
                         ConvBytes ConvStr ConvBool in
  let shown :=
    if isDefaultable Float ConvInt ConvUint ConvFloat isZeroF
                     ConvBytes ConvStr ConvBool v
    then IPtrBytes a else v in
  typ node = TypeTpl ->
  tplOperand node ctx = (v, c1) -> Err c1 = None ->
  mods node = [mkMod id_ (Some dflt) [mkArg a true ssc]] ->
  isNilOrEmptyString shown = false ->
  AnyToBytes (bbuf c1) shown = (bb, None) ->
  exists c,
    renderNode node (w, ctx)
    = (let pre := prefix (prn node) in
       let suf := suffix (prn node) in
       let w1 := if 0 <? len pre then (Write w pre).1 else w in
       let '(w2, err) := Write w1 bb in
       let w3 := if 0 <? len suf then (Write w2 suf).1 else w2 in
       Some (err, pre ++ bb ++ suf, (w3, c)))
    /\ Err c = None /\ vars c = vars c1 /\ buf c = shown /\ bbuf c = bb.
Proof.
  intros dflt shown Ht Hop Hc1 Hm Hne Hb. subst shown.
  destruct (isDefaultable _ _ _ _ _ _ _ _ v) eqn:Ez.
  - eexists. split.
    + eapply (print_one_mod node w ctx c1 _ v _ dflt bb Ht Hop Hc1 Hm eq_refl).
      * cbv zeta. unfold dflt, modDefault. cbn [mod_arg modArgs arg_static
          arg_val modA setModA setBuf app]. rewrite Ez. reflexivity.
      * exact Hne.
      * exact Hb.
    + repeat split; reflexivity.
  - eexists. split.
    + eapply (print_one_mod node w ctx c1 _ v _ dflt bb Ht Hop Hc1 Hm eq_refl).
      * cbv zeta. unfold dflt, modDefault. cbn [mod_arg modArgs arg_static
          arg_val modA setModA setBuf app]. rewrite Ez. reflexivity.
      * exact Hne.
      * exact Hb.
    + repeat split; reflexivity.
Qed.

(** X14: the [ifThenElse] modifier in a print node.  With two literal
    arguments, a value that reads as a bool is replaced by the first
    argument when true and by the second when false, and the node hands
    prefix, converted value and suffix to the writer and returns the
    error of the write of the value.  Called with fewer than two
    argument values the modifier fails, whatever the value and whether
    the arguments are literal or looked up: the node writes nothing,
    returns no error and leaves the poor-arguments error in the context.
    The modifier is called with one value per argument when a lookup
    leaves the argument list alone. *)
Theorem print_ifThenElse `{Host} (ConvBool : iface -> option bool)
    (node : Node) (w : Sink) (ctx c1 : Ctx) (v : iface) (id_ : bytes) :
  typ node = TypeTpl ->
  tplOperand node ctx = (v, c1) -> Err c1 = None ->
  (forall a b sa sb t bb,
     ConvBool v = Some t ->
     mods node = [mkMod id_ (Some (modIfThenElse ConvBool))
                        [mkArg a true sa; mkArg b true sb]] ->
     AnyToBytes (bbuf c1) (IPtrBytes (if t then a else b)) = (bb, None) ->
     exists c,
       renderNode node (w, ctx)
       = (let pre := prefix (prn node) in
          let suf := suffix (prn node) in
          let w1 := if 0 <? len pre then (Write w pre).1 else w in
          let '(w2, err) := Write w1 bb in
          let w3 := if 0 <? len suf then (Write w2 suf).1 else w2 in
          Some (err, pre ++ bb ++ suf, (w3, c)))
       /\ Err c = None /\ vars c = vars c1)
  /\ (forall args,
        mods node = [mkMod id_ (Some (modIfThenElse ConvBool)) args] ->
        (length (modA (modArgs args (setModA [] c1))) < 2)%nat ->
        exists c,
          renderNode node (w, ctx) = Some (None, [], (w, c))
          /\ Err c = Some ErrModPoorArgs)
  /\ ((forall p s c, modA (getSsc p s c).2 = modA c) ->
      forall args c,
        length (modA (modArgs args (setModA [] c))) = length args).
Proof.
  intros Ht Hop Hc1. split; [|split].
  - intros a b sa sb t bb Hv Hm Hb. destruct t.
    all: eexists; split;
      [eapply (print_one_mod node w ctx c1 _ v _ _ bb Ht Hop Hc1 Hm eq_refl);
       [cbv zeta; unfold modIfThenElse;
        cbn [mod_arg modArgs arg_static arg_val modA setModA setBuf app];
        rewrite Hv; reflexivity
       |reflexivity
       |exact Hb]
      |split; reflexivity].
  - intros args Hm Hlen. eexists. split.
    + eapply (renderNode_mod_fails node w ctx c1 c1 _ v v [] [] _
                (modIfThenElse ConvBool) ErrModPoorArgs Ht Hop Hc1 Hm
                eq_refl Hc1 eq_refl).
      cbv zeta. cbn [mod_arg]. unfold modIfThenElse.
      change (modA (setBuf v (modArgs args (setModA [] c1))))
        with (modA (modArgs args (setModA [] c1))).
      destruct (modA (modArgs args (setModA [] c1))) as [|x [|y l]];
        [reflexivity|reflexivity|cbn in Hlen; lia].
    + reflexivity.
  - intros Hg args c. by rewrite modArgs_length.
Qed.

Lemma print_default_witness :
  let dflt := modDefault unit (fun _ => None) (fun _ => None)
                (fun _ => None) (fun _ => true) Demo.valBytes
                (fun _ => None) demoConvBool in
  let node :=
    set_mods [mkMod (B "default") (Some dflt) [mkArg (B "n/a") true []]]
      (set_prn (mkPrint (B "x") false [] [] []) (set_typ TypeTpl Node0)) in
  exists c,
    @renderNode Demo.limited Demo.host node
      (2, Demo.ctxOf [("x"%string, IBytes [])])
    = Some (Some (ErrExternal "no room"), B "n/a", (2, c))
    /\ Err c = None.
Proof.
  intros dflt node.
  set (ctx := Demo.ctxOf [("x"%string, IBytes [])]).
  assert (W := @print_default Demo.limited Demo.host unit (fun _ => None)
                 (fun _ => None) (fun _ => None) (fun _ => true)
                 Demo.valBytes (fun _ => None) demoConvBool node 2 ctx
                 (setBuf (IBytes []) ctx) (IBytes []) (B "default")
                 (B "n/a") [] (B "n/a")).
  cbv zeta in W.
  specialize (W eq_refl eq_refl eq_refl eq_refl eq_refl eq_refl).
  destruct W as (c & E & He & _). exists c. split; [|exact He].
  refine (eq_trans E _). vm_compute. reflexivity.
Defined.

Lemma print_ifThenElse_witness :
  let two :=
    set_mods [mkMod (B "ifThenElse") (Some (modIfThenElse demoConvBool))
                    [mkArg (B "yes") true []; mkArg (B "no") true []]]
      (set_prn (mkPrint (B "x") false [] [] []) (set_typ TypeTpl Node0)) in
  let one :=
    set_mods [mkMod (B "ifThenElse") (Some (modIfThenElse demoConvBool))
                    [mkArg (B "y") false ["y"%string]]]
      (set_prn (mkPrint (B "x") false [] [] []) (set_typ TypeTpl Node0)) in
  (exists c,
     @renderNode Buffer Demo.host two
       ([], Demo.ctxOf [("x"%string, IBool false)])
     = Some (None, B "no", (B "no", c))
     /\ Err c = None)
  /\ (exists c,
        @renderNode Buffer Demo.host one
          ([], Demo.ctxOf [("x"%string, IInt 7)])
        = Some (None, [], ([], c))
        /\ Err c = Some ErrModPoorArgs).
Proof.
  intros two one. split.
  - set (ctx := Demo.ctxOf [("x"%string, IBool false)]).
    destruct (@print_ifThenElse Buffer Demo.host demoConvBool two [] ctx
                (setBuf (IBool false) ctx) (IBool false) (B "ifThenElse")
                eq_refl eq_refl eq_refl) as (W & _ & _).
    destruct (W (B "yes") (B "no") [] [] false (B "no")
                eq_refl eq_refl eq_refl) as (c & E & He & _).
    exists c. split; [|exact He].
    refine (eq_trans E _). vm_compute. reflexivity.
  - set (ctx := Demo.ctxOf [("x"%string, IInt 7)]).
    destruct (@print_ifThenElse Buffer Demo.host demoConvBool one [] ctx
                (setBuf (IInt 7) ctx) (IInt 7) (B "ifThenElse")
                eq_refl eq_refl eq_refl) as (_ & W & _).
    destruct (W [mkArg (B "y") false ["y"%string]] eq_refl
                ltac:(vm_compute; lia)) as (c & E & He).
    exists c. split; [exact E|exact He].
Defined.

Section TreeShape.
Variable isStatic : bytes -> bool.
Variable modRegistry : gmap string ModFn.

Abbreviation allShape l := (forallb shapeOK l = true).

Lemma shapeOK_eq (n : Node) :
  shapeOK n =
  match typ n with
  | TypeRaw =>
      (0 <? len (raw (prn n))) && bool_decide (child n = [])
  | TypeTpl | TypeCtx | TypeCounter | TypeDiv | TypeBreak | TypeContinue
  | TypeExit => bool_decide (child n = [])
  | TypeSwitch => forallb isCaseOrDefault (child n)
  | TypeCondTrue | TypeCondFalse =>
      forallb (fun c => negb (isDiv c)) (child n)
  | TypeNone => false
  | _ => true
  end
  && forallb shapeOK (child n).
Proof. destruct n; reflexivity. Qed.

Lemma shapeOK_leaf (n : Node) :
  child n = [] -> typ n <> TypeRaw -> typ n <> TypeNone ->
  shapeOK n = true.
Proof.
  intros Hc Hr Hn. rewrite shapeOK_eq, Hc.
  destruct (typ n); try reflexivity; congruence.
Qed.

Lemma shapeOK_raw (r : bytes) : r <> [] -> shapeOK (rawNode r) = true.
Proof.
  intros Hr. rewrite shapeOK_eq. cbn.
  destruct r as [|c r]; [done|]. reflexivity.
Qed.

Lemma shapeOK_children (n : Node) : shapeOK n = true -> allShape (child n).
Proof. rewrite shapeOK_eq. intros E. by apply andb_prop in E as [_ E]. Qed.

Lemma allShape_snoc (l : list Node) (n : Node) :
  allShape l -> shapeOK n = true -> allShape (addNode l n).
Proof.
  intros Hl Hn. unfold addNode. rewrite forallb_app, Hl. simpl.
  by rewrite Hn.
Qed.

Lemma allShape_addRaw (l : list Node) (r : bytes) :
  allShape l -> allShape (addRaw l r).
Proof.
  intros Hl. unfold addRaw. destruct r as [|c r]; [done|].
  apply (allShape_snoc l); [done|]. by apply shapeOK_raw.
Qed.

Lemma allShape_Forall (l : list Node) :
  allShape l <-> Forall (fun n => shapeOK n = true) l.
Proof.
  induction l as [|n l IH]; simpl.
  - split; [constructor|done].
  - rewrite andb_true_iff, IH. split.
    + intros [? ?]. by constructor.
    + inversion 1; subst. by split.
Qed.

Lemma parts_shape (l cur : list Node) :
  allShape l -> allShape cur ->
  Forall (fun s => allShape s) (parts l cur).
Proof.
  revert cur. induction l as [|n l IH]; intros cur Hl Hc; simpl.
  - destruct cur; constructor; [done|constructor].
  - simpl in Hl. apply andb_prop in Hl as [Hn Hl].
    destruct (isDiv n).
    + constructor; [done|]. by apply IH.
    + apply IH; [done|]. rewrite forallb_app, Hc. simpl. by rewrite Hn.
Qed.

Lemma rollupLoop_shape (rest r : list Node) (group : Node) :
  allShape rest ->
  allShape r -> forallb isCaseOrDefault r = true ->
  (typ group = TypeNone /\ child group = []
   \/ isCaseOrDefault group = true /\ allShape (child group)) ->
  let '(r', group') := rollupLoop rest r group in
  allShape r' /\ forallb isCaseOrDefault r' = true
  /\ (typ group' = TypeNone /\ child group' = []
      \/ isCaseOrDefault group' = true /\ allShape (child group')).
Proof.
  revert r group.
  induction rest as [|n rest IH]; intros r group Hrest Hr Hcd Hg.
  - simpl. done.
  - simpl in Hrest. apply andb_prop in Hrest as [Hn Hrest]. simpl.
    destruct (isCaseOrDefault n) eqn:En; cbn [negb andb].
    + apply IH; [exact Hrest| | |].
      * destruct (bool_decide (typ group <> TypeNone)) eqn:Eg; [|exact Hr].
        apply bool_decide_eq_true_1 in Eg.
        destruct Hg as [[Hg _]|[Hg Hc]]; [done|].
        apply (allShape_snoc r); [exact Hr|].
        rewrite shapeOK_eq, Hc.
        unfold isCaseOrDefault in Hg. apply orb_prop in Hg as [Hg|Hg];
          apply bool_decide_eq_true_1 in Hg; by rewrite Hg.
      * destruct (bool_decide (typ group <> TypeNone)) eqn:Eg; [|exact Hcd].
        apply bool_decide_eq_true_1 in Eg.
        destruct Hg as [[Hg _]|[Hg Hc]]; [done|].
        rewrite forallb_app, Hcd. simpl. by rewrite Hg.
      * right. split; [exact En|]. by apply shapeOK_children.
    + destruct (bool_decide (typ group = TypeNone)) eqn:Eg.
      * by apply IH.
      * apply bool_decide_eq_false_1 in Eg.
        destruct Hg as [[Hg _]|[Hg Hc]]; [done|].
        apply IH; [exact Hrest|exact Hr|exact Hcd|]. right. split.
        -- unfold isCaseOrDefault in *. by destruct group.
        -- replace (child (set_child (child group ++ [n]) group))
             with (child group ++ [n]) by (by destruct group).
           rewrite forallb_app, Hc. simpl. by rewrite Hn.
Qed.

Lemma rollupSwitchNodes_shape (l : list Node) :
  allShape l ->
  allShape (rollupSwitchNodes l)
  /\ forallb isCaseOrDefault (rollupSwitchNodes l) = true.
Proof.
  intros Hl. unfold rollupSwitchNodes. destruct l as [|n l]; [done|].
  pose proof (rollupLoop_shape (n :: l) [] (set_typ TypeNone Node0) Hl
                eq_refl eq_refl (or_introl (conj eq_refl eq_refl))) as Hr.
  destruct (rollupLoop (n :: l) [] (set_typ TypeNone Node0)) as [r g].
  destruct Hr as (Hr & Hcd & Hg).
  destruct (0 <? len (child g)) eqn:E; [|done].
  destruct Hg as [[_ Hg]|[Hg Hc]]; [by rewrite Hg in E|].
  split.
  - apply (allShape_snoc r); [done|]. rewrite shapeOK_eq, Hc.
    unfold isCaseOrDefault in Hg. apply orb_prop in Hg as [Hg|Hg];
      apply bool_decide_eq_true_1 in Hg; by rewrite Hg.
  - rewrite forallb_app, Hcd. simpl. by rewrite Hg.
Qed.

Lemma shapeOK_branch (t : Typ) (body : list Node) :
  t = TypeCondTrue \/ t = TypeCondFalse ->
  allShape body -> forallb (fun c => negb (isDiv c)) body = true ->
  shapeOK (set_child body (set_typ t Node0)) = true.
Proof.
  intros Ht Hb Hd. rewrite shapeOK_eq. cbn [typ child set_child set_typ Node0].
  rewrite Hb. destruct Ht as [-> | ->]; by rewrite Hd.
Qed.

Lemma condBranches_shape (split : list (list Node)) (root : Node) :
  typ root = TypeCond -> child root = [] ->
  Forall (fun s => allShape s) split ->
  Forall (fun s => forallb (fun c => negb (isDiv c)) s = true) split ->
  shapeOK (condBranches split root) = true.
Proof.
  intros Ht Hr Hs Hd.
  rewrite shapeOK_eq, condBranches_typ, Ht, condBranches_child, Hr, app_nil_l.
  cbn [andb].
  destruct split as [|s0 [|s1 rest]]; [reflexivity| |].
  - inversion Hs; inversion Hd; subst. cbn [forallb].
    unfold branchTrue. rewrite shapeOK_branch by auto. reflexivity.
  - inversion Hs as [|? ? ? Hs']; inversion Hd as [|? ? ? Hd']; subst.
    inversion Hs'; inversion Hd'; subst. cbn [forallb].
    unfold branchTrue, branchFalse. rewrite !shapeOK_branch by auto.
    reflexivity.
Qed.

Lemma processCtl_shape nested (p p' : Parser) (ns ns' : list Node)
    (ctl : bytes) (pos o' : Z) (goUp : bool) (e : option error) :
  keepsShape nested -> allShape ns ->
  processCtl isStatic modRegistry nested p ns Node0 ctl pos
  = Some (ns', o', goUp, e, p') ->
  allShape ns'.
Proof.
  intros Hrec Hns. unfold processCtl.
  set (t := Trim ctl ctlTrim).
  repeat (case_match; try (intros [= <- <- <- <- <-]; first
                             [ exact Hns
                             | apply (allShape_snoc ns); [exact Hns|];
                               apply shapeOK_leaf;
                               first [ apply printNode_child
                                     | apply ctxNode_child
                                     | by erewrite cntrNode_child
                                         by eassumption
                                     | by rewrite printNode_typ
                                     | by rewrite ctxNode_typ
                                     | by erewrite cntrNode_typ
                                         by eassumption
                                     | reflexivity
                                     | discriminate ] ])).
  all: (destruct (nested _ _ _ _) as [[[[body off] err] q]|] eqn:Er;
            simpl; [|discriminate]; intros [= <- <- <- <- <-];
            apply (allShape_snoc ns); [exact Hns|];
            pose proof (Hrec _ [] _ _ _ _ _ _ (eq_refl true) Er) as Hsub).
  - apply condBranches_shape;
      [apply condNode_typ|by rewrite condNode_child| |].
    + rewrite splitNodes_parts. by apply parts_shape.
    + rewrite splitNodes_parts. by apply parts_no_div.
  - apply condBranches_shape;
      [apply condNode_typ|by rewrite condNode_child| |].
    + rewrite splitNodes_parts. by apply parts_shape.
    + rewrite splitNodes_parts. by apply parts_no_div.
  - rewrite shapeOK_eq.
    replace (typ (set_child body n)) with (typ n) by (by destruct n).
    replace (child (set_child body n)) with body by (by destruct n).
    rewrite Hsub.
    match goal with H : loopNode _ _ _ = Some _ |- _ =>
      apply loopNode_typ' in H as [-> | ->] end; reflexivity.
  - destruct (rollupSwitchNodes_shape body Hsub) as [Ha Hb].
    rewrite shapeOK_eq. cbn [typ child set_child set_switchArg set_typ Node0].
    by rewrite Ha, Hb.
  - destruct (rollupSwitchNodes_shape body Hsub) as [Ha Hb].
    rewrite shapeOK_eq. cbn [typ child set_child set_switchArg set_typ Node0].
    by rewrite Ha, Hb.
Qed.

Lemma parseLoop_shape (fuel : nat) : forall p ns o i inCtl tg ns' o' e p',
  allShape ns ->
  parseLoop isStatic modRegistry fuel p ns o i inCtl tg
  = Some (ns', o', e, p') ->
  allShape ns'.
Proof.
  induction fuel as [|fuel IH]; intros p ns o i inCtl tg ns' o' e p' Hns;
    [discriminate|].
  cbn [parseLoop].
  destruct (negb (reached tg p) || eqZero tg);
    [|intros [= <- <- <- <-]; exact Hns].
  destruct (IndexAt (tpl p) ctlOpen i <? 0).
  { destruct inCtl; intros [= <- <- <- <-];
      [exact Hns|by apply allShape_addRaw]. }
  destruct inCtl.
  - destruct (IndexAt (tpl p) ctlClose _ <? 0);
      [intros [= <- <- <- <-]; exact Hns|].
    destruct (processCtl _ _ _ _ _ _ _ _) as [[[[[ns1 e1] up1] err1] p1]|]
      eqn:Ep; simpl; [|discriminate].
    assert (Hns1 : allShape ns1).
    { eapply processCtl_shape; [|exact Hns|exact Ep].
      intros q ms off tg0 ms' off' e0 q' Hms. apply IH. exact Hms. }
    destruct err1; [intros [= <- <- <- <-]; exact Hns1|].
    destruct up1; [intros [= <- <- <- <-]; exact Hns1|].
    by apply IH.
  - apply IH. by apply allShape_addRaw.
Qed.
End TreeShape.

(** X15: every tree the parser returns, with or without an error, is
    well-shaped at every depth: a Raw node holds at least one byte and
    has no children; print, context, counter, divider, break, continue
    and exit nodes have no children; the children of a Switch are Case
    and Default nodes only; the body of a condition branch holds no
    divider. *)
Theorem parse_tree_shape (isStatic : bytes -> bool)
    (modRegistry : gmap string ModFn) (src : bytes) (keep : bool)
    (tree : Tree) (err : option error) :
  Parse isStatic modRegistry src keep = Some (tree, err) ->
  Forall (fun n => shapeOK n = true) (nodes tree).
Proof.
  intros HP. apply allShape_Forall. unfold Parse, parseTpl in HP.
  destruct (parseLoop _ _ _ _ _ _ _ _ _) as [[[[ns o] e] p]|] eqn:E;
    simpl in HP; [|discriminate].
  injection HP as <- <-. simpl.
  by eapply parseLoop_shape; [|exact E].
Qed.

Lemma parse_tree_shape_witness :
  exists tree err,
    Demo.parse "{% switch a %}x{% case 1 %}A{% default %}D{% endswitch %}"
    = Some (tree, err)
    /\ Forall (fun n => shapeOK n = true) (nodes tree).
Proof.
  destruct (Demo.parse
              "{% switch a %}x{% case 1 %}A{% default %}D{% endswitch %}")
    as [[tree err]|] eqn:E; [|vm_compute in E; discriminate].
  exists tree, err. split; [reflexivity|].
  exact (parse_tree_shape Demo.isStatic ∅ _ false tree err E).
Defined.

Section ModFacts.
Variable isStatic : bytes -> bool.
Variable modRegistry : gmap string ModFn.

Lemma suffixMods_registered (chunks : list bytes) (ms : list Mod) :
  Forall (registeredMod modRegistry) ms ->
  Forall (registeredMod modRegistry)
         (suffixMods isStatic modRegistry chunks ms).
Proof.
  revert ms. induction chunks as [|c chunks IH]; intros ms Hms; [done|].
  cbn [suffixMods].
  destruct (FindSubmatch reMod c) as [m|]; [|by apply IH].
  unfold GetModFn.
  destruct (modRegistry !! B2S (sub m 1)) as [f|] eqn:E; [|by apply IH].
  apply IH. apply Forall_app. split; [done|].
  constructor; [|constructor]. by exists f.
Qed.

Lemma suffixMods_empty (chunks : list bytes) :
  (forall name, modRegistry !! name = None) ->
  suffixMods isStatic modRegistry chunks [] = [].
Proof.
  intros Hr. induction chunks as [|c chunks IH]; [done|].
  cbn [suffixMods]. destruct (FindSubmatch reMod c) as [m|]; [|done].
  unfold GetModFn. by rewrite Hr.
Qed.
End ModFacts.

(** X16: without a print prefix, every modifier [extractMods] attaches
    is registered: its function is the one the registry holds under its
    name, and a suffix whose name is not registered is left out. *)
Theorem extractMods_suffix_registered (isStatic : bytes -> bool)
    (modRegistry : gmap string ModFn) (t : bytes) :
  Forall (registeredMod modRegistry)
         (extractMods isStatic modRegistry t []).2.
Proof.
  unfold extractMods.
  destruct (Contains t vline || (0 <? len [])); [|constructor].
  replace (bytes_eqb [] outmJ) with false by (vm_compute; reflexivity).
  replace (bytes_eqb [] outmQ) with false by (vm_compute; reflexivity).
  replace (bytes_eqb [] outmH) with false by (vm_compute; reflexivity).
  replace (bytes_eqb [] outmU) with false by (vm_compute; reflexivity).
  replace (FindSubmatch reModPfxF []) with (@None Caps)
    by (vm_compute; reflexivity).
  cbv beta iota zeta. cbn [snd].
  apply suffixMods_registered. constructor.
Qed.

(** X17: a print prefix is not checked against the registry: for the
    prefixes [j], [q], [h] and [u] the last modifier [extractMods]
    attaches is the prefix's, with the function the registry holds under
    the fixed name and nil if it holds none. *)
Theorem extractMods_prefix_unchecked (isStatic : bytes -> bool)
    (modRegistry : gmap string ModFn) (t outm : bytes) (name : string)
    (id_ : bytes) :
  ((outm, name, id_) ∈ [(outmJ, "jsonEscape"%string, idJ);
                        (outmQ, "jsonQuote"%string, idQ);
                        (outmH, "htmlEscape"%string, idH);
                        (outmU, "urlEncode"%string, idU)]) ->
  exists ms,
    (extractMods isStatic modRegistry t outm).2
    = ms ++ [mkMod id_ (modRegistry !! name) []].
Proof.
  intros Hin. rewrite !elem_of_cons, elem_of_nil in Hin.
  assert (Hg : forall n, GetModFn modRegistry n = modRegistry !! n).
  { intros n. unfold GetModFn. by destruct (modRegistry !! n). }
  unfold extractMods, prefixMod.
  destruct Hin as [[= -> -> ->]|[[= -> -> ->]|[[= -> -> ->]|[[= -> -> ->]|[]]]]].
  all: rewrite orb_true_r.
  all: repeat match goal with
       | |- context [bytes_eqb ?a ?b] =>
           let v := eval vm_compute in (bytes_eqb a b) in
           replace (bytes_eqb a b) with v by (vm_compute; reflexivity)
       | |- context [FindSubmatch reModPfxF ?a] =>
           replace (FindSubmatch reModPfxF a) with (@None Caps)
             by (vm_compute; reflexivity)
       end.
  all: cbv beta iota zeta; cbn [snd]; rewrite Hg; eexists; reflexivity.
Qed.

Lemma extractMods_prefix_unchecked_witness :
  exists ms,
    (extractMods Demo.isStatic ∅ (B "x") outmJ).2
    = ms ++ [mkMod idJ None []].
Proof.
  exact (extractMods_prefix_unchecked Demo.isStatic ∅ (B "x") outmJ
           "jsonEscape" idJ ltac:(constructor)).
Defined.

(** X18: a target taken from a parser is reached by exactly the parsers
    whose three depth counters equal those it was taken from, and it is
    the root target exactly when all three were zero. *)
Theorem target_reached (p q : Parser) :
  (reached (newTarget p) q = true
   <-> cc p = cc q /\ cl p = cl q /\ cs p = cs q)
  /\ (eqZero (newTarget p) = true <-> cc p = 0 /\ cl p = 0 /\ cs p = 0).
Proof.
  assert (Hc : tget (newTarget p) targetCond = cc p) by reflexivity.
  assert (Hl : tget (newTarget p) targetLoop = cl p) by reflexivity.
  assert (Hs : tget (newTarget p) targetSwitch = cs p) by reflexivity.
  unfold reached, eqZero. rewrite Hc, Hl, Hs.
  rewrite !andb_true_iff, !Z.eqb_eq. tauto.
Qed.

Section CloserFacts.
Variable isStatic : bytes -> bool.
Variable modRegistry : gmap string ModFn.

(** A closing tag adds no node, asks the caller to go up and takes one
    off its depth counter. *)
Lemma processCtl_closer nested (p : Parser) (ns : list Node) (root : Node)
    (ctl : bytes) (pos : Z) :
  isCloser (Trim ctl ctlTrim) = true ->
  exists q,
    processCtl isStatic modRegistry nested p ns root ctl pos
    = Some (ns, pos + len ctl, true, None, q)
    /\ tpl q = tpl p.
Proof.
  unfold isCloser. rewrite !orb_true_iff, !bytes_eqb_eq.
  intros [[Ht|Ht]|Ht]; unfold processCtl; rewrite Ht.
  all: repeat match goal with
       | |- context [Match ?r ?t] =>
           let v := eval vm_compute in (Match r t) in
           replace (Match r t) with v by (vm_compute; reflexivity)
       | |- context [bytes_eqb ?a ?b] =>
           let v := eval vm_compute in (bytes_eqb a b) in
           replace (bytes_eqb a b) with v by (vm_compute; reflexivity)
       | |- context [FindSubmatch reSwitch ?t] =>
           replace (FindSubmatch reSwitch t) with (@None Caps)
             by (vm_compute; reflexivity)
       end.
  all: cbv beta iota zeta; cbn [orb]; eexists; (split; [reflexivity|]);
    reflexivity.
Qed.
End CloserFacts.

(** X19: a closing tag ([endif], [endfor], [endswitch]) that is the
    first tag of a template and so closes nothing ends the parse there:
    the tree holds the text before it, what follows the tag is dropped,
    and no error is returned. *)
Theorem stray_closer_truncates (isStatic : bytes -> bool)
    (modRegistry : gmap string ModFn) (src : bytes) (keep : bool)
    (i e : Z) :
  let body := preprocessed src keep in
  IndexAt body ctlOpen 0 = i -> 0 <= i ->
  IndexAt body ctlClose i = e -> 0 <= e ->
  isCloser (Trim (sliceZ body i (e + 2)) ctlTrim) = true ->
  Parse isStatic modRegistry src keep
  = Some (mkTree (addRaw [] (sliceZ body 0 i)), None).
Proof.
  intros body Ho Hi He He0 Hc. unfold Parse, parseFuel, parseTpl.
  destruct (preprocess_counters src keep) as (Hcc & Hcl & Hcs).
  unfold preprocessed in body.
  set (p := cutFmt (cutComments (mkParser keep src 0 0 0))) in *.
  fold body.
  cbn [parseLoop]. rewrite eqZero_root, orb_true_r by assumption.
  fold body. rewrite Ho.
  rewrite (proj2 (Z.ltb_ge i 0)) by lia.
  rewrite (IndexAt_again _ _ _ _ Ho Hi).
  rewrite (proj2 (Z.ltb_ge i 0)) by lia.
  rewrite He. rewrite (proj2 (Z.ltb_ge e 0)) by lia.
  match goal with
  | |- context [processCtl _ _ ?nested ?p0 ?ns ?r ?ctl ?pos] =>
      destruct (processCtl_closer isStatic modRegistry nested p0 ns r ctl
                  pos Hc) as (q & -> & _)
  end.
  reflexivity.
Qed.

Lemma stray_closer_truncates_witness :
  Demo.parse "a{% endif %}b" = Some (mkTree [rawNode (B "a")], None).
Proof.
  assert (W := stray_closer_truncates Demo.isStatic ∅ (B "a{% endif %}b")
                 false 1 10).
  cbv zeta in W.
  specialize (W ltac:(vm_compute; reflexivity) ltac:(lia)
                ltac:(vm_compute; reflexivity) ltac:(lia)
                ltac:(vm_compute; reflexivity)).
  unfold Demo.parse. rewrite W. vm_compute. reflexivity.
Defined.

(** X21: the names [Type.String] gives are pairwise different on the
    node types it names, so a printed name identifies the type. *)
Theorem TypeString_injective (a b : Typ) :
  TypeString a <> "unk"%string ->
  TypeString a = TypeString b -> a = b.
Proof. destruct a, b; simpl; intros Hn; try discriminate; try done. Qed.

Lemma TypeString_injective_witness :
  TypeString TypeCase <> "unk"%string /\ TypeCase = TypeCase.
Proof.
  split; [discriminate|].
  apply (TypeString_injective TypeCase TypeCase); [discriminate|reflexivity].
Defined.

Section ArgFacts.
Variable isStatic : bytes -> bool.

Lemma splitByte_length (s : bytes) (sep : byte) (cur : bytes) :
  length (splitByte s sep cur) = S (countByte sep s).
Proof.
  revert cur. induction s as [|c s IH]; intros cur; [reflexivity|].
  unfold countByte in *. cbn [splitByte List.filter].
  destruct (Byte.eqb c sep); cbn [length]; by rewrite IH.
Qed.

Lemma TrimLeft_head (p cut : bytes) (c : byte) :
  head (TrimLeft p cut) = Some c -> memb c cut = false.
Proof.
  induction p as [|d p IH]; [discriminate|].
  cbn [TrimLeft]. destruct (memb d cut) eqn:E; [exact IH|].
  by intros [= <-].
Qed.

(** Dropping bytes from the front of [rev q] keeps a prefix of [q]. *)
Lemma TrimLeft_drop (p cut : bytes) :
  exists k, TrimLeft p cut = drop k p.
Proof.
  induction p as [|d p [k IH]]; [by exists 0%nat|].
  cbn [TrimLeft]. destruct (memb d cut); [|by exists 0%nat].
  by exists (S k).
Qed.

Lemma TrimRight_take (q cut : bytes) :
  exists k, TrimRight q cut = take k q.
Proof.
  unfold TrimRight. destruct (TrimLeft_drop (rev q) cut) as [k ->].
  exists (length q - k)%nat.
  by rewrite List.skipn_rev, rev_involutive.
Qed.

Lemma Trim_endsClear (p cut : bytes) : endsClear (Trim p cut) cut.
Proof.
  unfold Trim. split; intros c Hc.
  - destruct (TrimRight_take (TrimLeft p cut) cut) as [k E].
    rewrite E in Hc.
    apply (TrimLeft_head p cut).
    destruct k; [discriminate|].
    destruct (TrimLeft p cut); [discriminate|exact Hc].
  - unfold TrimRight in Hc. rewrite rev_alt in Hc.
    change (rev_append ?x []) with (reverse x) in Hc.
    rewrite last_reverse in Hc. by apply TrimLeft_head in Hc.
Qed.
End ArgFacts.

(** X22: [extractArgs] gives one argument per comma-separated piece of
    the list, none for the empty list, whether or not a piece is empty;
    the value of an argument neither begins nor ends with a quote. *)
Theorem extractArgs_pieces (isStatic : bytes -> bool) (l : bytes) :
  length (extractArgs isStatic l)
  = match l with [] => 0%nat | _ => S (countByte comma l) end
  /\ Forall (fun a => endsClear (arg_val a) quotes) (extractArgs isStatic l).
Proof.
  unfold extractArgs. destruct l as [|c l]; [by split|].
  replace (len (c :: l) =? 0) with false
    by (symmetry; apply Z.eqb_neq; unfold len; simpl; lia).
  split.
  - rewrite length_map. apply splitByte_length.
  - apply Forall_map, Forall_true. intros a. apply Trim_endsClear.
Qed.

Section CondFacts.
Context `{Host}.

Lemma condEval_set_child (l : list Node) (node : Node) (ctx : Ctx) :
  condEval (set_child l node) ctx = condEval node ctx.
Proof. by destruct node. Qed.
End CondFacts.

(** X23: a condition never renders its second child.  With two children
    or more, the first is rendered whenever the comparison is evaluated
    without error, whether it holds or not; with one child, that child is
    rendered when the comparison holds and nothing is written when it
    does not. *)
Theorem cond_renders_first_child `{Host} (node t f : Node)
    (rest : list Node) (w : Sink) (ctx : Ctx) :
  typ node = TypeCond ->
  renderNode (set_child (t :: f :: rest) node) (w, ctx)
  = match condEval node ctx with
    | (inl e, c) => Some (Some e, [], (w, c))
    | (inr _, c) => renderNode t (w, c)
    end
  /\ renderNode (set_child [t] node) (w, ctx)
     = match condEval node ctx with
       | (inl e, c) => Some (Some e, [], (w, c))
       | (inr true, c) => renderNode t (w, c)
       | (inr false, c) => Some (None, [], (w, c))
       end.
Proof.
  intros Ht. split.
  - rewrite renderCond_children by (by rewrite typ_set_child).
    rewrite condEval_set_child, child_set_child.
    by destruct (condEval node ctx) as [[e|r] c].
  - rewrite renderCond_children by (by rewrite typ_set_child).
    rewrite condEval_set_child, child_set_child.
    destruct (condEval node ctx) as [[e|r] c]; [reflexivity|].
    by destruct r.
Qed.

Lemma cond_renders_first_child_witness :
  let node := set_cond (mkCond (B "a") (B "1") false true [] OpEq [] [])
                       (set_typ TypeCond Node0) in
  @renderNode Buffer Demo.host
    (set_child [branchTrue [rawNode (B "T")]; branchFalse [rawNode (B "F")]]
               node)
    ([], Demo.ctxOf [("a"%string, IBytes (B "2"))])
  = Some (None, B "T", (B "T", Demo.ctxOf [("a"%string, IBytes (B "2"))])).
Proof.
  intros node.
  destruct (@cond_renders_first_child Buffer Demo.host node
              (branchTrue [rawNode (B "T")]) (branchFalse [rawNode (B "F")])
              [] [] (Demo.ctxOf [("a"%string, IBytes (B "2"))]) eq_refl)
    as [E _].
  refine (eq_trans E _). vm_compute. reflexivity.
Defined.
